(** * llms-full-generator: a shallow embedding of [src/index.ts]

    The crawler class [SiteIndexer] is embedded function by function.
    JavaScript strings are sequences of UTF-16 code units; the mutable fields
    of the class are threaded explicitly; the collaborators (url-parse, the
    WHATWG [URL] constructor, axios + cheerio + turndown, the file system) are
    interfaces or small models that are documented where they are introduced. *)

From Stdlib Require Import NArith ZArith Ascii String Lia.
From stdpp Require Import base option list gmap.

Set Default Proof Using "Type".
#[local] Set Warnings "-clear-no-such-hyp".
Open Scope list_scope.

(** ** JavaScript strings *)

(** A string is the list of its UTF-16 code units. *)
Abbreviation jsstring := (list N).

(** String literals of the source, written as ASCII text. *)
Definition str (s : string) : jsstring :=
  map N_of_ascii (list_ascii_of_string s).
Arguments str s%_string.

(** The line feed U+000A, written ["\n"] in the source. *)
Definition LF : N := 10%N.

Module JS.

(** [if (s)] on a string: the empty string is the only falsy one. *)
Definition truthy (s : jsstring) : bool :=
  match s with [] => false | _ :: _ => true end.

(** White space and line terminators removed by [String.prototype.trim]. *)
Definition isWhiteSpace (c : N) : bool :=
  ((9 <=? c) && (c <=? 13) || (c =? 32) || (c =? 160) || (c =? 5760)
   || (8192 <=? c) && (c <=? 8202) || (c =? 8232) || (c =? 8233)
   || (c =? 8239) || (c =? 8287) || (c =? 12288) || (c =? 65279))%N.

Fixpoint trimStart (s : jsstring) : jsstring :=
  match s with
  | [] => []
  | c :: s' => if isWhiteSpace c then trimStart s' else s
  end.

Definition trimEnd (s : jsstring) : jsstring := rev (trimStart (rev s)).

Definition trim (s : jsstring) : jsstring := trimEnd (trimStart s).

(** [s.split(sep)] for a one-character separator: always at least one
    piece, the pieces never contain the separator. *)
Fixpoint split (sep : N) (s : jsstring) : list jsstring :=
  match s with
  | [] => [[]]
  | c :: s' =>
      if (c =? sep)%N then [] :: split sep s'
      else match split sep s' with
           | piece :: pieces => (c :: piece) :: pieces
           | [] => [[c]]
           end
  end.

(** [arr.join(sep)]. *)
Fixpoint join (sep : jsstring) (arr : list jsstring) : jsstring :=
  match arr with
  | [] => []
  | [x] => x
  | x :: rest => x ++ sep ++ join sep rest
  end.

Fixpoint startsWith (s prefix : jsstring) : bool :=
  match prefix, s with
  | [], _ => true
  | _ :: _, [] => false
  | p :: prefix', c :: s' => (c =? p)%N && startsWith s' prefix'
  end.

Definition endsWith (s suffix : jsstring) : bool :=
  startsWith (rev s) (rev suffix).

Fixpoint includes (s sub : jsstring) : bool :=
  startsWith s sub ||
  match s with
  | [] => false
  | _ :: s' => includes s' sub
  end.

(** [arr.filter((x, index, arr) => p)]: the callback sees the element, its
    index and the array being filtered. *)
Fixpoint filterFrom {A} (p : A -> nat -> list A -> bool)
    (arr : list A) (index : nat) (l : list A) : list A :=
  match l with
  | [] => []
  | x :: l' =>
      if p x index arr then x :: filterFrom p arr (S index) l'
      else filterFrom p arr (S index) l'
  end.

Definition filter {A} (p : A -> nat -> list A -> bool) (arr : list A)
  : list A :=
  filterFrom p arr 0 arr.

(** [arr[i]] on an array of strings, [undefined] read as the falsy empty
    string (every use below is in range or only tests truthiness). *)
Definition at_ (arr : list jsstring) (i : nat) : jsstring := nth i arr [].

(** Relative index of [Array.prototype.slice]: negative counts from the
    end, everything is clamped to the array. *)
Definition relIndex (len : nat) (i : Z) : nat :=
  if (i <? 0)%Z then Z.to_nat (Z.max 0 (Z.of_nat len + i))
  else Nat.min (Z.to_nat i) len.

Definition slice {A} (arr : list A) (start stop : Z) : list A :=
  let s := relIndex (length arr) start in
  let e := relIndex (length arr) stop in
  take (e - s) (drop s arr).

(** [arr.slice(start)]. *)
Definition sliceFrom {A} (arr : list A) (start : Z) : list A :=
  slice arr start (Z.of_nat (length arr)).

(** [arr.indexOf(x)], [-1] when absent. *)
Fixpoint indexOf (arr : list jsstring) (x : jsstring) : Z :=
  match arr with
  | [] => (-1)%Z
  | y :: rest =>
      if decide (y = x) then 0%Z
      else let i := indexOf rest x in
           if (i <? 0)%Z then (-1)%Z else (i + 1)%Z
  end.

(** [[...new Set(arr)]]: first occurrences, in insertion order. *)
Fixpoint uniqueFrom (seen : list jsstring) (arr : list jsstring)
  : list jsstring :=
  match arr with
  | [] => []
  | x :: rest =>
      if decide (x ∈ seen) then uniqueFrom seen rest
      else x :: uniqueFrom (x :: seen) rest
  end.

Definition unique (arr : list jsstring) : list jsstring := uniqueFrom [] arr.

End JS.

(** ** Content cleaner: [SiteIndexer.cleanContent] *)

Definition HASH : jsstring := str "#".
Definition STAR : jsstring := str "*".
Definition DASH : jsstring := str "-".

(** The callback of [.filter] in [cleanContent]. *)
Definition keepLine (line : jsstring) (index : nat) (arr : list jsstring)
  : bool :=
  if JS.truthy line then true
  else if (0 <? index) && (index <? length arr - 1) then
    let prevLine := JS.at_ arr (index - 1) in
    let nextLine := JS.at_ arr (index + 1) in
    JS.truthy prevLine && JS.truthy nextLine
    && negb (JS.startsWith prevLine HASH)
    && negb (JS.startsWith prevLine STAR)
    && negb (JS.startsWith prevLine DASH)
    && negb (JS.startsWith nextLine HASH)
    && negb (JS.startsWith nextLine STAR)
    && negb (JS.startsWith nextLine DASH)
  else false.

(** The array pipeline of [cleanContent] after [split]: trim, then filter. *)
Definition cleanLines (lines : list jsstring) : list jsstring :=
  JS.filter keepLine (map JS.trim lines).

Definition cleanContent (content : jsstring) : jsstring :=
  JS.join [LF] (cleanLines (JS.split LF (JS.trim content))).

(** A text written line by line. *)
Definition text (lines : list jsstring) : jsstring := JS.join [LF] lines.

(** ** URL collaborators *)

(** The two URL libraries the crawler calls.  [URLParse] stands for the
    objects of the url-parse package, [whatwg_URL url base] for
    [new URL(url, base).toString()]; [None] is a thrown exception. *)
Class UrlLib := {
  URLParse : Type;
  url_new : jsstring -> option URLParse;
  url_protocol : URLParse -> jsstring;
  url_host : URLParse -> jsstring;
  url_pathname : URLParse -> jsstring;
  url_set_pathname : URLParse -> jsstring -> URLParse;
  url_toString : URLParse -> jsstring;
  whatwg_URL : jsstring -> jsstring -> option jsstring
}.

(** ** The crawler object *)

Record PageData := mkPageData {
  pd_url : jsstring;
  pd_content : jsstring;
  pd_title : jsstring
}.

Record FailedPage := mkFailedPage {
  fp_url : jsstring;
  fp_reason : jsstring;
  fp_referrer : jsstring
}.

(** The fields of [class SiteIndexer] that carry crawl data (the progress
    bars, the turndown service and the limiter hold none). *)
Record SiteIndexer := mkSiteIndexer {
  visited : gset jsstring;
  queue : list jsstring;
  baseUrl : jsstring;
  baseDomain : jsstring;
  basePath : jsstring;
  successfulPages : nat;
  failedPages : list FailedPage;
  referrerMap : gmap jsstring jsstring
}.

Definition set_visited (v : gset jsstring) (self : SiteIndexer) :=
  mkSiteIndexer v (queue self) (baseUrl self) (baseDomain self)
    (basePath self) (successfulPages self) (failedPages self)
    (referrerMap self).

Definition set_queue (q : list jsstring) (self : SiteIndexer) :=
  mkSiteIndexer (visited self) q (baseUrl self) (baseDomain self)
    (basePath self) (successfulPages self) (failedPages self)
    (referrerMap self).

Definition set_successfulPages (n : nat) (self : SiteIndexer) :=
  mkSiteIndexer (visited self) (queue self) (baseUrl self) (baseDomain self)
    (basePath self) n (failedPages self) (referrerMap self).

Definition set_failedPages (f : list FailedPage) (self : SiteIndexer) :=
  mkSiteIndexer (visited self) (queue self) (baseUrl self) (baseDomain self)
    (basePath self) (successfulPages self) f (referrerMap self).

Definition set_referrerMap (m : gmap jsstring jsstring) (self : SiteIndexer) :=
  mkSiteIndexer (visited self) (queue self) (baseUrl self) (baseDomain self)
    (basePath self) (successfulPages self) (failedPages self) m.

Definition SLASH : N := 47%N.
Definition DOT : N := 46%N.
Definition NUMBER_SIGN : N := 35%N.

(** [s.split("/").filter(Boolean)]. *)
Definition pathParts (s : jsstring) : list jsstring :=
  List.filter JS.truthy (JS.split SLASH s).

Definition isDigit (c : N) : bool := ((48 <=? c) && (c <=? 57))%N.

(** [/^v\d|^\d{4}/.test(part)]. *)
Definition isVersionLike (part : jsstring) : bool :=
  match part with
  | c0 :: c1 :: _ => (c0 =? 118)%N && isDigit c1
  | _ => false
  end
  ||
  match part with
  | c0 :: c1 :: c2 :: c3 :: _ =>
      isDigit c0 && isDigit c1 && isDigit c2 && isDigit c3
  | _ => false
  end.

(** [url.split("#")[0]]. *)
Definition stripFragment (url : jsstring) : jsstring :=
  JS.at_ (JS.split NUMBER_SIGN url) 0.

Section Urls.
Context {L : UrlLib}.

(** [constructor(startUrl, skipUrlInit)]; [None] when url-parse throws. *)
Definition SiteIndexer_new (startUrl : jsstring) (skipUrlInit : bool)
  : option SiteIndexer :=
  if skipUrlInit then Some (mkSiteIndexer ∅ [] [] [] [] 0 [] ∅)
  else
    parsedUrl ← url_new startUrl;
    let basePath0 := url_pathname parsedUrl in
    Some (mkSiteIndexer ∅ []
            (url_protocol parsedUrl ++ str "//" ++ url_host parsedUrl)
            (url_host parsedUrl)
            (if JS.endsWith basePath0 (str "/") then basePath0
             else basePath0 ++ str "/")
            0 [] ∅).

(** The body of the [try] block of [normalizeUrl], after the fragment has
    been removed; [None] when a collaborator throws. *)
Definition normalizeUrl_try (self : SiteIndexer) (url : jsstring)
  : option jsstring :=
  let basePathParts := pathParts (basePath self) in
  if JS.startsWith url (str "http://") || JS.startsWith url (str "https://")
  then
    parsedUrl ← url_new url;
    if decide (url_host parsedUrl = baseDomain self) then
      let urlPathParts := pathParts (url_pathname parsedUrl) in
      if decide (head urlPathParts = head basePathParts) then
        let useContext :=
          url_toString
            (url_set_pathname parsedUrl
               (basePath self
                ++ JS.join [SLASH] (JS.sliceFrom urlPathParts 1))) in
        match List.find isVersionLike (JS.sliceFrom urlPathParts 1) with
        | Some potentialVersion =>
            if JS.truthy potentialVersion then
              let k := (JS.indexOf urlPathParts potentialVersion + 1)%Z in
              let newPath :=
                str "/" ++ JS.join [SLASH] (JS.slice urlPathParts 0 k)
                ++ str "/" ++ JS.join [SLASH] (JS.sliceFrom urlPathParts k)
              in
              Some (url_toString (url_set_pathname parsedUrl newPath))
            else Some useContext
        | None => Some useContext
        end
      else Some url
    else Some url
  else if JS.startsWith url (str "//") then
    parsedBase ← url_new (baseUrl self);
    Some (url_protocol parsedBase ++ url)
  else if JS.startsWith url (str "/") then
    let urlPathParts := pathParts url in
    if decide (head urlPathParts = head basePathParts) then
      let useContext :=
        baseUrl self ++ basePath self
        ++ JS.join [SLASH] (JS.sliceFrom urlPathParts 1) in
      match List.find isVersionLike (JS.sliceFrom urlPathParts 1) with
      | Some potentialVersion =>
          if JS.truthy potentialVersion then Some (baseUrl self ++ url)
          else Some useContext
      | None => Some useContext
      end
    else Some (baseUrl self ++ url)
  else
    let fullBasePath := baseUrl self ++ basePath self in
    whatwg_URL url fullBasePath.

(** [normalizeUrl]: the [catch] returns the variable [url], which the first
    statement of the [try] has already reassigned. *)
Definition normalizeUrl (self : SiteIndexer) (url : jsstring) : jsstring :=
  let url := stripFragment url in
  match normalizeUrl_try self url with
  | Some result => result
  | None => url
  end.

Definition isValidUrl (self : SiteIndexer) (url : jsstring) : bool :=
  let url := stripFragment url in
  match url_new url with
  | None => false
  | Some parsed =>
      let baseDomainParts := JS.split DOT (baseDomain self) in
      let urlDomainParts := JS.split DOT (url_host parsed) in
      if length baseDomainParts <=? length urlDomainParts then
        let urlEndParts :=
          JS.sliceFrom urlDomainParts
            (- Z.of_nat (length baseDomainParts)) in
        bool_decide (JS.join [DOT] urlEndParts = baseDomain self)
      else false
  end.

(** The guard of [extractLinks] on the [href] attribute. *)
Definition navigable (href : jsstring) : bool :=
  JS.truthy href
  && negb (JS.startsWith href (str "#"))
  && negb (JS.startsWith href (str "mailto:"))
  && negb (JS.startsWith href (str "tel:"))
  && negb (JS.includes href (str "javascript:")).

(** What one anchor pushes on [links]: [attr("href")] is [None] when the
    attribute is absent. *)
Definition linkOf (self : SiteIndexer) (anchor : option jsstring)
  : option jsstring :=
  href ← anchor;
  if navigable href then
    let normalizedUrl := normalizeUrl self href in
    if isValidUrl self normalizedUrl
       && negb (bool_decide (normalizedUrl ∈ visited self))
    then Some normalizedUrl
    else None
  else None.

(** [extractLinks], given the [href] of every anchor in document order. *)
Definition extractLinks (self : SiteIndexer) (anchors : list (option jsstring))
  : list jsstring :=
  let links := omap (linkOf self) anchors in
  JS.unique links.

End Urls.

(** ** Node's [path] module (POSIX flavour) *)

Module Path.

Definition isSlash (c : N) : bool := (c =? SLASH)%N.

Fixpoint dropWhile (p : N -> bool) (s : jsstring) : jsstring :=
  match s with
  | [] => []
  | c :: s' => if p c then dropWhile p s' else s
  end.

(** [normalizeString]: [res] is the stack of kept segments, last first. *)
Fixpoint normalizeSegments (allowAboveRoot : bool) (res : list jsstring)
    (segs : list jsstring) : list jsstring :=
  match segs with
  | [] => rev res
  | seg :: rest =>
      if decide (seg = [] \/ seg = str ".") then
        normalizeSegments allowAboveRoot res rest
      else if decide (seg = str "..") then
        match res with
        | top :: res' =>
            if decide (top = str "..") then
              normalizeSegments allowAboveRoot
                (if allowAboveRoot then seg :: res else res) rest
            else normalizeSegments allowAboveRoot res' rest
        | [] =>
            normalizeSegments allowAboveRoot
              (if allowAboveRoot then [seg] else []) rest
        end
      else normalizeSegments allowAboveRoot (seg :: res) rest
  end.

Definition normalize (p : jsstring) : jsstring :=
  match p with
  | [] => str "."
  | _ :: _ =>
      let isAbsolute := JS.startsWith p (str "/") in
      let trailingSeparator := JS.endsWith p (str "/") in
      let body :=
        JS.join [SLASH]
          (normalizeSegments (negb isAbsolute) [] (JS.split SLASH p)) in
      match body with
      | [] =>
          if isAbsolute then str "/"
          else if trailingSeparator then str "./" else str "."
      | _ :: _ =>
          (if isAbsolute then str "/" else [])
          ++ body ++ (if trailingSeparator then str "/" else [])
      end
  end.

(** [path.join(...parts)]. *)
Definition join (parts : list jsstring) : jsstring :=
  match JS.join [SLASH] (List.filter JS.truthy parts) with
  | [] => str "."
  | joined => normalize joined
  end.

(** [path.dirname(p)]. *)
Definition dirname (p : jsstring) : jsstring :=
  match p with
  | [] => str "."
  | c0 :: tail =>
      let hasRoot := isSlash c0 in
      let beforeLast :=
        dropWhile (fun c => negb (isSlash c)) (dropWhile isSlash (rev tail))
      in
      match beforeLast with
      | [] => if hasRoot then str "/" else str "."
      | _ :: before =>
          match before with
          | [] => if hasRoot then str "//" else [c0]
          | _ :: _ => c0 :: rev before
          end
      end
  end.

Fixpoint stripCommon (from to : list jsstring)
  : list jsstring * list jsstring :=
  match from, to with
  | a :: from', b :: to' =>
      if decide (a = b) then stripCommon from' to' else (from, to)
  | _, _ => (from, to)
  end.

Definition segments (p : jsstring) : list jsstring :=
  List.filter (fun seg => negb (bool_decide (seg = str ".")))
    (pathParts (normalize p)).

(** [path.relative(from, to)] for two paths taken from the same working
    directory (Node first resolves both against [process.cwd()], which
    cancels out as long as neither climbs above it). *)
Definition relative (from to : jsstring) : jsstring :=
  let '(up, down) := stripCommon (segments from) (segments to) in
  JS.join [SLASH] (map (fun _ => str "..") up ++ down).

End Path.

(** ** The file system seen by [fs/promises] *)

Record FileSystem := mkFileSystem {
  directories : gset jsstring;
  files : gmap jsstring jsstring
}.

Module FS.

(** A directory and every directory above it, outermost first. *)
Definition ancestors (dir : jsstring) : list jsstring :=
  let segs := pathParts dir in
  map (fun k =>
         (if JS.startsWith dir (str "/") then str "/" else [])
         ++ JS.join [SLASH] (take k segs))
      (seq 1 (length segs)).

(** [fs.mkdir(dir, { recursive: true })]: creates the missing directories;
    rejects when a regular file is in the way. *)
Definition mkdir (dir : jsstring) (fs : FileSystem) : option FileSystem :=
  if existsb (fun a => bool_decide (a ∈ dom (files fs))) (ancestors dir)
  then None
  else Some (mkFileSystem (directories fs ∪ list_to_set (ancestors dir))
               (files fs)).

(** [fs.writeFile(file, data)]: rejects with ENOENT when the parent
    directory does not exist and with EISDIR when [file] is a directory. *)
Definition writeFile (file data : jsstring) (fs : FileSystem)
  : option FileSystem :=
  if bool_decide (Path.dirname file ∈ directories fs)
     && negb (bool_decide (file ∈ directories fs))
  then Some (mkFileSystem (directories fs) (<[file := data]> (files fs)))
  else None.

(** A working directory in which nothing has been created yet. *)
Definition fresh : FileSystem := mkFileSystem {[ str "." ]} ∅.

End FS.

(** ** Pages *)

(** What the [try] block of [processPage] obtains for one URL: the cheerio
    document after the noise elements are removed, or the value thrown by
    axios, cheerio or turndown. *)
Record Document := mkDocument {
  doc_title : jsstring;
  doc_anchors : list (option jsstring);
  doc_markdown : jsstring
}.

Inductive Thrown :=
| ErrorObject (message : jsstring)
| OtherValue.

(** A request that settles: it resolves with a document or rejects with a
    thrown value.  [axios.get] is awaited without a timeout, so a request
    may also never settle; such requests are not of this type, they are
    the ones [hangs] names in the section on hanging requests. *)
Inductive Response :=
| Loaded (doc : Document)
| Failed (error : Thrown).

(** The state of one run of [start]: the crawler object, the disk, the local
    [contentParts], and the log of the URLs handed to [limiter.add]. *)
Record World := mkWorld {
  indexer : SiteIndexer;
  disk : FileSystem;
  contentParts : list jsstring;
  dispatched : list jsstring
}.

Definition set_indexer (self : SiteIndexer) (w : World) :=
  mkWorld self (disk w) (contentParts w) (dispatched w).

Definition set_disk (d : FileSystem) (w : World) :=
  mkWorld (indexer w) d (contentParts w) (dispatched w).

Inductive Outcome :=
| Resolved (w : World)
| Rejected (w : World).

Inductive Run :=
| Returned (w : World)
| Threw (w : World)
| OutOfFuel (w : World).

Definition INITIAL_URL : jsstring := str "Initial URL".
Definition UNKNOWN_ERROR : jsstring := str "Unknown error".

Section Crawl.
Context {L : UrlLib}.

(** The web as the crawler meets it: what fetching, loading and converting
    a URL gives.  Every URL is fetched at most once in a run.  In this
    section every request settles; [waveOrHang] and [startOrHang] below
    are the loop when some requests never do. *)
Variable web : jsstring -> Response.

(** The scheduler: which of the pending tasks of a wave settles next. *)
Variable pick : list jsstring -> nat.

(** [JSON.stringify({ totalFailed, timestamp, failedPages }, null, 2)]. *)
Variable failedReport : list FailedPage -> jsstring.

(** [this.referrerMap.get(url) || "Initial URL"]. *)
Definition referrerOf (self : SiteIndexer) (url : jsstring) : jsstring :=
  match referrerMap self !! url with
  | Some referrer => if JS.truthy referrer then referrer else INITIAL_URL
  | None => INITIAL_URL
  end.

(** [error instanceof Error ? error.message : "Unknown error"]. *)
Definition reasonOf (error : Thrown) : jsstring :=
  match error with
  | ErrorObject message => message
  | OtherValue => UNKNOWN_ERROR
  end.

(** The loop [for (const link of newLinks)] of [processPage]. *)
Definition recordReferrers (newLinks : list jsstring) (currentUrl : jsstring)
    (m : gmap jsstring jsstring) : gmap jsstring jsstring :=
  fold_left
    (fun m link =>
       match m !! link with
       | Some _ => m
       | None => <[link := currentUrl]> m
       end)
    newLinks m.

(** Lines 298-305 of [processPage]: referrers, then [queue.push]. *)
Definition enqueueLinks (newLinks : list jsstring) (currentUrl : jsstring)
    (self : SiteIndexer) : SiteIndexer :=
  let self :=
    set_referrerMap
      (recordReferrers newLinks currentUrl (referrerMap self)) self in
  set_queue (queue self ++ newLinks) self.

(** The value [processPage] resolves to; it depends on the page alone. *)
Definition pageDataOf (url : jsstring) : option PageData :=
  match web url with
  | Loaded doc =>
      let title :=
        if JS.truthy (doc_title doc) then doc_title doc else url in
      Some (mkPageData url (doc_markdown doc) title)
  | Failed _ => None
  end.

Definition processPage (url : jsstring) (self : SiteIndexer)
  : SiteIndexer * option PageData :=
  match web url with
  | Failed error =>
      let self :=
        set_failedPages
          (failedPages self
           ++ [mkFailedPage url (reasonOf error) (referrerOf self url)])
          self in
      (self, None)
  | Loaded doc =>
      let newLinks := extractLinks self (doc_anchors doc) in
      let currentUrl := url in
      (enqueueLinks newLinks currentUrl self, pageDataOf url)
  end.

(** [getOutputFilePath]; [None] when url-parse throws. *)
Definition getOutputFilePath (self : SiteIndexer) (url : jsstring)
  : option jsstring :=
  parsedUrl ← url_new url;
  let pathName := url_pathname parsedUrl in
  let pathName :=
    if decide (pathName = str "/") then str "/index" else pathName in
  let pathName :=
    if JS.endsWith pathName (str ".md") then pathName
    else pathName ++ str ".md" in
  Some (Path.join [str "output"; baseDomain self; pathName]).

(** The function handed to [limiter.add] for one URL. *)
Definition task (url : jsstring) (w : World) : Outcome :=
  let '(self, pageData) := processPage url (indexer w) in
  let w := set_indexer self w in
  match pageData with
  | None => Resolved w
  | Some pageData =>
      match getOutputFilePath self (pd_url pageData) with
      | None => Rejected w
      | Some outputPath =>
          match FS.mkdir (Path.dirname outputPath) (disk w) with
          | None => Rejected w
          | Some d1 =>
              match FS.writeFile outputPath (pd_content pageData) d1 with
              | None => Rejected (set_disk d1 w)
              | Some d2 => Resolved (set_disk d2 w)
              end
          end
      end
  end.

(** The callback of [batch.map] up to [limiter.add]: the visited check and
    the insertion run synchronously for the whole batch, before any task
    continues.  A slot holds the URL handed to the limiter, or [None] for
    [Promise.resolve(null)]. *)
Fixpoint markBatch (batch : list jsstring) (self : SiteIndexer)
  : SiteIndexer * list (option jsstring) :=
  match batch with
  | [] => (self, [])
  | url :: rest =>
      if decide (url ∈ visited self) then
        let '(self, slots) := markBatch rest self in
        (self, None :: slots)
      else
        let self := set_visited ({[ url ]} ∪ visited self) self in
        let '(self, slots) := markBatch rest self in
        (self, Some url :: slots)
  end.

(** The tasks of one wave settle one at a time, in the order the scheduler
    chooses; a rejection rejects [Promise.all].  The batch has at most five
    entries, so the limiter (capacity five) admits every task at once. *)
Fixpoint settle (n : nat) (pending : list jsstring) (w : World) : Outcome :=
  match n with
  | 0 => Resolved w
  | S n' =>
      match pending !! (pick pending mod length pending) with
      | None => Resolved w
      | Some url =>
          match task url w with
          | Rejected w' => Rejected w'
          | Resolved w' =>
              settle n' (delete (pick pending mod length pending) pending) w'
          end
      end
  end.

(** The loop [for (const pageData of results)]. *)
Definition collect (results : list (option PageData)) (w : World) : World :=
  fold_left
    (fun w result =>
       match result with
       | Some pageData =>
           mkWorld
             (set_successfulPages (S (successfulPages (indexer w)))
                (indexer w))
             (disk w)
             (contentParts w
              ++ [str "# " ++ pd_title pageData ++ [LF; LF]
                  ++ cleanContent (pd_content pageData)])
             (dispatched w)
       | None => w
       end)
    results w.

(** One iteration of the [while] loop of [start]. *)
Definition wave (w : World) : Outcome :=
  let self := indexer w in
  let batchSize := Nat.min 5 (length (queue self)) in
  let batch := take batchSize (queue self) in
  let self := set_queue (drop batchSize (queue self)) self in
  let '(self, slots) := markBatch batch self in
  let tasks := omap id slots in
  let w :=
    mkWorld self (disk w) (contentParts w) (dispatched w ++ tasks) in
  match settle (length tasks) tasks w with
  | Rejected w' => Rejected w'
  | Resolved w' =>
      let results := map (fun slot => slot ≫= pageDataOf) slots in
      Resolved (collect results w')
  end.

(** [while (this.queue.length > 0)], with a bound on the number of waves. *)
Fixpoint crawlLoop (fuel : nat) (w : World) : Run :=
  match queue (indexer w) with
  | [] => Returned w
  | _ :: _ =>
      match fuel with
      | 0 => OutOfFuel w
      | S fuel' =>
          match wave w with
          | Rejected w' => Threw w'
          | Resolved w' => crawlLoop fuel' w'
          end
      end
  end.

Definition corpusPath (self : SiteIndexer) : jsstring :=
  Path.join [str "output"; baseDomain self; str "llms-full.txt"].

Definition failedUrlsPath (self : SiteIndexer) : jsstring :=
  Path.join [str "output"; baseDomain self; str "failed-urls.json"].

(** What follows the loop in [start]. *)
Definition writeReports (w : World) : Run :=
  let self := indexer w in
  let fullOutputPath := corpusPath self in
  let finalContent := JS.trim (JS.join [LF; LF] (contentParts w)) in
  match FS.writeFile fullOutputPath finalContent (disk w) with
  | None => Threw w
  | Some d1 =>
      if 0 <? length (failedPages self) then
        match
          FS.writeFile (failedUrlsPath self)
            (failedReport (failedPages self)) d1
        with
        | None => Threw (set_disk d1 w)
        | Some d2 => Returned (set_disk d2 w)
        end
      else Returned (set_disk d1 w)
  end.

(** The world in which [start] enters its loop. *)
Definition seeded (self : SiteIndexer) (fs : FileSystem) : World :=
  mkWorld (set_queue (queue self ++ [baseUrl self]) self) fs [] [].

Definition start (fuel : nat) (self : SiteIndexer) (fs : FileSystem) : Run :=
  match crawlLoop fuel (seeded self fs) with
  | Returned w => writeReports w
  | Threw w => Threw w
  | OutOfFuel w => OutOfFuel w
  end.

End Crawl.

(** ** Rebuilding the corpus: [generateLlmsFromExisting] *)

(** A directory listing as [readdir(dir, { withFileTypes: true })] gives it,
    in the order the file system enumerates it; a file comes with the text
    [readFile(file, "utf-8")] returns. *)
#[warnings="-register-all"]
Inductive Dirent :=
| FileEntry (name : jsstring) (content : jsstring)
| DirEntry (name : jsstring) (entries : list Dirent).

Definition isMarkdown (file : jsstring * jsstring) : bool :=
  JS.endsWith (fst file) (str ".md").

(** The callback of [entries.map] in [getFiles], already flattened: a file
    gives its path, a directory the result of [getFiles] on it. *)
Fixpoint entryFiles (dir : jsstring) (entry : Dirent)
  : list (jsstring * jsstring) :=
  match entry with
  | FileEntry name content => [(Path.join [dir; name], content)]
  | DirEntry name entries =>
      List.filter isMarkdown
        (concat (map (entryFiles (Path.join [dir; name])) entries))
  end.

Definition getFiles (dir : jsstring) (entries : list Dirent)
  : list (jsstring * jsstring) :=
  List.filter isMarkdown (concat (map (entryFiles dir) entries)).

(** [s.replace(/\.md$/, "")]. *)
Definition stripMdSuffix (s : jsstring) : jsstring :=
  if JS.endsWith s (str ".md") then take (length s - 3) s else s.

(** [s.replace(/\//g, " - ")]. *)
Definition slashesToDashes (s : jsstring) : jsstring :=
  concat (map (fun c => if (c =? SLASH)%N then str " - " else [c]) s).

Definition titleOf (domainPath file : jsstring) : jsstring :=
  let relativePath := Path.relative domainPath file in
  slashesToDashes (stripMdSuffix relativePath).

(** The loop [for (const [index, file] of files.entries())]. *)
Fixpoint sectionsFrom (domainPath : jsstring) (index : nat)
    (files : list (jsstring * jsstring)) (contentParts : list jsstring)
  : list jsstring :=
  match files with
  | [] => contentParts
  | (file, content) :: rest =>
      let title := titleOf domainPath file in
      let contentParts :=
        if 0 <? index then contentParts ++ [[]] else contentParts in
      sectionsFrom domainPath (S index) rest
        (contentParts ++ [str "# " ++ title ++ [LF] ++ cleanContent content])
  end.

(** [generateLlmsFromExisting(domain)] on the listing of [output/<domain>]:
    the path and the content it writes. *)
Definition generateLlmsFromExisting (domain : jsstring) (entries : list Dirent)
  : jsstring * jsstring :=
  let domainPath := Path.join [str "output"; domain] in
  let files := getFiles domainPath entries in
  let contentParts := sectionsFrom domainPath 0 files [] in
  let fullOutputPath := Path.join [domainPath; str "llms-full.txt"] in
  let finalContent := JS.join [LF] contentParts in
  (fullOutputPath, finalContent).

(** ** A concrete URL library for worked examples

    url-parse and the WHATWG constructor on plain lower-case URLs of the
    shape [scheme://host/path?query]: no credentials, no port, no dot
    segments.  The general results below hold for every [UrlLib]; this
    instance only serves to run the crawler on concrete inputs. *)

Module PlainUrl.

Record Parsed := mkParsed {
  protocol : jsstring;
  host : jsstring;
  pathname : jsstring;
  query : jsstring
}.

Fixpoint takeUntil (stop : N -> bool) (s : jsstring) : jsstring :=
  match s with
  | [] => []
  | c :: s' => if stop c then [] else c :: takeUntil stop s'
  end.

Fixpoint dropUntil (stop : N -> bool) (s : jsstring) : jsstring :=
  match s with
  | [] => []
  | c :: s' => if stop c then s else dropUntil stop s'
  end.

Definition isColon (c : N) : bool := (c =? 58)%N.
Definition endsHost (c : N) : bool := ((c =? 47) || (c =? 63) || (c =? 35))%N.
Definition endsPath (c : N) : bool := ((c =? 63) || (c =? 35))%N.
Definition endsQuery (c : N) : bool := (c =? 35)%N.
Definition isLetter (c : N) : bool :=
  ((65 <=? c) && (c <=? 90) || (97 <=? c) && (c <=? 122))%N.

(** [scheme:] in front of [//]; the empty string when there is none. *)
Definition schemeOf (s : jsstring) : jsstring :=
  let name := takeUntil (fun c => negb (isLetter c)) s in
  if JS.truthy name && JS.startsWith (drop (length name) s) (str "://")
  then name ++ str ":" else [].

Definition parse (s : jsstring) : Parsed :=
  match schemeOf s with
  | [] => mkParsed [] [] (takeUntil endsPath s)
            (takeUntil endsQuery (dropUntil endsPath s))
  | scheme =>
      let rest := drop (length scheme + 2) s in
      let afterHost := dropUntil endsHost rest in
      let path := takeUntil endsPath afterHost in
      mkParsed scheme (takeUntil endsHost rest)
        (if JS.truthy path then path else str "/")
        (takeUntil endsQuery (dropUntil endsPath afterHost))
  end.

Definition setPathname (u : Parsed) (value : jsstring) : Parsed :=
  mkParsed (protocol u) (host u)
    (if JS.truthy value && negb (JS.startsWith value (str "/"))
     then str "/" ++ value else value)
    (query u).

Definition toString (u : Parsed) : jsstring :=
  (if JS.truthy (protocol u) then protocol u ++ str "//" else [])
  ++ host u ++ pathname u ++ query u.

(** The directory of a URL: everything up to its last slash. *)
Definition directoryOf (base : jsstring) : jsstring :=
  rev (Path.dropWhile (fun c => negb (Path.isSlash c)) (rev base)).

(** [new URL(url, base).toString()]: a reference with a scheme of its own
    stands alone and is rejected ("Invalid URL") when it contains a space;
    any other reference is appended to the directory of the base. *)
Definition resolve (url base : jsstring) : option jsstring :=
  let name := takeUntil (fun c => negb (isLetter c)) url in
  if JS.truthy name && JS.startsWith (drop (length name) url) (str ":")
  then if JS.includes url (str " ") then None else Some url
  else Some (directoryOf base ++ url).

#[export] Instance lib : UrlLib := {|
  URLParse := Parsed;
  url_new := fun s => Some (parse s);
  url_protocol := protocol;
  url_host := host;
  url_pathname := pathname;
  url_set_pathname := setPathname;
  url_toString := toString;
  whatwg_URL := resolve
|}.

End PlainUrl.

(** The crawler object for a seed, under the concrete library. *)
Definition indexerFor (startUrl : string) : SiteIndexer :=
  match SiteIndexer_new (L := PlainUrl.lib) (str startUrl) false with
  | Some self => self
  | None => mkSiteIndexer ∅ [] [] [] [] 0 [] ∅
  end.

(** ** Vocabulary of the statements *)

(** A line beginning with [#], [*] or [-]. *)
Definition isMarker (line : jsstring) : bool :=
  JS.startsWith line HASH || JS.startsWith line STAR || JS.startsWith line DASH.

(** A line with content that is neither a heading nor a list item. *)
Definition plain (line : jsstring) : bool :=
  JS.truthy line && negb (isMarker line).

(** A blank line: nothing but white space. *)
Definition blank (line : jsstring) : Prop := JS.trim line = [].

(** The lines of a text. *)
Definition linesOf (s : jsstring) : list jsstring := JS.split LF s.

(** [a] is immediately followed by [b] in [lines]. *)
Definition adjacent (lines : list jsstring) (a b : jsstring) : Prop :=
  exists i, lines !! i = Some a /\ lines !! (S i) = Some b.

(** The filter of [cleanContent] read from left to right: [prev] is the
    element before the current one in the array being filtered. *)
Fixpoint sieve (prev : jsstring) (lines : list jsstring) : list jsstring :=
  match lines with
  | [] => []
  | x :: rest =>
      if JS.truthy x then x :: sieve x rest
      else
        match rest with
        | next :: _ =>
            if plain prev && plain next then x :: sieve x rest
            else sieve x rest
        | [] => []
        end
  end.

(** Every empty line of [lines] stands between two plain lines, the first
    one counted from [prev]. *)
Fixpoint spaced (prev : jsstring) (lines : list jsstring) : Prop :=
  match lines with
  | [] => True
  | x :: rest =>
      (x = [] -> plain prev = true /\ exists y, head rest = Some y /\ plain y = true)
      /\ spaced x rest
  end.

(** What is left of a run of [n] blank lines between the lines [a] and [b]. *)
Definition gap (n : nat) (a b : jsstring) : list jsstring :=
  if (n =? 1) && negb (isMarker a) && negb (isMarker b) then [[]] else [].

(** A string whose first and last code units are not white space. *)
Definition tidy (s : jsstring) : Prop := JS.trim s = s.

(** The lines [cleanContent] joins. *)
Definition cleaned (x : jsstring) : list jsstring :=
  cleanLines (JS.split LF (JS.trim x)).

(** How many lines of a text are blank. *)
Definition blankCount (s : jsstring) : nat :=
  length (List.filter (fun line => negb (JS.truthy (JS.trim line))) (linesOf s)).

(** The world a run of [start] ends in, however it ends. *)
Definition worldOf (r : Run) : World :=
  match r with
  | Returned w => w
  | Threw w => w
  | OutOfFuel w => w
  end.

Definition outcomeWorld (o : Outcome) : World :=
  match o with
  | Resolved w => w
  | Rejected w => w
  end.

(** What a wave leaves alone once the batch is marked. *)
Definition sameFrontier (w w' : World) : Prop :=
  visited (indexer w') = visited (indexer w)
  /\ dispatched w' = dispatched w
  /\ baseUrl (indexer w') = baseUrl (indexer w)
  /\ baseDomain (indexer w') = baseDomain (indexer w).

(** The slots of a batch: the first occurrence of every URL that is not yet
    visited is handed to the limiter, every other entry is discarded. *)
Definition firstOccurrences (seen : gset jsstring) (batch : list jsstring)
    (slots : list (option jsstring)) : Prop :=
  length slots = length batch
  /\ forall i u,
       slots !! i = Some (Some u)
       <-> (batch !! i = Some u /\ (u ∉ seen) /\ (u ∉ take i batch)).

(** The log of dispatched URLs has no duplicate and lists exactly the
    visited set. *)
Definition frontierInv (w : World) : Prop :=
  NoDup (dispatched w)
  /\ forall u, u ∈ dispatched w <-> u ∈ visited (indexer w).

(** ** The corpus as the specification words it *)

(** An entry name a directory listing can contain: not empty, no slash, and
    neither [.] nor [..]. *)
Definition plainName (name : jsstring) : bool :=
  JS.truthy name
  && negb (bool_decide (SLASH ∈ name))
  && negb (bool_decide (name = str "."))
  && negb (bool_decide (name = str "..")).

Fixpoint plainEntry (entry : Dirent) : bool :=
  match entry with
  | FileEntry name _ => plainName name
  | DirEntry name entries => plainName name && forallb plainEntry entries
  end.

(** The [.md] files below an entry, each with the segments of its path
    relative to the domain root and with its content. *)
Fixpoint markdownFiles (dir : list jsstring) (entry : Dirent)
  : list (list jsstring * jsstring) :=
  match entry with
  | FileEntry name content =>
      if JS.endsWith name (str ".md") then [(dir ++ [name], content)] else []
  | DirEntry name entries =>
      concat (map (markdownFiles (dir ++ [name])) entries)
  end.

(** The title of a file: its relative path without the [.md] suffix, the
    separators replaced by [" - "]. *)
Definition specTitle (segments : list jsstring) : jsstring :=
  match last segments with
  | Some name =>
      JS.join (str " - ")
        (take (length segments - 1) segments ++ [take (length name - 3) name])
  | None => []
  end.

(** The heading of the section of a file. *)
Definition specHeading (file : list jsstring * jsstring) : jsstring :=
  str "# " ++ specTitle (fst file).

(** The lines of the section of a file: its heading, then the lines of its
    cleaned content, none when the cleaned content is empty. *)
Definition specSectionLines (file : list jsstring * jsstring)
  : list jsstring :=
  specHeading file
  :: (if decide (cleanContent (snd file) = []) then []
      else linesOf (cleanContent (snd file))).

(** Groups of lines one after the other, with one empty line between two
    groups and nothing before the first. *)
Fixpoint separated (groups : list (list jsstring)) : list jsstring :=
  match groups with
  | [] => []
  | [group] => group
  | group :: rest => group ++ [] :: separated rest
  end.

(** Modelled from the specification's words: one section per [.md] file,
    no blank line before the first, exactly one blank line between two
    sections. *)
Definition specCorpus (entries : list Dirent) : jsstring :=
  text (separated
          (map specSectionLines (concat (map (markdownFiles []) entries)))).

(** A group of lines that neither begins nor ends with a blank line. *)
Definition solid (lines : list jsstring) : Prop :=
  exists first final,
    head lines = Some first /\ last lines = Some final
    /\ ~ blank first /\ ~ blank final.

(** The section [generateLlmsFromExisting] pushes for one file, with the
    title worded as in the specification. *)
Definition specSection (file : list jsstring * jsstring) : jsstring :=
  specHeading file ++ [LF] ++ cleanContent (snd file).

(** What [generateLlmsFromExisting] joins: the pushed sections with an empty
    string between two of them, joined with line feeds. *)
Definition joinedSections (entries : list Dirent) : jsstring :=
  JS.join [LF; LF] (map specSection (concat (map (markdownFiles []) entries))).

(** The section [generateLlmsFromExisting] pushes for one file. *)
Definition codeSection (domainPath : jsstring) (file : jsstring * jsstring)
  : jsstring :=
  str "# " ++ titleOf domainPath (fst file) ++ [LF] ++ cleanContent (snd file).

(** The full path of a file given by its segments below the directory
    [dir]. *)
Definition pathOf (dir : list jsstring) (file : list jsstring * jsstring)
  : jsstring * jsstring :=
  (JS.join [SLASH] (dir ++ fst file), snd file).

(** ** A small site for worked examples *)

(** The seed page links to [/a] and [/b] (and to three links the crawler
    must drop); both link to [/c], which answers 404. *)
Definition demoWeb (url : jsstring) : Response :=
  if decide (url = str "https://x.test") then
    Loaded (mkDocument (str "Home")
              [Some (str "/a"); Some (str "/b");
               Some (str "https://other.test/c"); Some (str "#frag");
               Some (str "mailto:x@y.com")]
              (str "Welcome"))
  else if decide (url = str "https://x.test/a") then
    Loaded (mkDocument [] [Some (str "/c"); Some (str "/b")] (str "Page A"))
  else if decide (url = str "https://x.test/b") then
    Loaded (mkDocument (str "B") [Some (str "/c")] (str "Page B"))
  else Failed (ErrorObject (str "Request failed with status code 404")).

(** A site that cannot be reached at all. *)
Definition deadWeb (url : jsstring) : Response :=
  Failed (ErrorObject (str "getaddrinfo ENOTFOUND x.test")).

(** Two schedulers: the pending task that was started first, or last,
    settles first. *)
Definition firstPending (pending : list jsstring) : nat := 0.
Definition lastPending (pending : list jsstring) : nat := length pending - 1.

Definition demoReport (failed : list FailedPage) : jsstring :=
  str "{ totalFailed: " ++ [N.of_nat (48 + length failed)] ++ str " }".

Definition demoCrawl (web : jsstring -> Response)
    (pick : list jsstring -> nat) (fs : FileSystem) : Run :=
  start (L := PlainUrl.lib) web pick demoReport 10
    (indexerFor "https://x.test/") fs.

(** A collaborator throws in the branch [normalizeUrl] takes for [url]:
    url-parse on an absolute URL or on the base URL, or the WHATWG
    constructor on a relative reference. *)
Definition parsingFails {L : UrlLib} (self : SiteIndexer) (url : jsstring)
  : Prop :=
  if JS.startsWith url (str "http://") || JS.startsWith url (str "https://")
  then url_new url = None
  else if JS.startsWith url (str "//") then url_new (baseUrl self) = None
  else if JS.startsWith url (str "/") then False
  else whatwg_URL url (baseUrl self ++ basePath self) = None.

(** The failure records while the tasks [pending] of a wave are still to
    settle: no URL has two records, none of the pending ones has a record
    yet, and every record is that of a dispatched URL whose fetch failed,
    with the reason the error gives. *)
Definition failuresInv (web : jsstring -> Response) (w : World)
    (pending : list jsstring) : Prop :=
  NoDup (map fp_url (failedPages (indexer w)) ++ pending)
  /\ (forall u, u ∈ pending -> u ∈ dispatched w)
  /\ (forall f, f ∈ failedPages (indexer w) ->
        fp_url f ∈ dispatched w
        /\ exists error,
             web (fp_url f) = Failed error /\ fp_reason f = reasonOf error).

(** Every dispatched URL that is no longer pending and whose fetch failed
    has its record. *)
Definition failuresComplete (web : jsstring -> Response) (w : World)
    (pending : list jsstring) : Prop :=
  forall u error,
    u ∈ dispatched w -> u ∉ pending -> web u = Failed error ->
    u ∈ map fp_url (failedPages (indexer w)).

(** Every failure record is that of a visited URL and carries the referrer
    the crawler object holds for it. *)
Definition referrersInv {L : UrlLib} (w : World) : Prop :=
  forall f, f ∈ failedPages (indexer w) ->
    fp_url f ∈ visited (indexer w)
    /\ fp_referrer f
       = match referrerMap (indexer w) !! fp_url f with
         | Some referrer =>
             if JS.truthy referrer then referrer else INITIAL_URL
         | None => INITIAL_URL
         end.


(** ** Further vocabulary *)

(** The lines of a text that have content, each one trimmed. *)
Definition contentLines (s : jsstring) : list jsstring :=
  List.filter JS.truthy (map JS.trim (linesOf s)).

(** A string made of white space only. *)
Definition allWhiteSpace (s : jsstring) : Prop :=
  Forall (fun c => JS.isWhiteSpace c = true) s.

(** The base fields of the crawler object: the constructor sets them and no
    method assigns them afterwards. *)
Definition sameBase (self self' : SiteIndexer) : Prop :=
  baseUrl self' = baseUrl self
  /\ baseDomain self' = baseDomain self
  /\ basePath self' = basePath self.

(** Page [r] loads and has an anchor whose href passes the guard of
    [extractLinks] and normalizes to the in-scope URL [u]. *)
Definition linksTo {L : UrlLib} (web : jsstring -> Response)
    (self : SiteIndexer) (r u : jsstring) : Prop :=
  exists doc href,
    web r = Loaded doc /\ Some href ∈ doc_anchors doc
    /\ navigable href = true /\ normalizeUrl self href = u
    /\ isValidUrl self u = true.

(** The URLs that can be reached from the seed by following such links. *)
Inductive reachable {L : UrlLib} (web : jsstring -> Response)
    (self : SiteIndexer) : jsstring -> Prop :=
| reachable_seed : reachable web self (baseUrl self)
| reachable_link r u :
    reachable web self r -> linksTo web self r u -> reachable web self u.

(** Whether fetching and converting a URL succeeds. *)
Definition loads (web : jsstring -> Response) (url : jsstring) : bool :=
  match web url with
  | Loaded _ => true
  | Failed _ => false
  end.

(** The section [start] pushes on [contentParts] for a URL whose page
    loads. *)
Definition pageSection (web : jsstring -> Response) (url : jsstring)
  : option jsstring :=
  match pageDataOf web url with
  | Some pageData =>
      Some (str "# " ++ pd_title pageData ++ [LF; LF]
            ++ cleanContent (pd_content pageData))
  | None => None
  end.

(** The parts of one wave: the batch spliced off the queue, the slots
    [batch.map] produces, the tasks handed to the limiter, and the world in
    which these tasks start. *)
Definition batchOf (w : World) : list jsstring :=
  take (Nat.min 5 (length (queue (indexer w)))) (queue (indexer w)).

Definition spliced (w : World) : SiteIndexer :=
  set_queue (drop (Nat.min 5 (length (queue (indexer w)))) (queue (indexer w)))
    (indexer w).

Definition slotsOf (w : World) : list (option jsstring) :=
  (markBatch (batchOf w) (spliced w)).2.

Definition tasksOf (w : World) : list jsstring := omap id (slotsOf w).

Definition marked (w : World) : World :=
  mkWorld (markBatch (batchOf w) (spliced w)).1 (disk w) (contentParts w)
    (dispatched w ++ tasksOf w).

(** The links a task appends to the queue. *)
Definition foundLinks {L : UrlLib} (web : jsstring -> Response)
    (self : SiteIndexer) (url : jsstring) : list jsstring :=
  match web url with
  | Loaded doc => extractLinks self (doc_anchors doc)
  | Failed _ => []
  end.

(** Everything the crawler has queued or handed to the limiter can be
    reached from the seed. *)
Definition soundInv {L : UrlLib} (web : jsstring -> Response)
    (self : SiteIndexer) (w : World) : Prop :=
  sameBase self (indexer w)
  /\ (forall u, u ∈ queue (indexer w) -> reachable web self u)
  /\ (forall u, u ∈ dispatched w -> reachable web self u).

(** Every URL but the seed that is queued or was handed to the limiter has
    a referrer, and a referrer is a page that was handed to the limiter and
    links to the URL. *)
Definition referrersSound {L : UrlLib} (web : jsstring -> Response)
    (self : SiteIndexer) (w : World) : Prop :=
  sameBase self (indexer w)
  /\ (forall u, u ∈ queue (indexer w) \/ u ∈ dispatched w ->
        u = baseUrl self \/ is_Some (referrerMap (indexer w) !! u))
  /\ (forall u r, referrerMap (indexer w) !! u = Some r ->
        r ∈ dispatched w /\ linksTo web self r u).

(** While the tasks [pending] of a wave are still to settle: the seed and
    every link of a page whose task has settled are visited or queued. *)
Definition exhaustInv {L : UrlLib} (web : jsstring -> Response)
    (self : SiteIndexer) (w : World) (pending : list jsstring) : Prop :=
  sameBase self (indexer w)
  /\ (baseUrl self ∈ visited (indexer w) \/ baseUrl self ∈ queue (indexer w))
  /\ (forall r u, r ∈ dispatched w -> r ∉ pending -> linksTo web self r u ->
        u ∈ visited (indexer w) \/ u ∈ queue (indexer w)).

(** What the loop over the results of a wave pushes for one result. *)
Definition sectionOf (result : option PageData) : option jsstring :=
  match result with
  | Some pageData =>
      Some (str "# " ++ pd_title pageData ++ [LF; LF]
            ++ cleanContent (pd_content pageData))
  | None => None
  end.

(** The command [crawl <url>] of the program: it builds the crawler object
    and starts it; [None] when the constructor throws. *)
Definition crawlCommand {L : UrlLib} (web : jsstring -> Response)
    (pick : list jsstring -> nat) (failedReport : list FailedPage -> jsstring)
    (fuel : nat) (url : jsstring) (fs : FileSystem) : option Run :=
  match SiteIndexer_new url false with
  | Some indexer => Some (start web pick failedReport fuel indexer fs)
  | None => None
  end.

(** A site given by a finite list of URLs that holds the seed and, for each
    of its pages that load, every in-scope link of the page. *)
Definition closedSite {L : UrlLib} (web : jsstring -> Response)
    (self : SiteIndexer) (site : list jsstring) : bool :=
  bool_decide (baseUrl self ∈ site)
  && forallb
       (fun r =>
          match web r with
          | Loaded doc =>
              forallb
                (fun anchor =>
                   match anchor with
                   | Some href =>
                       if navigable href
                          && isValidUrl self (normalizeUrl self href)
                       then bool_decide (normalizeUrl self href ∈ site)
                       else true
                   | None => true
                   end)
                (doc_anchors doc)
          | Failed _ => true
          end)
       site.

(** ** Requests that never settle

    [processPage] awaits [axios.get(url)] without a timeout, inside the
    [Promise.all] of its wave.  A request that never settles leaves its
    task, and with it the wave, pending for ever.  Below, [hangs] names
    the URLs whose request never settles; for every other URL [web] gives
    what the request settles to. *)

(** How one iteration of the loop goes: [Promise.all] settles, or it stays
    pending for ever. *)
Inductive Progress :=
| Settles (o : Outcome)
| Pends (w : World).

(** How a call of [start] goes: it ends, or it waits for ever for a wave
    that stays pending. *)
Inductive Course :=
| Ends (r : Run)
| Hangs (w : World).

Section Hanging.
Context {L : UrlLib}.
Variable web : jsstring -> Response.
Variable hangs : jsstring -> bool.
Variable pick : list jsstring -> nat.
Variable failedReport : list FailedPage -> jsstring.

Definition settling (url : jsstring) : bool := negb (hangs url).

(** One iteration of the [while] loop of [start].  The tasks whose request
    settles run as in [wave], in the order the scheduler chooses, and the
    first rejection among them rejects [Promise.all].  When they have all
    resolved, [Promise.all] resolves if no task of the wave hangs and stays
    pending otherwise. *)
Definition waveOrHang (w : World) : Progress :=
  let tasks := List.filter settling (tasksOf w) in
  match settle web pick (length tasks) tasks (marked w) with
  | Rejected w' => Settles (Rejected w')
  | Resolved w' =>
      if forallb settling (tasksOf w) then
        Settles
          (Resolved
             (collect
                (map (fun slot => slot ≫= pageDataOf web) (slotsOf w)) w'))
      else Pends w'
  end.

(** [while (this.queue.length > 0)], with a bound on the number of waves. *)
Fixpoint crawlOrHang (fuel : nat) (w : World) : Course :=
  match queue (indexer w) with
  | [] => Ends (Returned w)
  | _ :: _ =>
      match fuel with
      | 0 => Ends (OutOfFuel w)
      | S fuel' =>
          match waveOrHang w with
          | Settles (Rejected w') => Ends (Threw w')
          | Settles (Resolved w') => crawlOrHang fuel' w'
          | Pends w' => Hangs w'
          end
      end
  end.

Definition startOrHang (fuel : nat) (self : SiteIndexer) (fs : FileSystem)
  : Course :=
  match crawlOrHang fuel (seeded self fs) with
  | Ends (Returned w) => Ends (writeReports failedReport w)
  | Ends (Threw w) => Ends (Threw w)
  | Ends (OutOfFuel w) => Ends (OutOfFuel w)
  | Hangs w => Hangs w
  end.

End Hanging.

(** ** The concurrency limiter: [class Limiter]

    [add] is an async method: a call runs until its first [await] and is
    resumed later by the event loop.  A call is suspended either in the
    [while] loop, waiting for its timer, or at [await fn()]; the events are
    the things the event loop can do next with the limiter. *)

Module Limiter.

Record t (Thunk : Type) := mk {
  running : Z;
  queue : list Thunk;
  maxConcurrent : Z
}.
Arguments mk {Thunk}.
Arguments running {Thunk}.
Arguments queue {Thunk}.
Arguments maxConcurrent {Thunk}.

(** Where a call of [add] stands. *)
Inductive Call :=
| Waiting (throws : bool)
               (* at [await new Promise(resolve => setTimeout(resolve, 100))];
                  [throws]: [fn()] will throw at once when it is called *)
| Running      (* at [await fn()] *)
| Fulfilled    (* returned what [fn] resolved to *)
| Rejected.    (* threw what [fn] threw or rejected with *)

Inductive Event :=
| Add (throws : bool)      (* [limiter.add(fn)]; [fn()] may throw at once *)
| Wake (i : nat)           (* the timer of call [i] fires *)
| Settle (i : nat) (ok : bool). (* the promise of [fn] of call [i] settles *)

Record State (Thunk : Type) := mkState {
  limiter : t Thunk;
  calls : list Call
}.
Arguments mkState {Thunk}.
Arguments limiter {Thunk}.
Arguments calls {Thunk}.

Section Add.
Context {Thunk : Type}.

(** What calling a queued thunk does to the limiter and its calls. *)
Variable invoke : Thunk -> State Thunk -> State Thunk.

(** [new Limiter(maxConcurrent)]. *)
Definition new (maxConcurrent : Z) : State Thunk :=
  mkState (mk 0 [] maxConcurrent) [].

(** The [finally] block of [add]. *)
Definition release (s : State Thunk) : State Thunk :=
  let l := limiter s in
  let s := mkState (mk (running l - 1) (queue l) (maxConcurrent l)) (calls s) in
  match queue (limiter s) with
  | next :: rest =>
      invoke next
        (mkState (mk (running (limiter s)) rest (maxConcurrent (limiter s)))
           (calls s))
  | [] => s
  end.

(** [add] from the test of the [while] loop to the next [await]: the state
    and where the call stands then. *)
Definition enter (throws : bool) (s : State Thunk) : State Thunk * Call :=
  let l := limiter s in
  if (maxConcurrent l <=? running l)%Z then (s, Waiting throws)
  else
    let s := mkState (mk (running l + 1) (queue l) (maxConcurrent l)) (calls s)
    in
    if throws then (release s, Rejected) else (s, Running).

Definition step (s : State Thunk) (e : Event) : State Thunk :=
  match e with
  | Add throws =>
      let '(s', call) := enter throws s in
      mkState (limiter s') (calls s' ++ [call])
  | Wake i =>
      match calls s !! i with
      | Some (Waiting throws) =>
          let '(s', call) := enter throws s in
          mkState (limiter s') (<[i := call]> (calls s'))
      | _ => s
      end
  | Settle i ok =>
      match calls s !! i with
      | Some Running =>
          let s' := release s in
          mkState (limiter s')
            (<[i := if ok then Fulfilled else Rejected]> (calls s'))
      | _ => s
      end
  end.

Definition run (s : State Thunk) (events : list Event) : State Thunk :=
  fold_left step events s.

End Add.

Definition isRunning (c : Call) : bool :=
  match c with Running => true | _ => false end.

Definition isWaiting (c : Call) : bool :=
  match c with Waiting _ => true | _ => false end.

Definition isAdd (e : Event) : bool :=
  match e with Add _ => true | _ => false end.

(** How many calls stand at [await fn()]. *)
Definition inFlight (calls : list Call) : nat :=
  length (List.filter isRunning calls).

(** How many events are calls of [add]. *)
Definition adds (events : list Event) : nat :=
  length (List.filter isAdd events).

(** No call is suspended: every call has returned or thrown. *)
Definition idle (calls : list Call) : Prop :=
  forallb (fun c => negb (isRunning c) && negb (isWaiting c)) calls = true.

(** The counter [running] counts the calls that stand at [await fn()],
    these are at most [max], and nothing is queued. *)
Definition consistent {Thunk : Type} (max : Z) (s : State Thunk) : Prop :=
  running (limiter s) = Z.of_nat (inFlight (calls s))
  /\ (Z.of_nat (inFlight (calls s)) <= Z.max 0 max)%Z
  /\ queue (limiter s) = []
  /\ maxConcurrent (limiter s) = max.

End Limiter.

(** Reduction of the projections of the limiter state. *)
Ltac fields :=
  cbn [Limiter.limiter Limiter.calls Limiter.running Limiter.queue
       Limiter.maxConcurrent Limiter.isRunning Limiter.isWaiting].

Tactic Notation "fields" "in" hyp(H) :=
  cbn [Limiter.limiter Limiter.calls Limiter.running Limiter.queue
       Limiter.maxConcurrent Limiter.isRunning Limiter.isWaiting] in H.

Tactic Notation "fields" "in" "*" :=
  cbn [Limiter.limiter Limiter.calls Limiter.running Limiter.queue
       Limiter.maxConcurrent Limiter.isRunning Limiter.isWaiting] in *.

(** * Part II: properties *)

(** ** Trimming *)

Lemma trimStart_app_keep s c r :
  JS.isWhiteSpace c = false ->
  JS.trimStart (s ++ c :: r) = JS.trimStart s ++ c :: r.
Proof.
  intros Hc. induction s as [|d s IH]; simpl.
  - by rewrite Hc.
  - destruct (JS.isWhiteSpace d); [exact IH | reflexivity].
Qed.

Lemma trimStart_idem s : JS.trimStart (JS.trimStart s) = JS.trimStart s.
Proof.
  induction s as [|c s IH]; simpl; [done|].
  destruct (JS.isWhiteSpace c) eqn:E; [exact IH | simpl; by rewrite E].
Qed.

Lemma trimEnd_cons_keep c s :
  JS.isWhiteSpace c = false -> JS.trimEnd (c :: s) = c :: JS.trimEnd s.
Proof.
  intros Hc. unfold JS.trimEnd. simpl.
  rewrite trimStart_app_keep by done. by rewrite rev_app_distr.
Qed.

Lemma trimEnd_idem s : JS.trimEnd (JS.trimEnd s) = JS.trimEnd s.
Proof. unfold JS.trimEnd. by rewrite rev_involutive, trimStart_idem. Qed.

Lemma trimStart_head s :
  match JS.trimStart s with
  | [] => True
  | c :: _ => JS.isWhiteSpace c = false
  end.
Proof.
  induction s as [|c s IH]; simpl; [done|].
  destruct (JS.isWhiteSpace c) eqn:E; [exact IH | exact E].
Qed.

Lemma trimStart_fixed s :
  match s with [] => True | c :: _ => JS.isWhiteSpace c = false end ->
  JS.trimStart s = s.
Proof. destruct s as [|c s]; simpl; [done|]. by intros ->. Qed.

Lemma trim_idem s : JS.trim (JS.trim s) = JS.trim s.
Proof.
  unfold JS.trim. pose proof (trimStart_head s) as Hh.
  destruct (JS.trimStart s) as [|c t] eqn:E; [reflexivity|].
  rewrite trimEnd_cons_keep by done. simpl. rewrite Hh.
  rewrite trimEnd_cons_keep by done. by rewrite trimEnd_idem.
Qed.

Lemma trimStart_sub s c : c ∈ JS.trimStart s -> c ∈ s.
Proof.
  induction s as [|d s IH]; simpl; [done|].
  destruct (JS.isWhiteSpace d); [|done]. intros ?. right. auto.
Qed.

Lemma elem_of_List_rev (s : jsstring) c : c ∈ rev s <-> c ∈ s.
Proof. rewrite !list_elem_of_In. symmetry. apply in_rev. Qed.

Lemma trim_sub s c : c ∈ JS.trim s -> c ∈ s.
Proof.
  unfold JS.trim, JS.trimEnd. intros Hc.
  apply trimStart_sub. apply (proj1 (elem_of_List_rev _ _)) in Hc.
  apply trimStart_sub in Hc. by apply (proj1 (elem_of_List_rev _ _)) in Hc.
Qed.

Lemma tidy_trim s : tidy (JS.trim s).
Proof. apply trim_idem. Qed.

Lemma tidy_blank s : tidy s -> blank s -> s = [].
Proof. unfold tidy, blank. congruence. Qed.

Lemma trim_fixed_ends s :
  JS.trimStart s = s -> JS.trimStart (rev s) = rev s -> JS.trim s = s.
Proof.
  intros H1 H2. unfold JS.trim, JS.trimEnd. rewrite H1, H2.
  apply rev_involutive.
Qed.

Lemma tidy_ends s : tidy s -> JS.trimStart s = s /\ JS.trimStart (rev s) = rev s.
Proof.
  unfold tidy, JS.trim. intros Ht.
  assert (H1 : JS.trimStart s = s).
  { apply trimStart_fixed. pose proof (trimStart_head s) as Hh.
    destruct (JS.trimStart s) as [|c t].
    - by rewrite <- Ht.
    - rewrite trimEnd_cons_keep in Ht by done. by rewrite <- Ht. }
  split; [exact H1|].
  rewrite H1 in Ht. unfold JS.trimEnd in Ht.
  rewrite <- Ht at 2. by rewrite rev_involutive.
Qed.

Lemma trimStart_rev_fixed s :
  match last s with Some c => JS.isWhiteSpace c = false | None => True end ->
  JS.trimStart (rev s) = rev s.
Proof.
  destruct s as [|c s _] using rev_ind; [done|].
  rewrite last_snoc, rev_unit. simpl. by intros ->.
Qed.

Lemma tidy_last s c : tidy s -> last s = Some c -> JS.isWhiteSpace c = false.
Proof.
  intros Ht Hl. apply tidy_ends in Ht as [_ Hr].
  apply last_Some in Hl as [t ->]. rewrite rev_unit in Hr.
  simpl in Hr. destruct (JS.isWhiteSpace c) eqn:E; [|done].
  exfalso. pose proof (trimStart_sub (rev t) c) as Hs.
  assert (length (JS.trimStart (rev t)) <= length (rev t)) as Hlen.
  { clear. induction (rev t) as [|d r IH]; simpl; [lia|].
    destruct (JS.isWhiteSpace d); simpl; lia. }
  rewrite Hr in Hlen. simpl in Hlen. lia.
Qed.

Lemma tidy_head c s : tidy (c :: s) -> JS.isWhiteSpace c = false.
Proof.
  intros Ht. apply tidy_ends in Ht as [Hf _]. simpl in Hf.
  destruct (JS.isWhiteSpace c) eqn:E; [|done]. exfalso.
  assert (length (JS.trimStart s) <= length s) as Hlen.
  { clear. induction s as [|d r IH]; simpl; [lia|].
    destruct (JS.isWhiteSpace d); simpl; lia. }
  rewrite Hf in Hlen. simpl in Hlen. lia.
Qed.

(** ** Splitting and joining *)

Lemma split_cons_inv sep s : exists piece pieces, JS.split sep s = piece :: pieces.
Proof.
  induction s as [|c s [p [ps IH]]]; simpl; [eauto|].
  destruct (c =? sep)%N; [eauto|]. rewrite IH. eauto.
Qed.

Lemma split_free sep s : Forall (fun piece => sep ∉ piece) (JS.split sep s).
Proof.
  induction s as [|c s IH]; simpl.
  - constructor; [apply not_elem_of_nil | constructor].
  - destruct (N.eqb_spec c sep) as [->|Hne].
    + constructor; [apply not_elem_of_nil | exact IH].
    + destruct (JS.split sep s) as [|p ps]; simpl.
      * constructor; [|constructor].
        apply not_elem_of_cons. split; [congruence | apply not_elem_of_nil].
      * inversion IH; subst. constructor; [|done].
        apply not_elem_of_cons. split; [congruence | done].
Qed.

Lemma split_single sep x : sep ∉ x -> JS.split sep x = [x].
Proof.
  induction x as [|c x IH]; simpl; [done|]. intros Hx.
  destruct (N.eqb_spec c sep) as [->|Hne]; [set_solver|].
  rewrite IH; [done | set_solver].
Qed.

Lemma split_app_sep sep x s :
  sep ∉ x -> JS.split sep (x ++ sep :: s) = x :: JS.split sep s.
Proof.
  induction x as [|c x IH]; simpl; intros Hx.
  - by rewrite N.eqb_refl.
  - destruct (N.eqb_spec c sep) as [->|Hne]; [set_solver|].
    rewrite IH; [done | set_solver].
Qed.

Lemma split_join sep lines :
  lines <> [] -> Forall (fun line => sep ∉ line) lines ->
  JS.split sep (JS.join [sep] lines) = lines.
Proof.
  induction lines as [|x rest IH]; [done|]. intros _ Hfree.
  inversion Hfree as [|? ? Hx Hrest]; subst.
  destruct rest as [|y rest].
  - simpl. by apply split_single.
  - change (JS.join [sep] (x :: y :: rest))
      with (x ++ sep :: JS.join [sep] (y :: rest)).
    rewrite split_app_sep by done. by rewrite IH.
Qed.

Lemma join_head sep c x rest :
  exists t, JS.join sep ((c :: x) :: rest) = c :: t.
Proof. destruct rest; simpl; eauto. Qed.

Lemma join_last sep lines y c :
  last lines = Some y -> last y = Some c -> last (JS.join sep lines) = Some c.
Proof.
  induction lines as [|x rest IH]; [done|]. intros Hl Hy.
  destruct rest as [|z rest].
  - simpl in *. by simplify_eq.
  - change (JS.join sep (x :: z :: rest))
      with (x ++ sep ++ JS.join sep (z :: rest)).
    rewrite !last_app, IH; [done | | done].
    by rewrite last_cons_cons in Hl.
Qed.

Lemma map_trim_tidy lines : Forall tidy lines -> map JS.trim lines = lines.
Proof. induction 1 as [|x l Hx _ IH]; simpl; [done|]. by rewrite Hx, IH. Qed.

(** ** The filter of [cleanContent], read left to right *)

Lemma keepLine_blank pre rest :
  keepLine [] (length pre) (pre ++ [] :: rest)
  = match rest with
    | next :: _ => plain (default [] (last pre)) && plain next
    | [] => false
    end.
Proof.
  unfold keepLine. simpl JS.truthy. cbv iota.
  destruct pre as [|p pre _] using rev_ind.
  - simpl. by destruct rest.
  - rewrite last_snoc. simpl default.
    rewrite !length_app. simpl length.
    destruct (Nat.ltb_spec 0 (length pre + 1)); [|lia].
    destruct rest as [|next rest]; simpl length.
    + destruct (Nat.ltb_spec (length pre + 1) (length pre + 1 + 1 - 1));
        [lia | reflexivity].
    + destruct (Nat.ltb_spec (length pre + 1)
                  (length pre + 1 + S (S (length rest)) - 1)); [|lia].
      simpl andb. cbv zeta.
      replace (JS.at_ ((pre ++ [p]) ++ [] :: next :: rest) (length pre + 1 - 1))
        with p.
      2:{ unfold JS.at_. rewrite <- app_assoc.
          replace (length pre + 1 - 1) with (length pre) by lia.
          rewrite app_nth2 by lia. by rewrite Nat.sub_diag. }
      replace (JS.at_ ((pre ++ [p]) ++ [] :: next :: rest) (length pre + 1 + 1))
        with next.
      2:{ unfold JS.at_. rewrite <- app_assoc.
          rewrite app_nth2 by lia.
          by replace (length pre + 1 + 1 - length pre) with 2 by lia. }
      unfold plain, isMarker.
      destruct (JS.truthy p), (JS.truthy next), (JS.startsWith p HASH),
        (JS.startsWith p STAR), (JS.startsWith p DASH),
        (JS.startsWith next HASH), (JS.startsWith next STAR),
        (JS.startsWith next DASH); reflexivity.
Qed.

Lemma filterFrom_sieve pre suf :
  JS.filterFrom keepLine (pre ++ suf) (length pre) suf
  = sieve (default [] (last pre)) suf.
Proof.
  revert pre. induction suf as [|x suf IH]; intros pre; [done|].
  assert (Hnext : JS.filterFrom keepLine (pre ++ x :: suf) (S (length pre)) suf
                  = sieve x suf).
  { specialize (IH (pre ++ [x])).
    rewrite <- app_assoc, length_app, last_snoc in IH. simpl in IH.
    by replace (length pre + 1) with (S (length pre)) in IH by lia. }
  simpl. destruct x as [|c x].
  - rewrite keepLine_blank. simpl JS.truthy. cbv iota.
    destruct suf as [|next suf]; [reflexivity|].
    destruct (plain (default [] (last pre)) && plain next);
      rewrite Hnext; reflexivity.
  - unfold keepLine at 1. simpl JS.truthy. cbv iota. by rewrite Hnext.
Qed.

Lemma filter_sieve arr : JS.filter keepLine arr = sieve [] arr.
Proof. exact (filterFrom_sieve [] arr). Qed.

Lemma sieve_sub prev lines x : x ∈ sieve prev lines -> x ∈ lines.
Proof.
  revert prev. induction lines as [|y rest IH]; intros prev; simpl; [done|].
  destruct (JS.truthy y).
  - rewrite !elem_of_cons. intros [->|Hx]; eauto.
  - destruct rest as [|next rest'].
    { intros Hx. by apply elem_of_nil in Hx. }
    destruct (plain prev && plain next).
    + rewrite !(elem_of_cons _ x y). intros [->|Hx]; eauto.
    + intros Hx. right. eauto.
Qed.

Lemma plain_truthy x : plain x = true -> JS.truthy x = true.
Proof. unfold plain. by intros [? _]%andb_prop. Qed.

Lemma spaced_any prev lines : spaced [] lines -> spaced prev lines.
Proof.
  destruct lines as [|x rest]; [done|]. simpl. intros [Hx Hrest].
  split; [|done]. intros ->. by destruct (Hx eq_refl) as [? _].
Qed.

Lemma sieve_spaced prev lines : spaced prev (sieve prev lines).
Proof.
  revert prev. induction lines as [|x rest IH]; intros prev; simpl; [done|].
  destruct x as [|c x]; simpl.
  - destruct rest as [|next rest']; [done|].
    destruct (plain prev && plain next) eqn:E.
    + apply andb_prop in E as [Hp Hn]. simpl. split; [|apply IH].
      intros _. split; [done|]. exists next. split; [|done].
      simpl. by rewrite (plain_truthy _ Hn).
    + apply (spaced_any prev). apply IH.
  - split; [done | apply IH].
Qed.

Lemma spaced_fixed prev lines : spaced prev lines -> sieve prev lines = lines.
Proof.
  revert prev. induction lines as [|x rest IH]; intros prev; simpl; [done|].
  intros [Hx Hrest]. destruct x as [|c x]; simpl.
  - destruct (Hx eq_refl) as [Hp [y [Hy Hpy]]].
    destruct rest as [|next rest']; [done|]. simpl in Hy. simplify_eq.
    rewrite Hp, Hpy. simpl andb. cbv iota. f_equal. by apply IH.
  - f_equal. by apply IH.
Qed.

Lemma spaced_adjacent prev lines a b :
  spaced prev lines -> adjacent lines a b ->
  (a = [] -> plain b = true) /\ (b = [] -> plain a = true).
Proof.
  intros Hs [i [Ha Hb]]. revert prev lines Hs Ha Hb.
  induction i as [|i IH]; intros prev lines Hs Ha Hb.
  - destruct lines as [|x [|y rest]]; simplify_eq/=.
    destruct Hs as [Hx [Hy _]]. split.
    + intros ->. destruct (Hx eq_refl) as [_ [z [Hz Hpz]]]. by simplify_eq/=.
    + intros ->. by destruct (Hy eq_refl) as [? _].
  - destruct lines as [|x rest]; simplify_eq/=.
    destruct Hs as [_ Hs]. eauto.
Qed.

Lemma spaced_head lines x rest :
  spaced [] lines -> lines = x :: rest -> x <> [].
Proof. intros Hs -> ->. simpl in Hs. by destruct Hs as [Hx _], (Hx eq_refl). Qed.

Lemma spaced_last prev lines y : spaced prev lines -> last lines = Some y -> y <> [].
Proof.
  revert prev. induction lines as [|x rest IH]; intros prev; [done|].
  intros [Hx Hs] Hl. destruct rest as [|z rest].
  - simpl in Hl. simplify_eq. intros ->.
    by destruct (Hx eq_refl) as [_ [? [? _]]].
  - rewrite last_cons_cons in Hl. eauto.
Qed.

Lemma cleanLines_sieve lines : cleanLines lines = sieve [] (map JS.trim lines).
Proof. apply filter_sieve. Qed.

Lemma cleaned_spaced x : spaced [] (cleaned x).
Proof. unfold cleaned. rewrite cleanLines_sieve. apply sieve_spaced. Qed.

Lemma cleaned_tidy x : Forall tidy (cleaned x).
Proof.
  unfold cleaned. rewrite cleanLines_sieve. apply Forall_forall.
  intros l Hl%sieve_sub. apply list_elem_of_fmap in Hl as [l' [-> _]].
  apply tidy_trim.
Qed.

Lemma cleaned_free x : Forall (fun line => LF ∉ line) (cleaned x).
Proof.
  unfold cleaned. rewrite cleanLines_sieve. apply Forall_forall.
  intros l Hl%sieve_sub. apply list_elem_of_fmap in Hl as [l' [-> Hl']].
  intros Hin%trim_sub. pose proof (split_free LF (JS.trim x)) as Hfree.
  rewrite Forall_forall in Hfree. by apply (Hfree l').
Qed.

Lemma join_spaced_trim lines :
  spaced [] lines -> Forall tidy lines ->
  JS.trim (JS.join [LF] lines) = JS.join [LF] lines.
Proof.
  intros Hs Ht. destruct lines as [|x rest] eqn:E; [reflexivity|].
  rewrite <- E in *. apply trim_fixed_ends.
  - apply trimStart_fixed. pose proof (spaced_head _ _ _ Hs E) as Hx.
    destruct x as [|c x]; [done|]. subst lines.
    destruct (join_head [LF] c x rest) as [t ->].
    inversion Ht; subst. by eapply tidy_head.
  - apply trimStart_rev_fixed.
    destruct (last lines) as [y|] eqn:Hl.
    2:{ apply last_None in Hl. congruence. }
    pose proof (spaced_last _ _ _ Hs Hl) as Hy.
    destruct (last y) as [d|] eqn:Hd.
    2:{ apply last_None in Hd. congruence. }
    rewrite (join_last _ _ _ _ Hl Hd).
    rewrite Forall_forall in Ht. eapply tidy_last; [|exact Hd].
    apply Ht. by eapply last_Some_elem_of.
Qed.

Lemma cleanContent_join lines :
  spaced [] lines -> Forall tidy lines ->
  Forall (fun line => LF ∉ line) lines ->
  cleanContent (JS.join [LF] lines) = JS.join [LF] lines.
Proof.
  intros Hs Ht Hf. destruct lines as [|x rest] eqn:E; [reflexivity|].
  rewrite <- E in *. unfold cleanContent.
  rewrite join_spaced_trim by done.
  rewrite split_join by (done || congruence).
  rewrite cleanLines_sieve, map_trim_tidy by done.
  by rewrite spaced_fixed.
Qed.

Lemma linesOf_cleanContent x :
  linesOf (cleanContent x) = match cleaned x with [] => [[]] | l => l end.
Proof.
  unfold cleanContent. fold (cleaned x).
  destruct (cleaned x) as [|y rest] eqn:E; [reflexivity|].
  unfold linesOf. rewrite <- E. apply split_join; [congruence|].
  apply cleaned_free.
Qed.

(** ** Claims C3 and C4 *)

(** C3. The content cleaner is idempotent, and in its output no two
    consecutive lines are both blank and no blank line stands immediately
    before or after a line beginning with [#], [*] or [-]. *)
Theorem cleanContent_idempotent_spaced (x : jsstring) :
  cleanContent (cleanContent x) = cleanContent x
  /\ forall a b, adjacent (linesOf (cleanContent x)) a b ->
       ~ (blank a /\ blank b)
       /\ (blank a -> isMarker b = false)
       /\ (blank b -> isMarker a = false).
Proof.
  split.
  - unfold cleanContent at 2 3. fold (cleaned x).
    apply cleanContent_join;
      [apply cleaned_spaced | apply cleaned_tidy | apply cleaned_free].
  - intros a b Hadj. rewrite linesOf_cleanContent in Hadj.
    destruct (cleaned x) as [|y rest] eqn:E.
    { destruct Hadj as [i [_ Hb]]. by destruct i. }
    rewrite <- E in Hadj.
    assert (Ha : a ∈ cleaned x).
    { destruct Hadj as [i [Hi _]]. by eapply list_elem_of_lookup_2. }
    assert (Hb : b ∈ cleaned x).
    { destruct Hadj as [i [_ Hi]]. by eapply list_elem_of_lookup_2. }
    pose proof (cleaned_tidy x) as Ht. rewrite Forall_forall in Ht.
    destruct (spaced_adjacent _ _ _ _ (cleaned_spaced x) Hadj) as [Hab Hba].
    assert (Hplain : forall l, plain l = true -> l <> [] /\ isMarker l = false).
    { intros l [Hl Hm%negb_true_iff]%andb_prop. split; [|done].
      by destruct l. }
    repeat split.
    + intros [Hba' Hbb]. apply tidy_blank in Hba'; [|by apply Ht].
      apply tidy_blank in Hbb; [|by apply Ht].
      by destruct (Hplain _ (Hab Hba')).
    + intros Hba'. apply tidy_blank in Hba'; [|by apply Ht].
      by destruct (Hplain _ (Hab Hba')).
    + intros Hbb. apply tidy_blank in Hbb; [|by apply Ht].
      by destruct (Hplain _ (Hba Hbb)).
Qed.

Lemma cleanContent_idempotent_spaced_witness :
  let x := text [str " Intro "; []; str "more"; []; str "# Title"] in
  let a := str "Intro" in
  let b : jsstring := [] in
  cleanContent (cleanContent x) = cleanContent x
  /\ adjacent (linesOf (cleanContent x)) a b
  /\ ~ (blank a /\ blank b)
  /\ (blank a -> isMarker b = false)
  /\ (blank b -> isMarker a = false).
Proof.
  intros x a b. destruct (cleanContent_idempotent_spaced x) as [Hidem Hadj].
  assert (Hab : adjacent (linesOf (cleanContent x)) a b).
  { exists 0. split; reflexivity. }
  split; [exact Hidem|]. split; [exact Hab|]. exact (Hadj a b Hab).
Defined.

Lemma sieve_app_truthy prev pre a rest :
  JS.truthy a = true ->
  sieve prev (pre ++ a :: rest) = sieve prev (pre ++ [a]) ++ sieve a rest.
Proof.
  intros Ha. revert prev. induction pre as [|x pre IH]; intros prev.
  - simpl. by rewrite Ha.
  - change (sieve prev (x :: (pre ++ a :: rest))
            = sieve prev (x :: (pre ++ [a])) ++ sieve a rest).
    pose proof (IH x) as IHx.
    assert (Hhead : head (pre ++ a :: rest) = head (pre ++ [a])) by (by destruct pre).
    cbn [sieve]. destruct (JS.truthy x); [by rewrite IHx|].
    destruct (pre ++ a :: rest) as [|n1 r1], (pre ++ [a]) as [|n2 r2];
      simplify_eq/=; [done|].
    destruct (plain prev && plain n2); by rewrite IHx.
Qed.

Lemma sieve_blanks n b post :
  JS.truthy b = true ->
  sieve [] (replicate n [] ++ b :: post) = b :: sieve b post.
Proof.
  intros Hb. induction n as [|n IH]; simpl; [by rewrite Hb|].
  destruct (replicate n [] ++ b :: post) eqn:E.
  - by destruct n.
  - exact IH.
Qed.

Lemma sieve_run a n b post :
  JS.truthy a = true -> JS.truthy b = true ->
  sieve a (replicate n [] ++ b :: post) = gap n a b ++ b :: sieve b post.
Proof.
  intros Ha Hb. unfold gap. destruct n as [|[|n]].
  - simpl. by rewrite Hb.
  - simpl. unfold plain. rewrite Ha, Hb. simpl.
    destruct (negb (isMarker a) && negb (isMarker b)); reflexivity.
  - change (replicate (S (S n)) [] ++ b :: post)
      with ([] :: [] :: (replicate n [] ++ b :: post)).
    simpl sieve at 1. simpl JS.truthy. cbv iota.
    replace (plain a && plain []) with false by (by destruct (plain a)).
    exact (sieve_blanks (S n) b post Hb).
Qed.

Lemma truthy_trim_iff a : JS.truthy (JS.trim a) = true <-> ~ blank a.
Proof. unfold blank. destruct (JS.trim a); simpl; split; congruence. Qed.

(** What the filter does with a run of blank lines.  In the array the
    cleaner filters, a run of blank lines between two non-blank lines [a]
    and [b] leaves at most one blank line; it leaves one exactly when the
    run is a single blank line and neither [a] nor [b], trimmed, begins
    with [#], [*] or [-].  A run of two or more leaves none. *)
Theorem cleanLines_blank_run (pre post blanks : list jsstring) (a b : jsstring) :
  ~ blank a -> ~ blank b -> Forall blank blanks ->
  cleanLines (pre ++ a :: blanks ++ b :: post)
  = cleanLines (pre ++ [a])
    ++ gap (length blanks) (JS.trim a) (JS.trim b)
    ++ cleanLines (b :: post).
Proof.
  intros Ha%truthy_trim_iff Hb%truthy_trim_iff Hbl.
  rewrite !cleanLines_sieve.
  rewrite !map_app, !map_cons, !map_app, !map_cons.
  assert (Hrep : map JS.trim blanks = replicate (length blanks) []).
  { induction Hbl as [|l bl Hl _ IH]; simpl; [done|]. by rewrite Hl, IH. }
  rewrite Hrep. simpl map. rewrite sieve_app_truthy by done.
  rewrite sieve_run by done. f_equal. f_equal.
  simpl. by rewrite Hb.
Qed.

Lemma cleanLines_blank_run_witness :
  ~ blank (str "a") /\ ~ blank (str "b") /\ Forall blank [[]]
  /\ cleanLines ([] ++ str "a" :: [[]] ++ str "b" :: [])
     = cleanLines ([] ++ [str "a"])
       ++ gap (length [[]: jsstring]) (JS.trim (str "a")) (JS.trim (str "b"))
       ++ cleanLines [str "b"].
Proof.
  assert (Ha : ~ blank (str "a")) by (unfold blank; vm_compute; congruence).
  assert (Hb : ~ blank (str "b")) by (unfold blank; vm_compute; congruence).
  assert (Hbl : Forall blank [[]: jsstring]) by (repeat constructor).
  split; [exact Ha|]. split; [exact Hb|]. split; [exact Hbl|].
  exact (cleanLines_blank_run [] [] [[]] (str "a") (str "b") Ha Hb Hbl).
Defined.

(** C4.  A run of blank lines between two plain paragraph lines should
    leave exactly one blank line; the filter, whose comment reads "Keep
    single empty line between paragraphs", tests the two immediate
    neighbours of an empty line and so drops every line of a longer run:
    two blank lines between the plain lines [a] and [b] leave no blank
    line at all. *)
Theorem cleanContent_long_run_removed :
  let input := text [str "a"; []; []; str "b"] in
  plain (str "a") = true /\ plain (str "b") = true
  /\ blankCount input = 2
  /\ cleanContent input = text [str "a"; str "b"]
  /\ blankCount (cleanContent input) = 0.
Proof. vm_compute. repeat split; reflexivity. Qed.

(** ** URL normalizer and domain validator *)

Lemma join_cons_cons sep (x y : jsstring) rest :
  JS.join sep (x :: y :: rest) = x ++ sep ++ JS.join sep (y :: rest).
Proof. reflexivity. Qed.

Lemma join_split sep s : JS.join [sep] (JS.split sep s) = s.
Proof.
  induction s as [|c s IH]; [reflexivity|]. cbn [JS.split].
  destruct (split_cons_inv sep s) as [p [ps E]]. rewrite E in IH |- *.
  destruct (N.eqb_spec c sep) as [->|Hne].
  - by rewrite join_cons_cons, IH.
  - destruct ps as [|q ps].
    + simpl in *. by rewrite IH.
    + rewrite join_cons_cons in IH |- *. rewrite <- IH. reflexivity.
Qed.

Lemma stripFragment_free url : NUMBER_SIGN ∉ stripFragment url.
Proof.
  unfold stripFragment, JS.at_.
  pose proof (split_free NUMBER_SIGN url) as Hf.
  destruct (JS.split NUMBER_SIGN url) as [|p ps]; simpl.
  - apply not_elem_of_nil.
  - by inversion Hf.
Qed.

Lemma stripFragment_fixed url : NUMBER_SIGN ∉ url -> stripFragment url = url.
Proof. intros Hf. unfold stripFragment. by rewrite split_single. Qed.

Lemma stripFragment_idem url :
  stripFragment (stripFragment url) = stripFragment url.
Proof. apply stripFragment_fixed, stripFragment_free. Qed.

Lemma sliceFrom_last {A} (l : list A) (n : nat) :
  1 <= n <= length l ->
  JS.sliceFrom l (- Z.of_nat n) = drop (length l - n) l.
Proof.
  intros Hn. unfold JS.sliceFrom, JS.slice, JS.relIndex.
  destruct (Z.ltb_spec (- Z.of_nat n) 0); [|lia].
  destruct (Z.ltb_spec (Z.of_nat (length l)) 0); [lia|].
  replace (Z.to_nat (Z.max 0 (Z.of_nat (length l) + - Z.of_nat n)))
    with (length l - n) by lia.
  rewrite Nat2Z.id, Nat.min_id.
  apply take_ge. rewrite length_drop. lia.
Qed.

Lemma split_length_pos sep s : 1 <= length (JS.split sep s).
Proof. destruct (split_cons_inv sep s) as [p [ps ->]]. simpl. lia. Qed.

Lemma join_tail_suffix sep (base host : list jsstring) (d : jsstring) :
  Forall (fun l => sep ∉ l) base -> Forall (fun l => sep ∉ l) host ->
  1 <= length base <= length host -> JS.join [sep] base = d ->
  JS.join [sep] (drop (length host - length base) host) = d
  <-> base `suffix_of` host.
Proof.
  intros Hbase Hhost Hlen Hjoin.
  assert (Hfree : Forall (fun l => sep ∉ l)
                    (drop (length host - length base) host)).
  { apply Forall_forall. intros l Hl. apply (subseteq_drop _ _ l) in Hl.
    rewrite Forall_forall in Hhost. by apply Hhost. }
  assert (Hne : drop (length host - length base) host <> []).
  { intros Ht%(f_equal length). rewrite length_drop in Ht. simpl in Ht. lia. }
  split.
  - intros Heq. exists (take (length host - length base) host).
    assert (Htail : drop (length host - length base) host = base).
    { rewrite <- (split_join sep _ Hne Hfree), Heq, <- Hjoin.
      apply split_join; [|done]. intros ->. simpl in Hlen. lia. }
    rewrite <- Htail at 2. by rewrite take_drop.
  - intros [k ->]. rewrite length_app.
    replace (length k + length base - length base) with (length k) by lia.
    by rewrite drop_app_length.
Qed.

Section UrlProperties.
Context {L : UrlLib}.

(** C7. A URL is in scope exactly when url-parse accepts it and the labels
    of the base host are a suffix of the labels of its host: the base host
    itself and its subdomains are accepted, every other host, and every host
    with fewer labels, is rejected. *)
Theorem isValidUrl_suffix (self : SiteIndexer) (url : jsstring) :
  isValidUrl self url = true
  <-> exists parsed,
        url_new (stripFragment url) = Some parsed
        /\ JS.split DOT (baseDomain self)
           `suffix_of` JS.split DOT (url_host parsed).
Proof.
  unfold isValidUrl.
  destruct (url_new (stripFragment url)) as [parsed|]; [|split; [done|]].
  2:{ by intros [? [? _]]. }
  pose proof (split_length_pos DOT (baseDomain self)) as Hb.
  destruct (Nat.leb_spec (length (JS.split DOT (baseDomain self)))
              (length (JS.split DOT (url_host parsed)))) as [Hle|Hgt].
  - rewrite sliceFrom_last by lia. rewrite bool_decide_eq_true.
    rewrite (join_tail_suffix DOT (JS.split DOT (baseDomain self)));
      [| apply split_free | apply split_free | lia | apply join_split].
    split; [by exists parsed|]. by intros [p [[= <-] Hs]].
  - split; [done|]. intros [p [[= <-] [k Hk]]].
    apply (f_equal length) in Hk. rewrite length_app in Hk. lia.
Qed.

Lemma normalizeUrl_try_None (self : SiteIndexer) (url : jsstring) :
  normalizeUrl_try self url = None <-> parsingFails self url.
Proof.
  unfold normalizeUrl_try, parsingFails.
  destruct (JS.startsWith url (str "http://")
            || JS.startsWith url (str "https://")).
  - destruct (url_new url) as [parsed|]; simpl; [|done].
    split; [|done]. intros Hnone. exfalso. revert Hnone.
    destruct (decide (url_host parsed = baseDomain self)); [|done].
    destruct (decide (head _ = head _)); [|done].
    destruct (List.find _ _) as [v|]; [|done].
    by destruct (JS.truthy v).
  - destruct (JS.startsWith url (str "//")).
    + by destruct (url_new (baseUrl self)).
    + destruct (JS.startsWith url (str "/")); [|done].
      split; [|done]. intros Hnone. exfalso. revert Hnone.
      destruct (decide (head _ = head _)); [|done].
      destruct (List.find _ _) as [v|]; [|done].
      by destruct (JS.truthy v).
Qed.

(** C5, as amended.  [normalizeUrl] returns a string for every href and
    context; when a collaborator throws while the href is parsed, that
    string is the href with its fragment removed, which is the href itself
    when it contains no [#]. *)
Theorem normalizeUrl_fallback (self : SiteIndexer) (href : jsstring) :
  parsingFails self (stripFragment href) ->
  normalizeUrl self href = stripFragment href
  /\ (NUMBER_SIGN ∉ href -> normalizeUrl self href = href).
Proof.
  intros Hfail%normalizeUrl_try_None. unfold normalizeUrl. rewrite Hfail.
  split; [done|]. apply stripFragment_fixed.
Qed.




Lemma uniqueFrom_elem seen arr x :
  x ∈ JS.uniqueFrom seen arr <-> x ∈ arr /\ x ∉ seen.
Proof.
  revert seen. induction arr as [|y arr IH]; intros seen; simpl.
  - split; [by intros ?%elem_of_nil | by intros [?%elem_of_nil _]].
  - destruct (decide (y ∈ seen)) as [Hy|Hy].
    + rewrite IH, elem_of_cons. split.
      * intros [? ?]. split; [by right | done].
      * intros [[->|?] Hn]; [contradiction | done].
    + rewrite !elem_of_cons, IH, not_elem_of_cons. split.
      * intros [->|[? [? ?]]]; (split; [by (left + right) | done]).
      * intros [[->|Hx] Hn]; [by left|].
        destruct (decide (x = y)) as [->|Hne]; [by left | by right].
Qed.

Lemma uniqueFrom_NoDup seen arr : NoDup (JS.uniqueFrom seen arr).
Proof.
  revert seen. induction arr as [|y arr IH]; intros seen; simpl.
  - constructor.
  - destruct (decide (y ∈ seen)); [apply IH|].
    constructor; [|apply IH].
    rewrite uniqueFrom_elem, not_elem_of_cons. intros [_ [Hne _]]. done.
Qed.

Lemma linkOf_Some self anchor u :
  linkOf self anchor = Some u ->
  isValidUrl self u = true /\ u ∉ visited self.
Proof.
  unfold linkOf. destruct anchor as [href|]; simpl; [|done].
  destruct (navigable href); [|done].
  destruct (isValidUrl self (normalizeUrl self href)) eqn:Hv; [|done].
  destruct (bool_decide _) eqn:Hd; simpl; [done|].
  intros [= <-]. split; [done|]. by apply bool_decide_eq_false in Hd.
Qed.

Lemma extractLinks_unvisited (self : SiteIndexer)
    (anchors : list (option jsstring)) (u : jsstring) :
  u ∈ extractLinks self anchors ->
  isValidUrl self u = true /\ u ∉ visited self.
Proof.
  unfold extractLinks, JS.unique. intros [Hu _]%uniqueFrom_elem.
  apply list_elem_of_omap in Hu as [anchor [_ Hl]].
  by eapply linkOf_Some.
Qed.

(** C10. [extractLinks] returns no URL twice, whatever the anchors of the
    page are, and every URL it returns has passed [isValidUrl] and is not in
    the visited set the extraction reads. *)
Theorem extractLinks_NoDup_valid (self : SiteIndexer)
    (anchors : list (option jsstring)) :
  NoDup (extractLinks self anchors)
  /\ forall u, u ∈ extractLinks self anchors ->
       isValidUrl self u = true /\ u ∉ visited self.
Proof.
  split; [apply uniqueFrom_NoDup | apply extractLinks_unvisited].
Qed.

End UrlProperties.

(** C5 as stated fails: the WHATWG constructor rejects this reference (its
    host contains a space), and the fallback returns it without its
    fragment, not the original string. *)
Lemma isValidUrl_suffix_witness :
  let self := indexerFor "https://x.test/" in
  JS.split DOT (baseDomain self)
    `suffix_of` JS.split DOT (str "docs.x.test")
  /\ isValidUrl (L := PlainUrl.lib) self (str "https://docs.x.test/a#b") = true.
Proof.
  intros self.
  assert (Hsuffix : JS.split DOT (baseDomain self)
                      `suffix_of` JS.split DOT (str "docs.x.test")).
  { exists [str "docs"]. reflexivity. }
  split; [exact Hsuffix|].
  apply (isValidUrl_suffix (L := PlainUrl.lib) self).
  exists (PlainUrl.parse (str "https://docs.x.test/a")).
  split; [reflexivity | exact Hsuffix].
Defined.

Lemma extractLinks_NoDup_valid_witness :
  let self := set_visited {[ str "https://x.test/b" ]}
                (indexerFor "https://x.test/") in
  let anchors := [Some (str "/a"); Some (str "/b"); Some (str "/a#again")] in
  let u := str "https://x.test/a" in
  u ∈ extractLinks (L := PlainUrl.lib) self anchors
  /\ NoDup (extractLinks (L := PlainUrl.lib) self anchors)
  /\ isValidUrl (L := PlainUrl.lib) self u = true
  /\ u ∉ visited self.
Proof.
  intros self anchors u.
  destruct (extractLinks_NoDup_valid (L := PlainUrl.lib) self anchors)
    as [Hnd Hvalid].
  assert (Hu : u ∈ extractLinks (L := PlainUrl.lib) self anchors).
  { apply (bool_decide_eq_true_1 _). by vm_compute. }
  split; [exact Hu|]. split; [exact Hnd|]. exact (Hvalid u Hu).
Defined.


Lemma normalizeUrl_fallback_witness :
  let self := indexerFor "https://x.test/" in
  let href := str "HTTP://exa mple.com/a b" in
  parsingFails (L := PlainUrl.lib) self (stripFragment href)
  /\ normalizeUrl (L := PlainUrl.lib) self href = stripFragment href
  /\ (NUMBER_SIGN ∉ href -> normalizeUrl (L := PlainUrl.lib) self href = href).
Proof.
  intros self href.
  assert (Hfail : parsingFails (L := PlainUrl.lib) self (stripFragment href))
    by reflexivity.
  split; [exact Hfail|].
  exact (normalizeUrl_fallback (L := PlainUrl.lib) self href Hfail).
Defined.

Lemma normalizeUrl_fallback_strips_fragment :
  let self := indexerFor "https://x.test/" in
  let href := str "HTTP://exa mple.com#frag" in
  normalizeUrl_try (L := PlainUrl.lib) self (stripFragment href) = None
  /\ normalizeUrl (L := PlainUrl.lib) self href = str "HTTP://exa mple.com"
  /\ normalizeUrl (L := PlainUrl.lib) self href <> href.
Proof. vm_compute. repeat split; congruence. Qed.


(** ** The frontier *)

Section CrawlProperties.
Context {L : UrlLib}.
Variable web : jsstring -> Response.
Variable pick : list jsstring -> nat.
Variable failedReport : list FailedPage -> jsstring.

Lemma recordReferrers_lookup newLinks currentUrl m link :
  recordReferrers newLinks currentUrl m !! link
  = match m !! link with
    | Some referrer => Some referrer
    | None => if decide (link ∈ newLinks) then Some currentUrl else None
    end.
Proof.
  unfold recordReferrers. revert m.
  induction newLinks as [|l rest IH]; intros m; simpl.
  - by destruct (m !! link).
  - rewrite IH. destruct (decide (l = link)) as [->|Hne].
    + destruct (m !! link) as [r|] eqn:E.
      * by rewrite E.
      * rewrite lookup_insert_eq. rewrite decide_True by (apply elem_of_cons; by left).
        reflexivity.
    + assert (Hl : (match m !! l with
                    | Some _ => m
                    | None => <[l:=currentUrl]> m
                    end) !! link = m !! link).
      { destruct (m !! l); [done|]. by rewrite lookup_insert_ne. }
      rewrite Hl. destruct (m !! link); [done|].
      destruct (decide (link ∈ rest)) as [Hin|Hin].
      * rewrite decide_True; [done|]. apply elem_of_cons; by right.
      * rewrite decide_False; [done|].
        rewrite not_elem_of_cons. split; [congruence|done].
Qed.

(** C8, as amended.  Enqueuing the links of a page appends every one of
    them to the queue, also those the referrer map already knows; the
    referrer is recorded for exactly the links the map did not know, and a
    link it knew keeps the referrer recorded first. *)
Theorem enqueueLinks_queue_referrers (newLinks : list jsstring)
    (currentUrl : jsstring) (self : SiteIndexer) :
  let self' := enqueueLinks newLinks currentUrl self in
  queue self' = queue self ++ newLinks
  /\ (forall link referrer,
        referrerMap self !! link = Some referrer ->
        referrerMap self' !! link = Some referrer)
  /\ (forall link,
        referrerMap self !! link = None ->
        referrerMap self' !! link
        = if decide (link ∈ newLinks) then Some currentUrl else None)
  /\ visited self' = visited self.
Proof.
  unfold enqueueLinks. simpl. repeat split.
  - intros link referrer Hl. by rewrite recordReferrers_lookup, Hl.
  - intros link Hl. by rewrite recordReferrers_lookup, Hl.
Qed.

End CrawlProperties.

Lemma enqueueLinks_queue_referrers_witness :
  let a := str "https://x.test/a" in
  let b := str "https://x.test/b" in
  let c := str "https://x.test/c" in
  let d := str "https://x.test/d" in
  let self := mkSiteIndexer {[ a; b ]} [c] (str "https://x.test") (str "x.test")
                (str "/") 0 [] {[ c := a ]} in
  let self' := enqueueLinks [c; d] b self in
  referrerMap self !! c = Some a
  /\ referrerMap self !! d = None
  /\ queue self' = queue self ++ [c; d]
  /\ referrerMap self' !! c = Some a
  /\ referrerMap self' !! d = Some b
  /\ visited self' = visited self.
Proof.
  intros a b c d self self'.
  destruct (enqueueLinks_queue_referrers [c; d] b self)
    as (Hqueue & Hkept & Hnew & Hvisited).
  assert (Hc : referrerMap self !! c = Some a) by reflexivity.
  assert (Hd : referrerMap self !! d = None) by reflexivity.
  split; [exact Hc|]. split; [exact Hd|]. split; [exact Hqueue|].
  split; [exact (Hkept c a Hc)|]. split; [|exact Hvisited].
  exact (Hnew d Hd).
Defined.

(** C8 as stated fails: a link the referrer map already knows is appended
    to the queue again (its referrer is kept). *)
Lemma enqueueLinks_appends_known_link :
  let a := str "https://x.test/a" in
  let b := str "https://x.test/b" in
  let c := str "https://x.test/c" in
  let self := mkSiteIndexer {[ a; b ]} [c] (str "https://x.test") (str "x.test")
                (str "/") 0 [] {[ c := a ]} in
  let self' := enqueueLinks [c] b self in
  referrerMap self !! c = Some a
  /\ queue self' = [c; c]
  /\ queue self' <> queue self ++ List.filter
                      (fun link => bool_decide (referrerMap self !! link = None)) [c]
  /\ referrerMap self' !! c = Some a.
Proof.
  cbv zeta. repeat split.
  - vm_compute. congruence.
Qed.

(** ** Runs of the crawler *)

Lemma markBatch_visited batch self :
  visited (markBatch batch self).1 = visited self ∪ list_to_set batch.
Proof.
  revert self. induction batch as [|url rest IH]; intros self.
  - simpl. set_solver.
  - cbn [markBatch]. destruct (decide (url ∈ visited self)) as [Hin|Hout].
    + specialize (IH self). destruct (markBatch rest self) as [self1 slots].
      simpl in *. rewrite IH. set_solver.
    + specialize (IH (set_visited ({[url]} ∪ visited self) self)).
      destruct (markBatch rest _) as [self1 slots].
      simpl in *. rewrite IH. set_solver.
Qed.

Lemma markBatch_fields batch self :
  queue (markBatch batch self).1 = queue self
  /\ baseUrl (markBatch batch self).1 = baseUrl self
  /\ baseDomain (markBatch batch self).1 = baseDomain self
  /\ failedPages (markBatch batch self).1 = failedPages self
  /\ referrerMap (markBatch batch self).1 = referrerMap self.
Proof.
  revert self. induction batch as [|url rest IH]; intros self; [done|].
  cbn [markBatch]. destruct (decide (url ∈ visited self)) as [Hin|Hout].
  - specialize (IH self). by destruct (markBatch rest self) as [self1 slots].
  - specialize (IH (set_visited ({[url]} ∪ visited self) self)).
    by destruct (markBatch rest _) as [self1 slots].
Qed.

Lemma markBatch_tasks batch self u :
  u ∈ omap id (markBatch batch self).2 <-> u ∈ batch /\ u ∉ visited self.
Proof.
  revert self. induction batch as [|url rest IH]; intros self.
  - simpl. split; [by intros ?%elem_of_nil | by intros [?%elem_of_nil _]].
  - cbn [markBatch]. destruct (decide (url ∈ visited self)) as [Hin|Hout].
    + specialize (IH self). destruct (markBatch rest self) as [self1 slots].
      simpl in *. rewrite IH, elem_of_cons. split.
      * intros [? ?]. split; [by right | done].
      * intros [[->|?] ?]; [done | done].
    + specialize (IH (set_visited ({[url]} ∪ visited self) self)).
      destruct (markBatch rest _) as [self1 slots].
      simpl in *. rewrite !elem_of_cons, IH. split.
      * intros [->|[? Hn]]; [by split; [left|] |].
        split; [by right | set_solver].
      * intros [[->|Hx] Hn]; [by left|].
        destruct (decide (u = url)) as [->|Hne]; [by left|].
        right. split; [done | set_solver].
Qed.

Lemma markBatch_NoDup batch self : NoDup (omap id (markBatch batch self).2).
Proof.
  revert self. induction batch as [|url rest IH]; intros self.
  - constructor.
  - cbn [markBatch]. destruct (decide (url ∈ visited self)) as [Hin|Hout].
    + specialize (IH self). by destruct (markBatch rest self) as [self1 slots].
    + pose proof (markBatch_tasks rest
                    (set_visited ({[url]} ∪ visited self) self) url) as Hel.
      specialize (IH (set_visited ({[url]} ∪ visited self) self)).
      destruct (markBatch rest _) as [self1 slots]. simpl in *.
      constructor; [|done]. rewrite Hel. set_solver.
Qed.

Lemma markBatch_slots batch self :
  firstOccurrences (visited self) batch (markBatch batch self).2.
Proof.
  revert self. induction batch as [|url rest IH]; intros self.
  - split; [done|]. intros i u. simpl. split.
    + by destruct i.
    + intros [Hs _]. by destruct i.
  - cbn [markBatch]. destruct (decide (url ∈ visited self)) as [Hin|Hout].
    + specialize (IH self). destruct (markBatch rest self) as [self1 slots].
      simpl in *. destruct IH as [Hlen Hfirst].
      split; [simpl; by rewrite Hlen|]. intros [|i] u; simpl.
      * split; [done|]. by intros ([= ->] & ? & _).
      * rewrite Hfirst, not_elem_of_cons. split.
        -- intros (? & ? & ?). repeat split; try done. by intros ->.
        -- intros (? & ? & _ & ?). done.
    + specialize (IH (set_visited ({[url]} ∪ visited self) self)).
      destruct (markBatch rest _) as [self1 slots].
      simpl in *. destruct IH as [Hlen Hfirst].
      split; [simpl; by rewrite Hlen|]. intros [|i] u; simpl.
      * split.
        -- intros [= ->]. repeat split; [done|]. apply not_elem_of_nil.
        -- by intros ([= ->] & _).
      * rewrite Hfirst, not_elem_of_cons. split.
        -- intros (? & Hn & ?). repeat split; try done; set_solver.
        -- intros (? & ? & ? & ?). repeat split; try done. set_solver.
Qed.

Section RunProperties.
Context {L : UrlLib}.
Variable web : jsstring -> Response.
Variable pick : list jsstring -> nat.
Variable failedReport : list FailedPage -> jsstring.

Lemma sameFrontier_refl w : sameFrontier w w.
Proof. by repeat split. Qed.

Lemma sameFrontier_trans w1 w2 w3 :
  sameFrontier w1 w2 -> sameFrontier w2 w3 -> sameFrontier w1 w3.
Proof.
  intros (?&?&?&?) (?&?&?&?). repeat split; congruence.
Qed.

Lemma processPage_frontier url self :
  visited (processPage web url self).1 = visited self
  /\ baseUrl (processPage web url self).1 = baseUrl self
  /\ baseDomain (processPage web url self).1 = baseDomain self.
Proof. unfold processPage. by destruct (web url). Qed.

Lemma task_frontier url w : sameFrontier w (outcomeWorld (task web url w)).
Proof.
  unfold task. pose proof (processPage_frontier url (indexer w)) as (Hv&Hu&Hd).
  destruct (processPage web url (indexer w)) as [self pd]. simpl in *.
  assert (Hs : sameFrontier w (set_indexer self w)) by (by repeat split).
  destruct pd as [pd|]; [|done].
  destruct (getOutputFilePath self (pd_url pd)); [|done].
  destruct (FS.mkdir _ _); [|done].
  by destruct (FS.writeFile _ _ _).
Qed.

Lemma settle_frontier n pending w :
  sameFrontier w (outcomeWorld (settle web pick n pending w)).
Proof.
  revert pending w. induction n as [|n IH]; intros pending w; simpl.
  - apply sameFrontier_refl.
  - destruct (pending !! _) as [url|]; [|apply sameFrontier_refl].
    pose proof (task_frontier url w) as Ht.
    destruct (task web url w) as [w'|w']; [|done].
    eapply sameFrontier_trans; [exact Ht | apply IH].
Qed.

Lemma collect_frontier results w : sameFrontier w (collect results w).
Proof.
  unfold collect. revert w.
  induction results as [|r results IH]; intros w; simpl.
  - apply sameFrontier_refl.
  - eapply sameFrontier_trans; [|apply IH]. by destruct r.
Qed.

Lemma frontierInv_same w w' : sameFrontier w w' -> frontierInv w -> frontierInv w'.
Proof.
  intros (Hv & Hd & _) [Hnd Hel]. split; [by rewrite Hd|].
  intros u. by rewrite Hd, Hv.
Qed.

Lemma frontierInv_size w :
  frontierInv w -> size (visited (indexer w)) = length (dispatched w).
Proof.
  intros [Hnd Hel]. rewrite <- (size_list_to_set (C := gset jsstring)) by done.
  f_equal. apply set_eq. intros u. by rewrite elem_of_list_to_set, Hel.
Qed.

Lemma wave_frontier w :
  frontierInv w ->
  frontierInv (outcomeWorld (wave web pick w))
  /\ visited (indexer w) ⊆ visited (indexer (outcomeWorld (wave web pick w)))
  /\ baseUrl (indexer (outcomeWorld (wave web pick w))) = baseUrl (indexer w)
  /\ baseDomain (indexer (outcomeWorld (wave web pick w)))
     = baseDomain (indexer w).
Proof.
  intros [Hnd Hel]. unfold wave.
  set (batch := take (Nat.min 5 (length (queue (indexer w)))) (queue (indexer w))).
  set (self0 := set_queue _ (indexer w)).
  pose proof (markBatch_visited batch self0) as Hv.
  pose proof (markBatch_fields batch self0) as (_ & Hu & Hd & _).
  pose proof (markBatch_NoDup batch self0) as Htnd.
  pose proof (markBatch_tasks batch self0) as Htel.
  destruct (markBatch batch self0) as [self1 slots]. simpl in Hv, Hu, Hd, Htnd, Htel.
  set (w1 := mkWorld self1 (disk w) (contentParts w)
               (dispatched w ++ omap id slots)).
  assert (Hinv1 : frontierInv w1).
  { split; simpl.
    - apply NoDup_app. repeat split; [done | | done].
      intros u Hu1 [_ Hu2]%Htel. apply Hu2. by apply Hel.
    - intros u. rewrite elem_of_app, Hv, elem_of_union, elem_of_list_to_set.
      rewrite Htel, Hel. simpl. split; [tauto|].
      intros [?|?]; [by left|].
      destruct (decide (u ∈ visited (indexer w))); [by left | by right]. }
  assert (Hsub1 : visited (indexer w) ⊆ visited (indexer w1)).
  { simpl. rewrite Hv. simpl. apply union_subseteq_l. }
  pose proof (settle_frontier (length (omap id slots)) (omap id slots) w1) as Hs.
  destruct (settle web pick _ _ w1) as [w2|w2]; simpl in Hs |- *.
  - pose proof (collect_frontier
                  (map (fun slot => slot ≫= pageDataOf web) slots) w2) as Hc.
    pose proof (sameFrontier_trans _ _ _ Hs Hc) as (Hv3 & _ & Hu3 & Hd3).
    split; [by eapply frontierInv_same; [|exact Hinv1]; eapply sameFrontier_trans|].
    rewrite Hv3, Hu3, Hd3. by repeat split.
  - destruct Hs as (Hv2 & Hd2 & Hu2 & Hdo2).
    split; [by eapply frontierInv_same; [|exact Hinv1]|].
    rewrite Hv2, Hu2, Hdo2. by repeat split.
Qed.

Lemma crawlLoop_frontier fuel w :
  frontierInv w ->
  frontierInv (worldOf (crawlLoop web pick fuel w))
  /\ visited (indexer w) ⊆ visited (indexer (worldOf (crawlLoop web pick fuel w)))
  /\ baseUrl (indexer (worldOf (crawlLoop web pick fuel w)))
     = baseUrl (indexer w)
  /\ baseDomain (indexer (worldOf (crawlLoop web pick fuel w)))
     = baseDomain (indexer w).
Proof.
  revert w. induction fuel as [|fuel IH]; intros w Hinv; simpl.
  - by destruct (queue (indexer w)).
  - destruct (queue (indexer w)) eqn:Hq; [done|].
    pose proof (wave_frontier w Hinv) as (Hinv' & Hsub & Hu & Hd).
    destruct (wave web pick w) as [w'|w']; simpl in *; [|done].
    destruct (IH w' Hinv') as (? & ? & ? & ?).
    split; [done|]. split; [by etrans|]. split; congruence.
Qed.

(** Running [k + j] waves is running [k] waves and going on from there. *)
Lemma crawlLoop_add k j w :
  crawlLoop web pick (k + j) w
  = match crawlLoop web pick k w with
    | OutOfFuel w' => crawlLoop web pick j w'
    | r => r
    end.
Proof.
  revert w. induction k as [|k IH]; intros w.
  - simpl. destruct (queue (indexer w)) eqn:Hq; [|done].
    destruct j; simpl; by rewrite Hq.
  - simpl. destruct (queue (indexer w)); [done|].
    destruct (wave web pick w); [apply IH | done].
Qed.

Lemma writeReports_frontier w :
  sameFrontier w (worldOf (writeReports failedReport w)).
Proof.
  unfold writeReports. destruct (FS.writeFile _ _ _); [|apply sameFrontier_refl].
  destruct (0 <? _); [|done]. by destruct (FS.writeFile _ _ _).
Qed.

Lemma frontierInv_seeded self fs : visited self = ∅ -> frontierInv (seeded self fs).
Proof.
  intros Hv. split; simpl; [constructor|]. intros u. rewrite Hv.
  split; [by intros ?%elem_of_nil | by intros ?%elem_of_empty].
Qed.

Lemma start_frontier fuel self fs :
  visited self = ∅ ->
  frontierInv (worldOf (start web pick failedReport fuel self fs)).
Proof.
  intros Hv. unfold start.
  pose proof (crawlLoop_frontier fuel _ (frontierInv_seeded self fs Hv))
    as (Hinv & _).
  destruct (crawlLoop web pick fuel (seeded self fs)) as [w|w|w]; try done.
  simpl in *. eapply frontierInv_same; [apply writeReports_frontier | done].
Qed.

(** C1. In every run from a seed, however far it has got: no URL is handed
    to the fetcher twice, the URLs handed over are exactly the visited set
    (so their number is its cardinality), the visited set only grows from
    wave to wave, and of the entries of a drained batch only the first
    occurrence of a URL that is not yet visited is handed over. *)
Theorem no_url_dispatched_twice (fuel : nat) (self : SiteIndexer)
    (fs : FileSystem) :
  visited self = ∅ ->
  let w := worldOf (start web pick failedReport fuel self fs) in
  (NoDup (dispatched w)
   /\ (forall u, u ∈ dispatched w <-> u ∈ visited (indexer w))
   /\ size (visited (indexer w)) = length (dispatched w))
  /\ (forall k j,
        visited (indexer (worldOf (crawlLoop web pick k (seeded self fs))))
        ⊆ visited (indexer (worldOf (crawlLoop web pick (k + j) (seeded self fs)))))
  /\ (forall batch this,
        firstOccurrences (visited this) batch (markBatch batch this).2
        /\ visited (markBatch batch this).1
           = visited this ∪ list_to_set batch).
Proof.
  intros Hv w. split; [|split].
  - pose proof (start_frontier fuel self fs Hv) as Hinv.
    destruct Hinv as [Hnd Hel]. repeat split; try done.
    + by apply Hel.
    + by apply Hel.
    + by apply frontierInv_size.
  - intros k j. rewrite crawlLoop_add.
    pose proof (crawlLoop_frontier k _ (frontierInv_seeded self fs Hv))
      as (Hinv & _).
    destruct (crawlLoop web pick k (seeded self fs)) as [w'|w'|w']; try done.
    simpl in *. by apply crawlLoop_frontier.
  - intros batch this. split; [apply markBatch_slots | apply markBatch_visited].
Qed.

End RunProperties.

(** ** Rebuilding the corpus *)

Lemma Dirent_nested_ind (P : Dirent -> Prop) :
  (forall name content, P (FileEntry name content)) ->
  (forall name entries, Forall P entries -> P (DirEntry name entries)) ->
  forall entry, P entry.
Proof.
  intros Hfile Hdir. fix IH 1. intros [name content|name entries].
  - apply Hfile.
  - apply Hdir. induction entries as [|e es IHes]; constructor.
    + apply IH.
    + exact IHes.
Qed.

Lemma plainName_spec name :
  plainName name = true ->
  name <> [] /\ (SLASH ∉ name) /\ name <> str "." /\ name <> str "..".
Proof.
  unfold plainName. rewrite !andb_true_iff, !negb_true_iff.
  rewrite !bool_decide_eq_false. intros [[[Hn ?] ?] ?].
  repeat split; try done. by intros ->.
Qed.

Lemma normalizeSegments_plain allow res segs :
  forallb plainName segs = true ->
  Path.normalizeSegments allow res segs = rev res ++ segs.
Proof.
  revert res. induction segs as [|seg segs IH]; intros res Hp; simpl.
  - by rewrite app_nil_r.
  - simpl in Hp. apply andb_prop in Hp as [Hseg Hsegs].
    apply plainName_spec in Hseg as (Hne & _ & Hdot & Hdots).
    rewrite decide_False by (by intros [?|?]).
    rewrite decide_False by done.
    rewrite IH by done. simpl. by rewrite <- app_assoc.
Qed.

Lemma join_snoc sep (segs : list jsstring) (name : jsstring) :
  segs <> [] ->
  JS.join sep (segs ++ [name]) = JS.join sep segs ++ sep ++ name.
Proof.
  induction segs as [|x segs IH]; [done|]. intros _.
  destruct segs as [|y segs]; [reflexivity|].
  change (JS.join sep (x :: (y :: segs) ++ [name])
          = (x ++ sep ++ JS.join sep (y :: segs)) ++ sep ++ name).
  change ((y :: segs) ++ [name]) with (y :: (segs ++ [name])).
  rewrite join_cons_cons.
  change (y :: (segs ++ [name])) with ((y :: segs) ++ [name]).
  rewrite IH by done. by rewrite <- !app_assoc.
Qed.

Lemma startsWith_cons_ne c s d :
  c <> d -> JS.startsWith (c :: s) [d] = false.
Proof. intros Hne. simpl. by destruct (N.eqb_spec c d). Qed.

Lemma plain_segments_free segs :
  forallb plainName segs = true -> Forall (fun l => SLASH ∉ l) segs.
Proof.
  intros Hp. apply Forall_forall. intros l Hl.
  rewrite forallb_forall in Hp. apply list_elem_of_In in Hl.
  by apply Hp, plainName_spec in Hl as (_ & ? & _).
Qed.

Lemma join_plain_shape segs :
  segs <> [] -> forallb plainName segs = true ->
  exists c t d,
    JS.join [SLASH] segs = c :: t
    /\ c <> SLASH
    /\ last (JS.join [SLASH] segs) = Some d /\ d <> SLASH.
Proof.
  intros Hne Hp.
  assert (Hall : forall l, l ∈ segs -> l <> [] /\ SLASH ∉ l).
  { intros l Hl. rewrite forallb_forall in Hp. apply list_elem_of_In in Hl.
    by apply Hp, plainName_spec in Hl as (? & ? & _). }
  destruct segs as [|x rest] eqn:E; [done|]. rewrite <- E in *.
  destruct (Hall x) as [Hx Hfx]; [subst; by left|].
  destruct x as [|c x]; [done|].
  destruct (last segs) as [y|] eqn:Hl.
  2:{ apply last_None in Hl. congruence. }
  destruct (Hall y) as [Hy Hfy]; [by eapply last_Some_elem_of|].
  destruct (last y) as [d|] eqn:Hd.
  2:{ apply last_None in Hd. congruence. }
  subst segs. destruct (join_head [SLASH] c x rest) as [t Ht].
  exists c, t, d. repeat split.
  - exact Ht.
  - intros ->. apply Hfx. by left.
  - by eapply join_last.
  - intros ->. apply Hfy. by eapply last_Some_elem_of.
Qed.

Lemma endsWith_last_ne s d c :
  last s = Some d -> d <> c -> JS.endsWith s [c] = false.
Proof.
  intros Hl Hne. apply last_Some in Hl as [t ->].
  unfold JS.endsWith. rewrite rev_unit. simpl.
  by destruct (N.eqb_spec d c).
Qed.

Lemma normalize_plain segs :
  segs <> [] -> forallb plainName segs = true ->
  Path.normalize (JS.join [SLASH] segs) = JS.join [SLASH] segs.
Proof.
  intros Hne Hp.
  destruct (join_plain_shape segs Hne Hp) as (c & t & d & Hj & Hc & Hl & Hd).
  assert (Hsplit : JS.split SLASH (JS.join [SLASH] segs) = segs).
  { apply split_join; [done | by apply plain_segments_free]. }
  assert (Hend : JS.endsWith (JS.join [SLASH] segs) (str "/") = false).
  { by apply (endsWith_last_ne _ d SLASH). }
  assert (Hstart : JS.startsWith (JS.join [SLASH] segs) (str "/") = false).
  { rewrite Hj. by apply (startsWith_cons_ne c t SLASH). }
  unfold Path.normalize. rewrite Hsplit, Hend, Hstart.
  rewrite normalizeSegments_plain by done. simpl rev. simpl negb.
  rewrite app_nil_l. rewrite Hj. simpl. by rewrite app_nil_r.
Qed.

Lemma join_nonempty segs :
  segs <> [] -> forallb plainName segs = true -> JS.join [SLASH] segs <> [].
Proof.
  intros Hne Hp.
  destruct (join_plain_shape segs Hne Hp) as (c & t & d & Hj & _).
  by rewrite Hj.
Qed.

(** [path.join] of a normal path and an entry name. *)
Lemma Path_join_plain segs name :
  segs <> [] -> forallb plainName segs = true -> plainName name = true ->
  Path.join [JS.join [SLASH] segs; name] = JS.join [SLASH] (segs ++ [name]).
Proof.
  intros Hne Hp Hn. unfold Path.join.
  assert (Hp' : forallb plainName (segs ++ [name]) = true).
  { rewrite forallb_app, Hp. simpl. by rewrite Hn. }
  assert (Hne' : segs ++ [name] <> []) by (by destruct segs).
  pose proof (join_nonempty segs Hne Hp) as Hj.
  apply plainName_spec in Hn as (Hn & _).
  assert (Hf : List.filter JS.truthy [JS.join [SLASH] segs; name]
               = [JS.join [SLASH] segs; name]).
  { simpl. destruct (JS.join [SLASH] segs); [done|]. by destruct name. }
  rewrite Hf. rewrite join_cons_cons. simpl JS.join at 2.
  rewrite <- join_snoc by done.
  pose proof (join_nonempty _ Hne' Hp') as Hj'.
  pose proof (normalize_plain _ Hne' Hp') as Hnorm.
  destruct (JS.join [SLASH] (segs ++ [name])) as [|c t]; [done|].
  exact Hnorm.
Qed.

Lemma filter_truthy_plain segs :
  forallb plainName segs = true -> List.filter JS.truthy segs = segs.
Proof.
  intros Hp. apply List.forallb_filter_id. rewrite forallb_forall in Hp |- *.
  intros l Hl. apply Hp in Hl. apply plainName_spec in Hl as (Hne & _).
  by destruct l.
Qed.

Lemma Path_segments_plain segs :
  segs <> [] -> forallb plainName segs = true ->
  Path.segments (JS.join [SLASH] segs) = segs.
Proof.
  intros Hne Hp. unfold Path.segments, pathParts.
  rewrite normalize_plain by done.
  rewrite split_join by (done || by apply plain_segments_free).
  rewrite filter_truthy_plain by done.
  apply List.forallb_filter_id. rewrite forallb_forall in Hp |- *.
  intros l Hl. apply Hp in Hl. apply plainName_spec in Hl as (_ & _ & Hd & _).
  by rewrite negb_true_iff, bool_decide_eq_false.
Qed.

Lemma stripCommon_prefix ds rest : Path.stripCommon ds (ds ++ rest) = ([], rest).
Proof.
  induction ds as [|d ds IH]; simpl; [by destruct rest|].
  by rewrite decide_True.
Qed.

(** [path.relative] from a directory to a path below it. *)
Lemma Path_relative_plain ds rest :
  ds <> [] -> forallb plainName (ds ++ rest) = true ->
  Path.relative (JS.join [SLASH] ds) (JS.join [SLASH] (ds ++ rest))
  = JS.join [SLASH] rest.
Proof.
  intros Hne Hp. unfold Path.relative.
  assert (Hds : forallb plainName ds = true).
  { rewrite forallb_app in Hp. by apply andb_prop in Hp as [? _]. }
  rewrite !Path_segments_plain; [|by destruct ds | done | done | done].
  by rewrite stripCommon_prefix.
Qed.

Lemma startsWith_before_slash (a rest pattern : jsstring) :
  SLASH ∉ pattern ->
  JS.startsWith (a ++ SLASH :: rest) pattern = JS.startsWith a pattern.
Proof.
  revert a. induction pattern as [|p pattern IH]; intros a Hp; [by destruct a|].
  apply not_elem_of_cons in Hp as [Hne Hp].
  destruct a as [|c a]; cbn [JS.startsWith app].
  - destruct (N.eqb_spec SLASH p); [congruence | reflexivity].
  - by rewrite IH.
Qed.

Lemma endsWith_join_last segs name pattern :
  SLASH ∉ pattern ->
  JS.endsWith (JS.join [SLASH] (segs ++ [name])) pattern
  = JS.endsWith name pattern.
Proof.
  intros Hp. destruct segs as [|x segs]; [reflexivity|].
  rewrite join_snoc by done. unfold JS.endsWith.
  generalize (JS.join [SLASH] (x :: segs)). intros prefix.
  rewrite !rev_app_distr, <- app_assoc.
  change (rev [SLASH] ++ rev prefix) with (SLASH :: rev prefix).
  apply startsWith_before_slash.
  intros Hin. apply Hp. apply list_elem_of_In. apply in_rev.
  by apply list_elem_of_In.
Qed.

Lemma startsWith_length s pattern :
  JS.startsWith s pattern = true -> length pattern <= length s.
Proof.
  revert s. induction pattern as [|p pattern IH]; intros s; simpl; [lia|].
  destruct s as [|c s]; [done|]. intros [_ H]%andb_prop.
  apply IH in H. simpl. lia.
Qed.

Lemma md_slash_free : SLASH ∉ str ".md".
Proof. apply (bool_decide_eq_false_1 _). by vm_compute. Qed.

Lemma stripMdSuffix_join init name :
  JS.endsWith name (str ".md") = true ->
  stripMdSuffix (JS.join [SLASH] (init ++ [name]))
  = JS.join [SLASH] (init ++ [take (length name - 3) name]).
Proof.
  intros Hmd. unfold stripMdSuffix.
  rewrite endsWith_join_last by apply md_slash_free.
  rewrite Hmd.
  assert (Hlen : 3 <= length name).
  { apply startsWith_length in Hmd. by rewrite !length_rev in Hmd. }
  destruct init as [|x init]; [reflexivity|].
  rewrite !join_snoc by done. rewrite !app_assoc.
  rewrite length_app.
  replace (length (JS.join [SLASH] (x :: init) ++ [SLASH]) + length name - 3)
    with (length (JS.join [SLASH] (x :: init) ++ [SLASH])
          + (length name - 3)) by lia.
  by rewrite take_app_add.
Qed.

Lemma slashesToDashes_app s t :
  slashesToDashes (s ++ t) = slashesToDashes s ++ slashesToDashes t.
Proof. unfold slashesToDashes. by rewrite map_app, concat_app. Qed.

Lemma slashesToDashes_free s : SLASH ∉ s -> slashesToDashes s = s.
Proof.
  unfold slashesToDashes. induction s as [|c s IH]; [done|].
  intros [Hne Hs]%not_elem_of_cons. simpl.
  destruct (N.eqb_spec c SLASH); [done|]. by rewrite IH.
Qed.

Lemma slashesToDashes_join segs :
  Forall (fun l => SLASH ∉ l) segs ->
  slashesToDashes (JS.join [SLASH] segs) = JS.join (str " - ") segs.
Proof.
  induction 1 as [|x segs Hx Hsegs IH]; [done|].
  destruct segs as [|y segs].
  - simpl. by apply slashesToDashes_free.
  - rewrite !join_cons_cons, !slashesToDashes_app, IH.
    by rewrite slashesToDashes_free.
Qed.

Lemma markdownFiles_shape entry :
  forall rel file,
    plainEntry entry = true -> file ∈ markdownFiles rel entry ->
    exists mid name,
      fst file = rel ++ mid ++ [name]
      /\ JS.endsWith name (str ".md") = true
      /\ forallb plainName (mid ++ [name]) = true.
Proof.
  induction entry as [name content|name entries IH] using Dirent_nested_ind;
    intros rel file Hp Hin.
  - simpl in *. destruct (JS.endsWith name (str ".md")) eqn:Hmd.
    + apply list_elem_of_singleton in Hin as ->. exists [], name.
      simpl. by rewrite Hp.
    + by apply elem_of_nil in Hin.
  - simpl in *. apply andb_prop in Hp as [Hname Hentries].
    apply list_elem_of_In, in_concat in Hin as [files [Hfiles Hfile]].
    apply in_map_iff in Hfiles as [e [<- He]].
    rewrite Forall_forall in IH. rewrite forallb_forall in Hentries.
    destruct (IH e (proj2 (list_elem_of_In _ _) He) (rel ++ [name]) file)
      as (mid & leaf & Hpath & Hmd & Hplain);
      [by apply Hentries | by apply list_elem_of_In|].
    exists (name :: mid), leaf. rewrite Hpath, <- app_assoc. simpl.
    by rewrite Hname.
Qed.

Lemma filter_filter_id {A} (p : A -> bool) l :
  List.filter p (List.filter p l) = List.filter p l.
Proof.
  apply List.forallb_filter_id, forallb_forall.
  by intros x [_ Hx]%filter_In.
Qed.

Lemma entryFiles_markdown ds entry :
  ds <> [] -> forallb plainName ds = true ->
  forall rel,
    forallb plainName rel = true -> plainEntry entry = true ->
    List.filter isMarkdown (entryFiles (JS.join [SLASH] (ds ++ rel)) entry)
    = map (pathOf ds) (markdownFiles rel entry).
Proof.
  intros Hne Hds.
  induction entry as [name content|name entries IH] using Dirent_nested_ind;
    intros rel Hrel Hp.
  - simpl in *.
    rewrite Path_join_plain; [| by destruct ds | by rewrite forallb_app, Hds | done].
    unfold isMarkdown. simpl. rewrite endsWith_join_last by apply md_slash_free.
    destruct (JS.endsWith name (str ".md")); [|done].
    unfold pathOf. simpl. by rewrite app_assoc.
  - simpl in *. apply andb_prop in Hp as [Hname Hentries].
    rewrite filter_filter_id.
    rewrite Path_join_plain; [| by destruct ds | by rewrite forallb_app, Hds | done].
    rewrite <- List.concat_filter_map, concat_map, !map_map.
    f_equal. apply map_ext_in. intros e He.
    rewrite Forall_forall in IH. rewrite forallb_forall in Hentries.
    rewrite <- app_assoc.
    apply IH; [by apply list_elem_of_In | | by apply Hentries].
    rewrite forallb_app, Hrel. simpl. by rewrite Hname.
Qed.

Lemma specTitle_snoc mid name :
  specTitle (mid ++ [name])
  = JS.join (str " - ") (mid ++ [take (length name - 3) name]).
Proof.
  unfold specTitle. rewrite last_snoc, length_app. simpl.
  replace (length mid + 1 - 1) with (length mid) by lia.
  by rewrite take_app_length.
Qed.

Lemma titleOf_markdown ds mid name :
  ds <> [] -> forallb plainName ds = true ->
  forallb plainName (mid ++ [name]) = true ->
  JS.endsWith name (str ".md") = true ->
  titleOf (JS.join [SLASH] ds) (JS.join [SLASH] (ds ++ mid ++ [name]))
  = specTitle (mid ++ [name]).
Proof.
  intros Hne Hds Hp Hmd. unfold titleOf.
  rewrite Path_relative_plain by (done || by rewrite forallb_app, Hds).
  rewrite stripMdSuffix_join by done.
  rewrite specTitle_snoc. apply slashesToDashes_join.
  apply plain_segments_free in Hp. rewrite Forall_app in Hp |- *.
  destruct Hp as [Hmid Hname]. split; [done|].
  constructor; [|constructor]. inversion Hname; subst.
  intros Hin. by apply (subseteq_take _ _ SLASH) in Hin.
Qed.

Lemma sectionsFrom_later domainPath index files acc :
  sectionsFrom domainPath (S index) files acc
  = acc ++ concat (map (fun f => [[]; codeSection domainPath f]) files).
Proof.
  revert index acc. induction files as [|[file content] files IH];
    intros index acc; simpl.
  - by rewrite app_nil_r.
  - rewrite IH. by rewrite <- !app_assoc.
Qed.

Lemma sectionsFrom_first domainPath files :
  sectionsFrom domainPath 0 files []
  = match files with
    | [] => []
    | f :: rest =>
        codeSection domainPath f
        :: concat (map (fun f => [[]; codeSection domainPath f]) rest)
    end.
Proof.
  destruct files as [|[file content] rest]; [done|].
  simpl. by rewrite sectionsFrom_later.
Qed.

Lemma join_interleaved {A} (g : A -> jsstring) x files :
  JS.join [LF] (x :: concat (map (fun f => [[]; g f]) files))
  = JS.join [LF; LF] (x :: map g files).
Proof.
  revert x. induction files as [|f files IH]; intros x; [done|].
  simpl map. simpl concat.
  change ([[]; g f] ++ concat (map (fun f => [[]; g f]) files))
    with ([] :: g f :: concat (map (fun f => [[]; g f]) files)).
  rewrite !join_cons_cons, IH. reflexivity.
Qed.

Lemma getFiles_markdown domain entries :
  plainName domain = true -> forallb plainEntry entries = true ->
  getFiles (JS.join [SLASH] [str "output"; domain]) entries
  = map (pathOf [str "output"; domain])
      (concat (map (markdownFiles []) entries)).
Proof.
  intros Hd Hp. unfold getFiles.
  rewrite <- List.concat_filter_map, concat_map, !map_map.
  f_equal. apply map_ext_in. intros e He.
  rewrite forallb_forall in Hp.
  apply (entryFiles_markdown [str "output"; domain] e); try done.
  - simpl. by rewrite Hd.
  - by apply Hp.
Qed.

Lemma codeSection_markdown domain entries file :
  plainName domain = true -> forallb plainEntry entries = true ->
  file ∈ concat (map (markdownFiles []) entries) ->
  codeSection (JS.join [SLASH] [str "output"; domain])
    (pathOf [str "output"; domain] file)
  = specSection file.
Proof.
  intros Hd Hp Hin.
  apply list_elem_of_In, in_concat in Hin as [files [Hfiles Hfile]].
  apply in_map_iff in Hfiles as [e [<- He]].
  rewrite forallb_forall in Hp.
  destruct (markdownFiles_shape e [] file (Hp e He))
    as (mid & name & Hpath & Hmd & Hplain); [by apply list_elem_of_In|].
  simpl in Hpath. unfold codeSection, specSection, specHeading, pathOf.
  cbn [fst snd]. rewrite Hpath.
  rewrite (titleOf_markdown [str "output"; domain] mid name); try done.
  simpl. by rewrite Hd.
Qed.

(** For an output directory whose entries have ordinary names, the text
    [generateLlmsFromExisting] writes is made of one section per [.md] file,
    in enumeration order, joined by two line feeds; a section is the heading
    [# title], a line feed and the cleaned content of the file, the title
    being the path relative to the domain root without its [.md] suffix and
    with [" - "] for every separator. *)
Lemma generate_joined (domain : jsstring) (entries : list Dirent) :
  plainName domain = true -> forallb plainEntry entries = true ->
  generateLlmsFromExisting domain entries
  = (str "output/" ++ domain ++ str "/llms-full.txt", joinedSections entries).
Proof.
  intros Hd Hp. unfold generateLlmsFromExisting.
  assert (Hroot : Path.join [str "output"; domain]
                  = JS.join [SLASH] [str "output"; domain]).
  { by apply (Path_join_plain [str "output"] domain). }
  rewrite Hroot. f_equal.
  - rewrite (Path_join_plain [str "output"; domain] (str "llms-full.txt"));
      [| done | by simpl; rewrite Hd | done].
    reflexivity.
  - rewrite getFiles_markdown by done. unfold joinedSections.
    rewrite sectionsFrom_first.
    assert (Hsections :
      map (codeSection (JS.join [SLASH] [str "output"; domain]))
        (map (pathOf [str "output"; domain])
           (concat (map (markdownFiles []) entries)))
      = map specSection (concat (map (markdownFiles []) entries))).
    { rewrite map_map. apply map_ext_in. intros file Hin.
      apply (codeSection_markdown domain entries); [done | done |].
      by apply list_elem_of_In. }
    rewrite <- Hsections.
    destruct (map (pathOf [str "output"; domain])
                (concat (map (markdownFiles []) entries))) as [|f rest];
      [done|].
    apply join_interleaved.
Qed.

(** ** Failed pages *)

Section FailureProperties.
Context {L : UrlLib}.
Variable web : jsstring -> Response.
Variable pick : list jsstring -> nat.
Variable failedReport : list FailedPage -> jsstring.

(** A failed page leaves one record behind and nothing else: the queue, the
    referrer map and the visited set are as before. *)
Lemma processPage_failure url self error :
  web url = Failed error ->
  processPage web url self
  = (set_failedPages
       (failedPages self
        ++ [mkFailedPage url (reasonOf error) (referrerOf self url)]) self,
     None).
Proof. unfold processPage. by intros ->. Qed.

Lemma referrerOf_recorded self url referrer :
  referrerMap self !! url = Some referrer -> referrer <> [] ->
  referrerOf self url = referrer.
Proof. unfold referrerOf. intros -> Hne. by destruct referrer. Qed.

Lemma referrerOf_seed self url :
  referrerMap self !! url = None -> referrerOf self url = INITIAL_URL.
Proof. unfold referrerOf. by intros ->. Qed.

Lemma task_failure url w error :
  web url = Failed error ->
  task web url w
  = Resolved
      (set_indexer
         (set_failedPages
            (failedPages (indexer w)
             ++ [mkFailedPage url (reasonOf error) (referrerOf (indexer w) url)])
            (indexer w)) w).
Proof. intros Hweb. unfold task. by rewrite (processPage_failure _ _ error). Qed.

Lemma settle_single n url w :
  settle web pick (S n) [url] w
  = match task web url w with
    | Rejected w' => Rejected w'
    | Resolved w' => Resolved w'
    end.
Proof.
  cbn [settle length]. rewrite Nat.mod_1_r.
  change ([url] !! 0) with (Some url). cbv beta iota.
  destruct (task web url w) as [w'|w']; [|done].
  change (delete 0 [url]) with (@nil jsstring). by destruct n.
Qed.

Lemma wave_single url w :
  queue (indexer w) = [url] -> url ∉ visited (indexer w) ->
  wave web pick w
  = match
      task web url
        (mkWorld
           (set_visited ({[url]} ∪ visited (indexer w))
              (set_queue [] (indexer w)))
           (disk w) (contentParts w) (dispatched w ++ [url]))
    with
    | Rejected w' => Rejected w'
    | Resolved w' => Resolved (collect [pageDataOf web url] w')
    end.
Proof.
  intros Hq Hv. unfold wave. rewrite Hq.
  change (take (Nat.min 5 (length [url])) [url]) with [url].
  change (drop (Nat.min 5 (length [url])) [url]) with (@nil jsstring).
  cbn [markBatch]. cbn [visited set_queue].
  rewrite decide_False by done.
  change (omap id [Some url]) with [url]. cbn [length].
  rewrite settle_single. by destruct (task web url _).
Qed.

Lemma crawlLoop_step fuel w :
  queue (indexer w) <> [] ->
  crawlLoop web pick (S fuel) w
  = match wave web pick w with
    | Rejected w' => Threw w'
    | Resolved w' => crawlLoop web pick fuel w'
    end.
Proof. intros Hq. cbn [crawlLoop]. by destruct (queue (indexer w)). Qed.

Lemma crawlLoop_done fuel w :
  queue (indexer w) = [] -> crawlLoop web pick fuel w = Returned w.
Proof. intros Hq. destruct fuel; cbn [crawlLoop]; by rewrite Hq. Qed.

(** The loop of [start] when the seed cannot be fetched: one wave, one
    failure record, nothing written. *)
Lemma crawlLoop_seed_failure fuel self fs error :
  queue self = [] -> visited self = ∅ -> failedPages self = [] ->
  web (baseUrl self) = Failed error ->
  crawlLoop web pick (S fuel) (seeded self fs)
  = Returned
      (mkWorld
         (mkSiteIndexer ({[baseUrl self]} ∪ ∅) [] (baseUrl self)
            (baseDomain self) (basePath self) (successfulPages self)
            [mkFailedPage (baseUrl self) (reasonOf error)
               (referrerOf self (baseUrl self))]
            (referrerMap self))
         fs [] [baseUrl self]).
Proof.
  intros Hq Hv Hf Hweb. destruct self as [v q bu bd bp sp fp rm].
  cbn [queue visited failedPages baseUrl baseDomain basePath successfulPages
       referrerMap] in *.
  subst. unfold seeded.
  rewrite crawlLoop_step by done.
  rewrite (wave_single bu); [|done|apply not_elem_of_empty].
  rewrite (task_failure _ _ error) by done.
  unfold collect, pageDataOf. rewrite Hweb. cbn [fold_left].
  by rewrite crawlLoop_done.
Qed.

(** In a working directory where [output/<domain>] does not exist, a crawl
    whose seed cannot be fetched ends with the rejection of the final
    [writeFile]: the failure is recorded, but no corpus file is written. *)
Lemma start_seed_failure_throws fuel self fs error :
  queue self = [] -> visited self = ∅ -> failedPages self = [] ->
  web (baseUrl self) = Failed error ->
  Path.dirname (corpusPath self) ∉ directories fs ->
  exists w,
    start web pick failedReport (S fuel) self fs = Threw w
    /\ failedPages (indexer w)
       = [mkFailedPage (baseUrl self) (reasonOf error)
            (referrerOf self (baseUrl self))]
    /\ disk w = fs.
Proof.
  intros Hq Hv Hf Hweb Hdir. unfold start.
  rewrite (crawlLoop_seed_failure fuel self fs error) by done.
  unfold writeReports, FS.writeFile. cbn [indexer disk].
  unfold corpusPath in *. cbn [baseDomain].
  rewrite (bool_decide_eq_false_2 _ Hdir). simpl.
  eexists. by repeat split.
Qed.

(** When the directory is there, the same crawl returns, and both the
    corpus file (empty) and the failure report are on the disk. *)
Lemma start_seed_failure_returns fuel self fs error :
  queue self = [] -> visited self = ∅ -> failedPages self = [] ->
  web (baseUrl self) = Failed error ->
  Path.dirname (corpusPath self) ∈ directories fs ->
  corpusPath self ∉ directories fs ->
  Path.dirname (failedUrlsPath self) ∈ directories fs ->
  failedUrlsPath self ∉ directories fs ->
  exists w,
    start web pick failedReport (S fuel) self fs = Returned w
    /\ failedPages (indexer w)
       = [mkFailedPage (baseUrl self) (reasonOf error)
            (referrerOf self (baseUrl self))]
    /\ files (disk w)
       = <[failedUrlsPath self := failedReport (failedPages (indexer w))]>
           (<[corpusPath self := []]> (files fs)).
Proof.
  intros Hq Hv Hf Hweb Hd1 Hn1 Hd2 Hn2. unfold start.
  rewrite (crawlLoop_seed_failure fuel self fs error) by done.
  unfold writeReports, FS.writeFile. cbn [indexer disk].
  unfold corpusPath, failedUrlsPath in *.
  cbn [baseDomain failedPages directories files].
  rewrite (bool_decide_eq_true_2 _ Hd1), (bool_decide_eq_false_2 _ Hn1).
  simpl. rewrite (bool_decide_eq_true_2 _ Hd2), (bool_decide_eq_false_2 _ Hn2).
  simpl. eexists. by repeat split.
Qed.

Lemma task_records url w :
  failedPages (indexer (outcomeWorld (task web url w)))
  = failedPages (indexer w)
    ++ match web url with
       | Failed error =>
           [mkFailedPage url (reasonOf error) (referrerOf (indexer w) url)]
       | Loaded _ => []
       end.
Proof.
  unfold task, processPage. destruct (web url) as [doc|error] eqn:Hweb.
  - unfold pageDataOf. rewrite Hweb. cbn [outcomeWorld].
    assert (Hsame : forall d,
              failedPages (indexer (set_disk d
                 (set_indexer
                    (enqueueLinks (extractLinks (indexer w) (doc_anchors doc))
                       url (indexer w)) w)))
              = failedPages (indexer w) ++ []).
    { intros d. simpl. by rewrite app_nil_r. }
    destruct (getOutputFilePath _ _); [|apply (Hsame (disk w))].
    destruct (FS.mkdir _ _) as [d1|]; [|apply (Hsame (disk w))].
    destruct (FS.writeFile _ _ _) as [d2|]; apply Hsame.
  - reflexivity.
Qed.

Lemma failuresInv_drop w pending :
  failuresInv web w pending -> failuresInv web w [].
Proof.
  intros (Hnd & Hp & Hf). repeat split.
  - rewrite app_nil_r. by apply NoDup_app in Hnd as [? _].
  - by intros u ?%elem_of_nil.
  - by apply Hf.
  - by apply Hf.
Qed.

Lemma task_failures url i pending w :
  pending !! i = Some url ->
  failuresInv web w pending ->
  failuresInv web (outcomeWorld (task web url w)) (delete i pending).
Proof.
  intros Hi (Hnd & Hp & Hf).
  pose proof (task_records url w) as Hrec.
  pose proof (task_frontier web url w) as (_ & Hd & _).
  pose proof (delete_Permutation _ _ _ Hi) as Hperm.
  assert (Hurl : url ∈ pending) by (by eapply list_elem_of_lookup_2).
  rewrite Hperm in Hnd. split; [|split].
  - rewrite Hrec. destruct (web url) as [doc|error].
    + rewrite app_nil_r. apply NoDup_app in Hnd as (HF & Hdis & Hpd).
      apply NoDup_app. repeat split; [done | | by inversion Hpd].
      intros x Hx Hx'. apply (Hdis x Hx). by right.
    + rewrite map_app. simpl. rewrite <- app_assoc. exact Hnd.
  - intros u Hu%list_elem_of_delete_inv. rewrite Hd. by apply Hp.
  - intros f Hfin. rewrite Hrec in Hfin. rewrite Hd.
    apply elem_of_app in Hfin as [Hin|Hin]; [by apply Hf|].
    destruct (web url) as [doc|error] eqn:Hweb; [by apply elem_of_nil in Hin|].
    apply list_elem_of_singleton in Hin as ->. simpl.
    split; [by apply Hp | by exists error].
Qed.

Lemma settle_failures n pending w :
  failuresInv web w pending ->
  failuresInv web (outcomeWorld (settle web pick n pending w)) [].
Proof.
  revert pending w. induction n as [|n IH]; intros pending w Hinv.
  - by eapply failuresInv_drop.
  - cbn [settle].
    destruct (pending !! _) as [url|] eqn:Hi; [|by eapply failuresInv_drop].
    pose proof (task_failures _ _ _ _ Hi Hinv) as Hinv'.
    destruct (task web url w) as [w'|w']; cbn [outcomeWorld] in *.
    + by apply IH.
    + by eapply failuresInv_drop.
Qed.

Lemma settle_complete n pending w w' :
  failuresComplete web w pending -> length pending <= n ->
  settle web pick n pending w = Resolved w' ->
  failuresComplete web w' [].
Proof.
  revert pending w. induction n as [|n IH]; intros pending w Hc Hlen Hs.
  - destruct pending; [|simpl in Hlen; lia]. cbn [settle] in Hs. by simplify_eq.
  - cbn [settle] in Hs.
    destruct (pending !! _) as [url|] eqn:Hi.
    2:{ simplify_eq. apply lookup_ge_None in Hi.
        destruct pending as [|p pending]; [done|].
        exfalso. pose proof (Nat.mod_upper_bound (pick (p :: pending))
                               (length (p :: pending))) as Hb.
        simpl in Hb, Hi. lia. }
    pose proof (task_records url w) as Hrec.
    pose proof (task_frontier web url w) as (_ & Hd & _).
    pose proof (delete_Permutation _ _ _ Hi) as Hperm.
    destruct (task web url w) as [w1|w1]; [|done]. cbn [outcomeWorld] in *.
    apply (IH (delete (pick pending `mod` length pending) pending) w1);
      [| rewrite length_delete by eauto; lia | done].
    intros u error Hu Hnot Hweb. rewrite Hrec, map_app, elem_of_app.
    destruct (decide (u = url)) as [->|Hne].
    + right. rewrite Hweb. simpl. by left.
    + left. apply (Hc u error); [by rewrite <- Hd | | done].
      rewrite Hperm. apply not_elem_of_cons. by split.
Qed.

Lemma collect_records results w :
  failedPages (indexer (collect results w)) = failedPages (indexer w)
  /\ dispatched (collect results w) = dispatched w.
Proof.
  unfold collect. revert w.
  induction results as [|r results IH]; intros w; [done|]. cbn [fold_left].
  match goal with
  | |- context [fold_left _ results ?w0] => destruct (IH w0) as [H1 H2]
  end.
  rewrite H1, H2. by destruct r.
Qed.

Lemma failuresInv_same w w' pending :
  failedPages (indexer w') = failedPages (indexer w) ->
  dispatched w' = dispatched w ->
  failuresInv web w pending -> failuresInv web w' pending.
Proof. unfold failuresInv. by intros -> ->. Qed.

Lemma failuresComplete_same w w' pending :
  failedPages (indexer w') = failedPages (indexer w) ->
  dispatched w' = dispatched w ->
  failuresComplete web w pending -> failuresComplete web w' pending.
Proof. unfold failuresComplete. by intros -> ->. Qed.

Lemma wave_failures w :
  frontierInv w -> failuresInv web w [] ->
  failuresInv web (outcomeWorld (wave web pick w)) []
  /\ (failuresComplete web w [] ->
      forall w', wave web pick w = Resolved w' -> failuresComplete web w' []).
Proof.
  intros [Hnd Hel] (HF & _ & Hf). rewrite app_nil_r in HF. unfold wave.
  set (batch := take (Nat.min 5 (length (queue (indexer w)))) (queue (indexer w))).
  set (self0 := set_queue _ (indexer w)).
  pose proof (markBatch_fields batch self0) as (_ & _ & _ & Hfp & _).
  pose proof (markBatch_NoDup batch self0) as Htnd.
  pose proof (markBatch_tasks batch self0) as Htel.
  destruct (markBatch batch self0) as [self1 slots].
  cbn [fst snd] in Hfp, Htnd, Htel.
  set (w1 := mkWorld self1 (disk w) (contentParts w)
               (dispatched w ++ omap id slots)).
  assert (Hfp1 : failedPages (indexer w1) = failedPages (indexer w)) by done.
  assert (Hinv1 : failuresInv web w1 (omap id slots)).
  { split; [|split].
    - rewrite Hfp1. apply NoDup_app. repeat split; [done | | done].
      intros u Hu [_ Hnot]%Htel. apply Hnot. simpl. apply Hel.
      apply list_elem_of_fmap in Hu as [f [-> Hfin]]. by apply Hf.
    - intros u Hu. simpl. apply elem_of_app. by right.
    - intros f Hfin. rewrite Hfp1 in Hfin. simpl. rewrite elem_of_app.
      destruct (Hf f Hfin) as [? ?]. split; [by left | done]. }
  pose proof (settle_failures (length (omap id slots)) _ _ Hinv1) as Hs.
  split.
  - destruct (settle web pick _ _ w1) as [w2|w2]; cbn [outcomeWorld] in *.
    + destruct (collect_records
                  (map (fun slot => slot ≫= pageDataOf web) slots) w2)
        as [Hc1 Hc2].
      by eapply failuresInv_same.
    + done.
  - intros Hcomplete w' Hw.
    assert (Hc1 : failuresComplete web w1 (omap id slots)).
    { intros u error Hu Hnot Hweb. rewrite Hfp1. simpl in Hu.
      apply elem_of_app in Hu as [Hu|Hu]; [|done].
      apply (Hcomplete u error); [done | apply not_elem_of_nil | done]. }
    destruct (settle web pick _ _ w1) as [w2|w2] eqn:Hsettle; [|done].
    injection Hw as <-.
    destruct (collect_records
                (map (fun slot => slot ≫= pageDataOf web) slots) w2)
      as [Hr1 Hr2].
    eapply failuresComplete_same; [exact Hr1 | exact Hr2 |].
    by eapply (settle_complete _ _ w1).
Qed.

Lemma crawlLoop_failures fuel w :
  frontierInv w -> failuresInv web w [] ->
  failuresInv web (worldOf (crawlLoop web pick fuel w)) []
  /\ (failuresComplete web w [] ->
      forall w', crawlLoop web pick fuel w = Returned w' ->
                 failuresComplete web w' []).
Proof.
  revert w. induction fuel as [|fuel IH]; intros w Hfr Hinv; cbn [crawlLoop].
  - destruct (queue (indexer w)); split; try done.
    intros Hc w' [= <-]. done.
  - destruct (queue (indexer w)) eqn:Hq.
    { split; [done|]. by intros Hc w' [= <-]. }
    pose proof (wave_frontier web pick w Hfr) as (Hfr' & _).
    pose proof (wave_failures w Hfr Hinv) as [Hinv' Hc'].
    destruct (wave web pick w) as [w1|w1]; cbn [outcomeWorld worldOf] in *.
    + destruct (IH w1 Hfr' Hinv') as [IH1 IH2]. split; [done|].
      intros Hc w' Hw. apply IH2; [|done]. by apply Hc'.
    + split; [done|]. by intros.
Qed.

(** In every run from a fresh crawler object no URL has two failure
    records, and a record stands for a dispatched URL whose fetch failed and
    gives the error's reason; when [start] returns, every dispatched URL
    whose fetch failed has its record. *)
Lemma failure_records_once fuel self fs :
  visited self = ∅ -> failedPages self = [] ->
  let run := start web pick failedReport fuel self fs in
  NoDup (map fp_url (failedPages (indexer (worldOf run))))
  /\ (forall f, f ∈ failedPages (indexer (worldOf run)) ->
        fp_url f ∈ dispatched (worldOf run)
        /\ exists error,
             web (fp_url f) = Failed error /\ fp_reason f = reasonOf error)
  /\ (forall w u error,
        run = Returned w -> u ∈ dispatched w -> web u = Failed error ->
        u ∈ map fp_url (failedPages (indexer w))).
Proof.
  intros Hv Hf run.
  assert (Hinv0 : failuresInv web (seeded self fs) []).
  { split; [|split]; simpl; rewrite ?Hf.
    - constructor.
    - by intros u ?%elem_of_nil.
    - by intros f ?%elem_of_nil. }
  assert (Hc0 : failuresComplete web (seeded self fs) []).
  { by intros u error ?%elem_of_nil. }
  pose proof (crawlLoop_failures fuel _ (frontierInv_seeded self fs Hv) Hinv0)
    as [Hinv Hc].
  specialize (Hc Hc0). subst run. unfold start.
  destruct (crawlLoop web pick fuel (seeded self fs)) as [w|w|w];
    cbn [worldOf] in *.
  - pose proof (writeReports_frontier failedReport w) as (_ & Hd & _).
    assert (Hfp : failedPages (indexer (worldOf (writeReports failedReport w)))
                  = failedPages (indexer w)).
    { unfold writeReports. destruct (FS.writeFile _ _ _); [|done].
      destruct (0 <? _); [|done]. by destruct (FS.writeFile _ _ _). }
    destruct Hinv as (HF & _ & Hrec). rewrite app_nil_r in HF.
    rewrite Hfp, Hd. split; [done|]. split; [done|].
    intros w' u error Hrun Hu Hweb.
    assert (Hw' : w' = worldOf (writeReports failedReport w)) by (by rewrite Hrun).
    rewrite Hw', Hfp. rewrite Hw', Hd in Hu.
    apply (Hc w eq_refl u error); [done | apply not_elem_of_nil | done].
  - destruct Hinv as (HF & _ & Hrec). rewrite app_nil_r in HF.
    split; [done|]. split; [done|]. by intros.
  - destruct Hinv as (HF & _ & Hrec). rewrite app_nil_r in HF.
    split; [done|]. split; [done|]. by intros.
Qed.

Lemma task_referrerMap url w u :
  u ∈ visited (indexer w) ->
  referrerMap (indexer (outcomeWorld (task web url w))) !! u
  = referrerMap (indexer w) !! u.
Proof.
  intros Hu. unfold task, processPage.
  destruct (web url) as [doc|error] eqn:Hweb; [|done].
  unfold pageDataOf. rewrite Hweb.
  assert (Hmap : referrerMap
                   (enqueueLinks (extractLinks (indexer w) (doc_anchors doc))
                      url (indexer w)) !! u
                 = referrerMap (indexer w) !! u).
  { unfold enqueueLinks. simpl. rewrite recordReferrers_lookup.
    destruct (referrerMap (indexer w) !! u); [done|].
    rewrite decide_False; [done|]. intros Hin.
    by apply extractLinks_unvisited in Hin as [_ ?]. }
  destruct (getOutputFilePath _ _); [|done].
  destruct (FS.mkdir _ _); [|done].
  by destruct (FS.writeFile _ _ _).
Qed.

Lemma task_referrers url w :
  url ∈ visited (indexer w) -> referrersInv w ->
  referrersInv (outcomeWorld (task web url w)).
Proof.
  intros Hurl Hinv f Hf.
  pose proof (task_frontier web url w) as (Hv & _).
  rewrite task_records in Hf. rewrite Hv.
  apply elem_of_app in Hf as [Hf|Hf].
  - destruct (Hinv f Hf) as [Hfv Hfr]. split; [done|].
    by rewrite task_referrerMap.
  - destruct (web url) as [doc|error]; [by apply elem_of_nil in Hf|].
    apply list_elem_of_singleton in Hf as ->. simpl. split; [done|].
    by rewrite task_referrerMap.
Qed.

Lemma settle_referrers n pending w :
  (forall u, u ∈ pending -> u ∈ visited (indexer w)) -> referrersInv w ->
  referrersInv (outcomeWorld (settle web pick n pending w)).
Proof.
  revert pending w. induction n as [|n IH]; intros pending w Hp Hinv; [done|].
  cbn [settle]. destruct (pending !! _) as [url|] eqn:Hi; [|done].
  assert (Hurl : url ∈ visited (indexer w)).
  { apply Hp. by eapply list_elem_of_lookup_2. }
  pose proof (task_referrers url w Hurl Hinv) as Hinv'.
  pose proof (task_frontier web url w) as (Hv & _).
  destruct (task web url w) as [w'|w']; cbn [outcomeWorld] in *; [|done].
  apply IH; [|done]. intros u Hu%list_elem_of_delete_inv.
  rewrite Hv. by apply Hp.
Qed.

Lemma collect_referrers results w :
  referrersInv w -> referrersInv (collect results w).
Proof.
  unfold collect. revert w.
  induction results as [|r results IH]; intros w Hinv; [done|].
  cbn [fold_left]. apply IH. by destruct r.
Qed.

Lemma wave_referrers w :
  referrersInv w -> referrersInv (outcomeWorld (wave web pick w)).
Proof.
  intros Hinv. unfold wave.
  set (batch := take (Nat.min 5 (length (queue (indexer w)))) (queue (indexer w))).
  set (self0 := set_queue _ (indexer w)).
  pose proof (markBatch_fields batch self0) as (_ & _ & _ & Hfp & Hrm).
  pose proof (markBatch_visited batch self0) as Hv.
  pose proof (markBatch_tasks batch self0) as Htel.
  destruct (markBatch batch self0) as [self1 slots].
  cbn [fst snd] in Hfp, Hrm, Hv, Htel.
  set (w1 := mkWorld self1 (disk w) (contentParts w)
               (dispatched w ++ omap id slots)).
  assert (Hinv1 : referrersInv w1).
  { intros f Hf. simpl in Hf |- *. rewrite Hfp in Hf. rewrite Hrm, Hv.
    destruct (Hinv f Hf) as [Hfv Hfr]. split; [|done].
    apply elem_of_union. by left. }
  assert (Hp1 : forall u, u ∈ omap id slots -> u ∈ visited (indexer w1)).
  { intros u [Hu _]%Htel. simpl. rewrite Hv. apply elem_of_union. right.
    by apply elem_of_list_to_set. }
  pose proof (settle_referrers (length (omap id slots)) _ _ Hp1 Hinv1) as Hs.
  destruct (settle web pick _ _ w1) as [w2|w2]; cbn [outcomeWorld] in *.
  - by apply collect_referrers.
  - done.
Qed.

Lemma crawlLoop_referrers fuel w :
  referrersInv w -> referrersInv (worldOf (crawlLoop web pick fuel w)).
Proof.
  revert w. induction fuel as [|fuel IH]; intros w Hinv; cbn [crawlLoop].
  - by destruct (queue (indexer w)).
  - destruct (queue (indexer w)); [done|].
    pose proof (wave_referrers w Hinv) as Hinv'.
    destruct (wave web pick w) as [w1|w1]; cbn [outcomeWorld worldOf] in *.
    + by apply IH.
    + done.
Qed.

(** The referrer of a failure record is the one the referrer map holds for
    its URL when the run ends, or ["Initial URL"] when it holds none. *)
Lemma failure_records_referrer fuel self fs :
  failedPages self = [] ->
  let w := worldOf (start web pick failedReport fuel self fs) in
  forall f, f ∈ failedPages (indexer w) ->
    fp_referrer f = referrerOf (indexer w) (fp_url f).
Proof.
  intros Hf w f Hin.
  assert (Hinv0 : referrersInv (seeded self fs)).
  { intros f0 Hf0. simpl in Hf0. rewrite Hf in Hf0.
    by apply elem_of_nil in Hf0. }
  pose proof (crawlLoop_referrers fuel _ Hinv0) as Hinv.
  assert (Hw : referrersInv w).
  { subst w. unfold start.
    destruct (crawlLoop web pick fuel (seeded self fs)) as [w0|w0|w0];
      cbn [worldOf] in *; try done.
    unfold writeReports. destruct (FS.writeFile _ _ _); [|done].
    destruct (0 <? _); [|done]. by destruct (FS.writeFile _ _ _). }
  by destruct (Hw f Hin) as [_ ->].
Qed.

End FailureProperties.

(** ** Worked examples *)

Example cleanContent_paragraphs :
  cleanContent (text [str "  Intro "; []; str "more"; []; str "# Title"; [];
                      str "- item"; str " "])
  = text [str "Intro"; []; str "more"; str "# Title"; str "- item"].
Proof. reflexivity. Qed.

Example indexerFor_fields :
  let self := indexerFor "https://x.test/docs/guide" in
  baseUrl self = str "https://x.test" /\ baseDomain self = str "x.test"
  /\ basePath self = str "/docs/guide/".
Proof. vm_compute. auto. Qed.

(** The links of the seed page: the two pages of the site, not the foreign
    host, the fragment or the mail address, and [/a] only once. *)
Example extractLinks_scenario :
  extractLinks (L := PlainUrl.lib) (indexerFor "https://x.test/")
    [Some (str "/a"); Some (str "https://x.test/b");
     Some (str "https://other.test/c"); Some (str "#frag");
     Some (str "mailto:x@y.com"); None; Some (str "/a#top")]
  = [str "https://x.test/a"; str "https://x.test/b"].
Proof. vm_compute. reflexivity. Qed.

(** The five rules of the normalizer under the seed
    [https://x.test/docs/v1/]. *)
Example normalizeUrl_rules :
  let self := indexerFor "https://x.test/docs/v1/" in
  let normalize := normalizeUrl (L := PlainUrl.lib) self in
  normalize (str "https://x.test/docs/v2/intro/#top")
  = str "https://x.test/docs/v2/intro"
  /\ normalize (str "https://x.test/docs/guide")
     = str "https://x.test/docs/v1/guide"
  /\ normalize (str "https://x.test/blog/post") = str "https://x.test/blog/post"
  /\ normalize (str "//cdn.test/lib.js") = str "https://cdn.test/lib.js"
  /\ normalize (str "/docs/2024-01/x") = str "https://x.test/docs/2024-01/x"
  /\ normalize (str "/docs/guide") = str "https://x.test/docs/v1/guide"
  /\ normalize (str "/about") = str "https://x.test/about"
  /\ normalize (str "intro") = str "https://x.test/docs/v1/intro".
Proof. vm_compute. repeat split. Qed.

Example isValidUrl_hosts :
  let self := indexerFor "https://x.test/" in
  let valid := isValidUrl (L := PlainUrl.lib) self in
  valid (str "https://x.test/a") = true
  /\ valid (str "https://docs.x.test/a#b") = true
  /\ valid (str "https://other.test/a") = false
  /\ valid (str "https://test/a") = false
  /\ valid (str "https://notx.test/a") = false.
Proof. vm_compute. repeat split. Qed.

Example getOutputFilePath_mapping :
  let self := indexerFor "https://x.test/" in
  getOutputFilePath (L := PlainUrl.lib) self (str "https://x.test/")
  = Some (str "output/x.test/index.md")
  /\ getOutputFilePath (L := PlainUrl.lib) self (str "https://x.test/docs/api")
     = Some (str "output/x.test/docs/api.md").
Proof. vm_compute. auto. Qed.

Example demo_crawl_first_pending :
  exists w,
    demoCrawl demoWeb firstPending FS.fresh = Returned w
    /\ dispatched w
       = [str "https://x.test"; str "https://x.test/a"; str "https://x.test/b";
          str "https://x.test/c"]
    /\ failedPages (indexer w)
       = [mkFailedPage (str "https://x.test/c")
            (str "Request failed with status code 404")
            (str "https://x.test/a")]
    /\ files (disk w) !! str "output/x.test/llms-full.txt"
       = Some (text [str "# Home"; []; str "Welcome"; [];
                     str "# https://x.test/a"; []; str "Page A"; [];
                     str "# B"; []; str "Page B"])
    /\ successfulPages (indexer w) = 3.
Proof. eexists. vm_compute. repeat split. Qed.

(** After two waves of the same crawl the queue holds [/c] twice: it was
    found on [/a] and again on [/b] before it was visited.  The referrer is
    the page that settled first. *)
Example demo_queue_duplicates :
  exists w,
    crawlLoop (L := PlainUrl.lib) demoWeb firstPending 2
      (seeded (indexerFor "https://x.test/") FS.fresh) = OutOfFuel w
    /\ queue (indexer w) = [str "https://x.test/c"; str "https://x.test/c"]
    /\ referrerMap (indexer w) !! str "https://x.test/c"
       = Some (str "https://x.test/a").
Proof. eexists. vm_compute. repeat split. Qed.

Example demo_referrer_last_pending :
  exists w,
    demoCrawl demoWeb lastPending FS.fresh = Returned w
    /\ dispatched w
       = [str "https://x.test"; str "https://x.test/a"; str "https://x.test/b";
          str "https://x.test/c"]
    /\ failedPages (indexer w)
       = [mkFailedPage (str "https://x.test/c")
            (str "Request failed with status code 404")
            (str "https://x.test/b")].
Proof. eexists. vm_compute. repeat split. Qed.

Lemma no_url_dispatched_twice_witness :
  let self := indexerFor "https://x.test/" in
  let w := worldOf (demoCrawl demoWeb firstPending FS.fresh) in
  visited self = ∅
  /\ NoDup (dispatched w)
  /\ size (visited (indexer w)) = length (dispatched w).
Proof.
  intros self w. split; [reflexivity|].
  pose proof (no_url_dispatched_twice (L := PlainUrl.lib) demoWeb firstPending
                demoReport 10 self FS.fresh eq_refl) as [(Hnd & _ & Hsize) _].
  split; [exact Hnd | exact Hsize].
Defined.

(** C2, at the failing input.  The seed [https://x.test/] cannot be
    fetched and the working directory is fresh: the failure is recorded
    with the error's message and the referrer ["Initial URL"], nothing is
    added to the queue, but [start] throws on the final [writeFile] and no
    corpus file exists. *)
Theorem seed_failure_on_fresh_disk :
  exists w,
    demoCrawl deadWeb firstPending FS.fresh = Threw w
    /\ failedPages (indexer w)
       = [mkFailedPage (str "https://x.test")
            (str "getaddrinfo ENOTFOUND x.test") (str "Initial URL")]
    /\ queue (indexer w) = []
    /\ files (disk w) = ∅.
Proof.
  destruct (start_seed_failure_throws (L := PlainUrl.lib) deadWeb firstPending
              demoReport 9 (indexerFor "https://x.test/") FS.fresh
              (ErrorObject (str "getaddrinfo ENOTFOUND x.test")))
    as (w & Hrun & Hfailed & Hdisk); try reflexivity.
  { apply (bool_decide_eq_false_1 _). by vm_compute. }
  exists w. split; [exact Hrun|]. split; [exact Hfailed|].
  unfold demoCrawl in Hrun. vm_compute in Hrun.
  injection Hrun as <-. by vm_compute.
Qed.

(** The same crawl where [output/x.test] already exists: both files are
    written and [start] returns. *)
Example seed_failure_with_directory :
  let fs := mkFileSystem {[ str "."; str "output"; str "output/x.test" ]} ∅ in
  exists w,
    demoCrawl deadWeb firstPending fs = Returned w
    /\ files (disk w) !! str "output/x.test/llms-full.txt" = Some []
    /\ files (disk w) !! str "output/x.test/failed-urls.json"
       = Some (str "{ totalFailed: 1 }").
Proof. eexists. vm_compute. repeat split. Qed.

(** ** The lines of a text that have content *)

Lemma trimStart_app s t :
  JS.trimStart (s ++ t)
  = match JS.trimStart s with
    | [] => JS.trimStart t
    | kept => kept ++ t
    end.
Proof.
  induction s as [|c s IH]; [reflexivity|]. simpl.
  destruct (JS.isWhiteSpace c); [exact IH | reflexivity].
Qed.

Lemma trimEnd_app_keep s c t :
  JS.isWhiteSpace c = false ->
  JS.trimEnd (s ++ c :: t) = s ++ c :: JS.trimEnd t.
Proof.
  intros Hc. unfold JS.trimEnd. rewrite rev_app_distr. simpl.
  rewrite <- app_assoc. simpl. rewrite trimStart_app_keep by done.
  rewrite rev_app_distr. simpl. by rewrite rev_involutive, <- app_assoc.
Qed.

(** A string is all white space, or white space followed by a kept rest. *)
Lemma trimStart_cases s :
  (JS.trimStart s = [] /\ JS.trimEnd s = [])
  \/ exists w c r,
       s = w ++ c :: r /\ JS.isWhiteSpace c = false
       /\ JS.trimStart s = c :: r
       /\ forall t, JS.trimStart (w ++ t) = JS.trimStart t.
Proof.
  induction s as [|d s IH].
  - by left.
  - destruct (JS.isWhiteSpace d) eqn:Hd.
    + destruct IH as [[Hs He]|(w & c & r & -> & Hc & Hs & Hw)].
      * left. simpl. rewrite Hd. split; [done|].
        unfold JS.trimEnd in *. simpl. rewrite trimStart_app.
        destruct (JS.trimStart (rev s)) as [|k ks].
        -- simpl. by rewrite Hd.
        -- apply (f_equal (@length N)) in He.
           rewrite length_rev in He. simpl in He. lia.
      * right. exists (d :: w), c, r. simpl. rewrite Hd.
        repeat split; try done.
    + right. exists [], d, s. simpl. by rewrite Hd.
Qed.

Lemma trim_commute s : JS.trimEnd (JS.trimStart s) = JS.trimStart (JS.trimEnd s).
Proof.
  destruct (trimStart_cases s) as [[Hs He]|(w & c & r & -> & Hc & Hs & Hw)].
  - by rewrite Hs, He.
  - rewrite Hs, trimEnd_cons_keep, trimEnd_app_keep by done.
    rewrite Hw. simpl. by rewrite Hc.
Qed.

Lemma trim_rev s : JS.trim (rev s) = rev (JS.trim s).
Proof.
  unfold JS.trim. rewrite (trim_commute s). reflexivity.
Qed.

Lemma trimStart_allWhiteSpace w t :
  allWhiteSpace w -> JS.trimStart (w ++ t) = JS.trimStart t.
Proof. induction 1 as [|c w Hc _ IH]; simpl; [done|]. by rewrite Hc. Qed.

Lemma trimEnd_allWhiteSpace w t :
  allWhiteSpace w -> JS.trimEnd (t ++ w) = JS.trimEnd t.
Proof.
  intros Hw. unfold JS.trimEnd. rewrite rev_app_distr.
  rewrite trimStart_allWhiteSpace; [done|].
  apply Forall_forall. intros c Hc. unfold allWhiteSpace in Hw.
  rewrite Forall_forall in Hw. apply Hw.
  by apply (proj1 (elem_of_List_rev _ _)).
Qed.

Lemma trim_allWhiteSpace_l w t : allWhiteSpace w -> JS.trim (w ++ t) = JS.trim t.
Proof. intros Hw. unfold JS.trim. by rewrite trimStart_allWhiteSpace. Qed.

Lemma trim_allWhiteSpace_r w t : allWhiteSpace w -> JS.trim (t ++ w) = JS.trim t.
Proof.
  intros Hw. unfold JS.trim. rewrite !trim_commute.
  by rewrite trimEnd_allWhiteSpace.
Qed.

Lemma trim_allWhiteSpace w : allWhiteSpace w -> JS.trim w = [].
Proof.
  intros Hw. pose proof (trim_allWhiteSpace_l w [] Hw) as Ht.
  by rewrite app_nil_r in Ht.
Qed.

Lemma trimStart_decompose s :
  exists w, s = w ++ JS.trimStart s /\ allWhiteSpace w.
Proof.
  induction s as [|c s (w & Hs & Hw)].
  { exists []. split; [done | constructor]. }
  simpl. destruct (JS.isWhiteSpace c) eqn:Hc.
  - exists (c :: w). split; [simpl; by rewrite <- Hs | by constructor].
  - exists []. split; [done | constructor].
Qed.

Lemma trim_decompose s :
  exists w w', s = w ++ JS.trim s ++ w' /\ allWhiteSpace w /\ allWhiteSpace w'.
Proof.
  destruct (trimStart_decompose s) as (w & Hs & Hw).
  destruct (trimStart_decompose (rev (JS.trimStart s))) as (v & Hr & Hv).
  exists w, (rev v). split; [|split; [done|]].
  - rewrite Hs at 1. f_equal. unfold JS.trim, JS.trimEnd.
    apply (f_equal (@rev N)) in Hr.
    by rewrite rev_involutive, rev_app_distr in Hr.
  - apply Forall_forall. intros c Hc. unfold allWhiteSpace in Hv.
    rewrite Forall_forall in Hv. apply Hv.
    by apply (proj1 (elem_of_List_rev _ _)).
Qed.

(** The pieces of a concatenation. *)
Lemma split_app sep a b pieces piece first rest :
  JS.split sep a = pieces ++ [piece] -> JS.split sep b = first :: rest ->
  JS.split sep (a ++ b) = pieces ++ [piece ++ first] ++ rest.
Proof.
  intros Ha Hb. revert pieces piece Ha.
  induction a as [|c a IH]; intros pieces piece Ha.
  - simpl in Ha. destruct pieces as [|x [|y pieces]]; simplify_eq/=. done.
  - cbn [JS.split app] in Ha |- *.
    destruct (split_cons_inv sep a) as [p [ps Ea]].
    destruct (c =? sep)%N.
    + destruct pieces as [|x pieces].
      { rewrite Ea in Ha. simplify_eq/=. }
      simpl in Ha. injection Ha as <- Ha.
      by rewrite (IH pieces piece Ha).
    + rewrite Ea in Ha. destruct pieces as [|x pieces].
      * simpl in Ha. injection Ha as <- ->.
        by rewrite (IH [] p Ea).
      * simpl in Ha. injection Ha as <- ->.
        by rewrite (IH (p :: pieces) piece Ea).
Qed.

Lemma split_snoc_inv sep s : exists pieces piece, JS.split sep s = pieces ++ [piece].
Proof.
  destruct (split_cons_inv sep s) as [p [ps E]]. rewrite E.
  destruct (exists_last (l := p :: ps)) as (pieces & piece & ->); [done|].
  eauto.
Qed.

Lemma split_sub sep s piece c : piece ∈ JS.split sep s -> c ∈ piece -> c ∈ s.
Proof.
  revert piece. induction s as [|d s IH]; intros piece; simpl.
  - intros ->%list_elem_of_singleton. by intros ?%elem_of_nil.
  - destruct (d =? sep)%N.
    + intros [->|Hp]%elem_of_cons Hc; [by apply elem_of_nil in Hc|].
      right. by eapply IH.
    + destruct (JS.split sep s) as [|p ps] eqn:E.
      * intros ->%list_elem_of_singleton [->|Hc%elem_of_nil]%elem_of_cons;
          [by left | done].
      * intros [->|Hp]%elem_of_cons Hc.
        -- apply elem_of_cons in Hc as [->|Hc]; [by left|].
           right. apply (IH p); [by left | done].
        -- right. apply (IH piece); [by right | done].
Qed.

Lemma split_allWhiteSpace sep w :
  allWhiteSpace w -> Forall allWhiteSpace (JS.split sep w).
Proof.
  intros Hw. apply Forall_forall. intros piece Hp.
  apply Forall_forall. intros c Hc. unfold allWhiteSpace in Hw.
  rewrite Forall_forall in Hw. apply Hw. by eapply split_sub.
Qed.

Lemma filter_trim_allWhiteSpace pieces :
  Forall allWhiteSpace pieces ->
  List.filter JS.truthy (map JS.trim pieces) = [].
Proof.
  induction 1 as [|p pieces Hp _ IH]; [done|]. simpl.
  by rewrite trim_allWhiteSpace.
Qed.

Lemma contentLines_allWhiteSpace_l w t :
  allWhiteSpace w -> contentLines (w ++ t) = contentLines t.
Proof.
  intros Hw. unfold contentLines, linesOf.
  destruct (split_snoc_inv LF w) as (pieces & piece & Ew).
  destruct (split_cons_inv LF t) as (first & rest & Et).
  rewrite (split_app _ _ _ _ _ _ _ Ew Et), Et.
  pose proof (split_allWhiteSpace LF w Hw) as Hall. rewrite Ew in Hall.
  apply Forall_app in Hall as [Hpieces Hpiece]. inversion Hpiece; subst.
  rewrite !map_app, !List.filter_app. simpl map.
  rewrite (filter_trim_allWhiteSpace pieces Hpieces).
  rewrite (trim_allWhiteSpace_l piece first) by done.
  simpl. by destruct (JS.truthy (JS.trim first)).
Qed.

Lemma contentLines_allWhiteSpace_r w t :
  allWhiteSpace w -> contentLines (t ++ w) = contentLines t.
Proof.
  intros Hw. unfold contentLines, linesOf.
  destruct (split_snoc_inv LF t) as (pieces & piece & Et).
  destruct (split_cons_inv LF w) as (first & rest & Ew).
  rewrite (split_app _ _ _ _ _ _ _ Et Ew), Et.
  pose proof (split_allWhiteSpace LF w Hw) as Hall. rewrite Ew in Hall.
  inversion Hall; subst.
  rewrite !map_app, !List.filter_app. simpl map.
  rewrite (trim_allWhiteSpace_r first piece) by done.
  rewrite (filter_trim_allWhiteSpace rest) by done.
  by rewrite app_nil_r.
Qed.

Lemma contentLines_trim x : contentLines (JS.trim x) = contentLines x.
Proof.
  destruct (trim_decompose x) as (w & w' & Hx & Hw & Hw').
  rewrite Hx at 2. rewrite contentLines_allWhiteSpace_l by done.
  by rewrite contentLines_allWhiteSpace_r.
Qed.

Lemma sieve_cons prev x rest :
  sieve prev (x :: rest)
  = if JS.truthy x then x :: sieve x rest
    else match rest with
         | next :: _ =>
             if plain prev && plain next then x :: sieve x rest
             else sieve x rest
         | [] => []
         end.
Proof. reflexivity. Qed.

Lemma filter_sieve_truthy prev lines :
  List.filter JS.truthy (sieve prev lines) = List.filter JS.truthy lines.
Proof.
  revert prev. induction lines as [|x rest IH]; intros prev; [done|].
  rewrite sieve_cons. cbn [List.filter]. destruct (JS.truthy x) eqn:Hx.
  - cbn [List.filter]. by rewrite Hx, IH.
  - destruct rest as [|next rest']; [done|].
    destruct (plain prev && plain next).
    + cbn [List.filter]. rewrite Hx. apply IH.
    + apply IH.
Qed.

Lemma cleanContent_content x :
  List.filter JS.truthy (linesOf (cleanContent x)) = contentLines x.
Proof.
  rewrite <- (contentLines_trim x), linesOf_cleanContent.
  assert (Hc : List.filter JS.truthy (cleaned x) = contentLines (JS.trim x)).
  { unfold cleaned. rewrite cleanLines_sieve. apply filter_sieve_truthy. }
  rewrite <- Hc. by destruct (cleaned x).
Qed.

Lemma blank_allWhiteSpace s : blank s -> allWhiteSpace s.
Proof.
  unfold blank. intros Hb.
  destruct (trim_decompose s) as (w & w' & Hs & Hw & Hw').
  rewrite Hb in Hs. rewrite Hs. by apply Forall_app.
Qed.

Lemma join_allWhiteSpace lines :
  Forall allWhiteSpace lines -> allWhiteSpace (JS.join [LF] lines).
Proof.
  induction 1 as [|x rest Hx Hrest IH]; [constructor|].
  destruct rest as [|y rest]; [done|]. rewrite join_cons_cons.
  apply Forall_app. split; [done|]. by constructor.
Qed.

Lemma contentLines_nil x : contentLines x = [] -> blank x.
Proof.
  unfold contentLines. intros Hc. apply trim_allWhiteSpace.
  rewrite <- (join_split LF x). apply join_allWhiteSpace. fold (linesOf x).
  apply Forall_forall. intros line Hline. apply blank_allWhiteSpace.
  unfold blank. destruct (JS.trim line) as [|c t] eqn:E; [done|]. exfalso.
  assert (Hin : JS.trim line ∈ List.filter JS.truthy (map JS.trim (linesOf x))).
  { apply list_elem_of_In, filter_In. split.
    - apply list_elem_of_In, list_elem_of_fmap. eauto.
    - by rewrite E. }
  rewrite Hc in Hin. by apply elem_of_nil in Hin.
Qed.

(** ** The blank lines between the sections of a rebuilt corpus *)

Lemma join_app sep (xs ys : list jsstring) :
  xs <> [] -> ys <> [] ->
  JS.join sep (xs ++ ys) = JS.join sep xs ++ sep ++ JS.join sep ys.
Proof.
  intros Hx Hy. induction xs as [|x xs IH]; [done|].
  destruct xs as [|x' xs].
  - destruct ys as [|y ys]; [done|]. reflexivity.
  - change (JS.join sep (x :: x' :: (xs ++ ys))
            = JS.join sep (x :: x' :: xs) ++ sep ++ JS.join sep ys).
    rewrite !join_cons_cons.
    change (x' :: (xs ++ ys)) with ((x' :: xs) ++ ys).
    rewrite IH by done. by rewrite <- !app_assoc.
Qed.

Lemma separated_cons group rest :
  group <> [] -> separated (group :: rest) <> [].
Proof.
  intros Hg. destruct rest as [|g rest]; [done|].
  cbn [separated]. by destruct group.
Qed.

Lemma text_separated groups :
  Forall (fun group => group <> []) groups ->
  text (separated groups) = JS.join [LF; LF] (map text groups).
Proof.
  induction 1 as [|g groups Hg Hgroups IH]; [done|].
  destruct groups as [|g' groups]; [done|].
  change (separated (g :: g' :: groups))
    with (g ++ [] :: separated (g' :: groups)).
  unfold text in *. rewrite join_app by done.
  inversion Hgroups as [|? ? Hg' _]; subst.
  pose proof (separated_cons g' groups Hg') as Hne.
  destruct (separated (g' :: groups)) as [|y ys] eqn:E; [done|].
  rewrite join_cons_cons, IH. cbn [map]. rewrite join_cons_cons.
  reflexivity.
Qed.

Lemma nonblank_cleanContent x : ~ blank x -> cleanContent x <> [].
Proof.
  intros Hb Hc. apply Hb, contentLines_nil.
  rewrite <- cleanContent_content, Hc. reflexivity.
Qed.

Lemma specSectionLines_text file :
  cleanContent (snd file) <> [] ->
  text (specSectionLines file) = specSection file.
Proof.
  intros Hc. unfold specSectionLines, specSection, text, linesOf.
  rewrite decide_False by done.
  destruct (split_cons_inv LF (cleanContent (snd file))) as (p & ps & E).
  pose proof (join_split LF (cleanContent (snd file))) as Hj.
  rewrite E in Hj |- *. by rewrite join_cons_cons, Hj.
Qed.

Lemma specHeading_not_blank file : ~ blank (specHeading file).
Proof.
  unfold blank, specHeading, JS.trim.
  change (str "# " ++ specTitle (fst file))
    with (35%N :: 32%N :: specTitle (fst file)).
  change (JS.trimStart (35%N :: 32%N :: specTitle (fst file)))
    with (35%N :: 32%N :: specTitle (fst file)).
  by rewrite trimEnd_cons_keep.
Qed.

Lemma cleanContent_last_line x :
  cleanContent x <> [] ->
  exists final,
    last (linesOf (cleanContent x)) = Some final /\ ~ blank final.
Proof.
  intros Hc. rewrite linesOf_cleanContent.
  destruct (cleaned x) as [|y rest] eqn:E.
  { exfalso. apply Hc. unfold cleanContent. fold (cleaned x). by rewrite E. }
  rewrite <- E. destruct (last (cleaned x)) as [final|] eqn:Hl.
  2:{ apply last_None in Hl. congruence. }
  exists final. split; [done|]. intros Hb.
  pose proof (cleaned_tidy x) as Ht. rewrite Forall_forall in Ht.
  apply tidy_blank in Hb; [|by eapply Ht, last_Some_elem_of].
  by apply (spaced_last _ _ _ (cleaned_spaced x) Hl).
Qed.

Lemma specSectionLines_solid file : solid (specSectionLines file).
Proof.
  unfold solid, specSectionLines.
  pose proof (specHeading_not_blank file) as Hh.
  destruct (decide (cleanContent (snd file) = [])) as [Hc|Hc].
  - exists (specHeading file), (specHeading file). by repeat split.
  - destruct (cleanContent_last_line _ Hc) as (final & Hl & Hf).
    exists (specHeading file), final. repeat split; try done.
    destruct (linesOf (cleanContent (snd file))); [done|].
    exact Hl.
Qed.

(** C9, as amended.  For an output directory whose entries have ordinary
    names and whose [.md] files all hold something other than white space,
    the rebuilt corpus is made of one section per [.md] file, in
    enumeration order; a section is the heading [# title] followed by the
    lines of the cleaned content of the file, the title being the path
    relative to the domain root without its [.md] suffix and with [" - "]
    for every separator; no blank line precedes the first section, and
    exactly one blank line stands between two sections: one empty line
    separates them, and every section begins and ends with a line that is
    not blank. *)
Theorem generate_corpus (domain : jsstring) (entries : list Dirent) :
  plainName domain = true -> forallb plainEntry entries = true ->
  (forall file,
     file ∈ concat (map (markdownFiles []) entries) -> ~ blank (snd file)) ->
  generateLlmsFromExisting domain entries
  = (str "output/" ++ domain ++ str "/llms-full.txt", specCorpus entries)
  /\ Forall (fun file => solid (specSectionLines file))
       (concat (map (markdownFiles []) entries)).
Proof.
  intros Hd Hp Hfiles. split.
  - rewrite generate_joined by done. f_equal.
    unfold specCorpus, joinedSections.
    rewrite text_separated.
    + rewrite map_map. f_equal. apply map_ext_in. intros file Hin.
      symmetry. apply specSectionLines_text, nonblank_cleanContent, Hfiles.
      by apply list_elem_of_In.
    + apply Forall_forall. intros group Hg.
      apply list_elem_of_fmap in Hg as (file & -> & _). done.
  - apply Forall_forall. intros file _. apply specSectionLines_solid.
Qed.

Lemma generate_corpus_witness :
  let entries :=
    [FileEntry (str "a.md") (str " Alpha ");
     DirEntry (str "b") [FileEntry (str "c.md") (str "Gamma")];
     FileEntry (str "llms-full.txt") (str "old")] in
  plainName (str "x.test") = true /\ forallb plainEntry entries = true
  /\ (forall file,
        file ∈ concat (map (markdownFiles []) entries) -> ~ blank (snd file))
  /\ generateLlmsFromExisting (str "x.test") entries
     = (str "output/x.test/llms-full.txt",
        text [str "# a"; str "Alpha"; []; str "# b - c"; str "Gamma"])
  /\ Forall (fun file => solid (specSectionLines file))
       (concat (map (markdownFiles []) entries)).
Proof.
  intros entries.
  assert (Hfiles : forall file,
            file ∈ concat (map (markdownFiles []) entries) ->
            ~ blank (snd file)).
  { intros file Hin.
    assert (Hl : concat (map (markdownFiles []) entries)
                 = [([str "a.md"], str " Alpha ");
                    ([str "b"; str "c.md"], str "Gamma")])
      by (vm_compute; reflexivity).
    rewrite Hl in Hin. unfold blank.
    apply elem_of_cons in Hin as [->|Hin]; [vm_compute; congruence|].
    apply list_elem_of_singleton in Hin as ->. vm_compute. congruence. }
  split; [reflexivity|]. split; [reflexivity|]. split; [exact Hfiles|].
  exact (generate_corpus (str "x.test") entries eq_refl eq_refl Hfiles).
Defined.

(** C9 as stated fails for a file that holds only white space: its section
    is the heading followed by an empty line, so that two blank lines, not
    one, stand between it and the next section. *)
Lemma generate_corpus_blank_file :
  let entries :=
    [FileEntry (str "a.md") (str " " ++ [LF] ++ str " ");
     DirEntry (str "b") [FileEntry (str "c.md") (str "Gamma")]] in
  plainName (str "x.test") = true /\ forallb plainEntry entries = true
  /\ linesOf (snd (generateLlmsFromExisting (str "x.test") entries))
     = [str "# a"; []; []; str "# b - c"; str "Gamma"]
  /\ linesOf (specCorpus entries)
     = [str "# a"; []; str "# b - c"; str "Gamma"].
Proof. vm_compute. repeat split; reflexivity. Qed.

(** * Part III: further properties of the code *)

(** ** The content cleaner keeps the content *)

(** X1. The cleaner loses no content: the non-blank lines of its output are
    the non-blank lines of the input, each trimmed, in the same order. *)
Theorem cleanContent_keeps_content (x : jsstring) :
  List.filter JS.truthy (linesOf (cleanContent x)) = contentLines x.
Proof. apply cleanContent_content. Qed.

(** X2. The output of the cleaner is trimmed as a whole, and so is every
    line of it: no line starts or ends with white space, and the text
    neither starts nor ends with a blank line. *)
Theorem cleanContent_trimmed (x : jsstring) :
  tidy (cleanContent x) /\ Forall tidy (linesOf (cleanContent x)).
Proof.
  split.
  - unfold tidy, cleanContent. fold (cleaned x).
    apply join_spaced_trim; [apply cleaned_spaced | apply cleaned_tidy].
  - rewrite linesOf_cleanContent. pose proof (cleaned_tidy x) as Ht.
    destruct (cleaned x); [|done]. by constructor.
Qed.

(** X3. The cleaner gives the empty text exactly for the inputs that hold
    nothing but white space. *)
Theorem cleanContent_empty_iff (x : jsstring) :
  cleanContent x = [] <-> blank x.
Proof.
  split.
  - intros Hx. apply contentLines_nil.
    rewrite <- cleanContent_content, Hx. reflexivity.
  - unfold blank, cleanContent. by intros ->.
Qed.

(** ** Fragments, root-relative links and the links of a page *)

Lemma stripFragment_app url frag :
  stripFragment (url ++ NUMBER_SIGN :: frag) = stripFragment url.
Proof.
  unfold stripFragment, JS.at_.
  induction url as [|c url IH]; cbn [JS.split app].
  - by rewrite N.eqb_refl.
  - destruct (c =? NUMBER_SIGN)%N; [done|].
    destruct (split_cons_inv NUMBER_SIGN url) as (p & ps & E).
    destruct (split_cons_inv NUMBER_SIGN (url ++ NUMBER_SIGN :: frag))
      as (p' & ps' & E').
    rewrite E, E' in *. simpl in *. by rewrite IH.
Qed.

Lemma startsWith_app s t prefix :
  JS.startsWith s prefix = true -> JS.startsWith (s ++ t) prefix = true.
Proof.
  revert s. induction prefix as [|p prefix IH]; intros s.
  { by destruct s, t. }
  destruct s as [|c s]; simpl; [done|].
  intros [-> Hs]%andb_prop. by rewrite (IH s Hs).
Qed.

Lemma includes_app s t sub :
  JS.includes s sub = true -> JS.includes (s ++ t) sub = true.
Proof.
  induction s as [|c s IH].
  - simpl. rewrite orb_false_r. intros Hs.
    destruct sub as [|p sub]; [|done]. by destruct t.
  - cbn [JS.includes app]. intros [Hs|Hs]%orb_prop.
    + pose proof (startsWith_app (c :: s) t sub Hs) as Hst.
      cbn [app] in Hst. by rewrite Hst.
    + rewrite (IH Hs). apply orb_true_r.
Qed.

Lemma navigable_fragment href frag :
  navigable (href ++ NUMBER_SIGN :: frag) = true -> navigable href = true.
Proof.
  unfold navigable. destruct href as [|c href].
  { assert (Hs : JS.startsWith ([] ++ NUMBER_SIGN :: frag) (str "#") = true)
      by (by destruct frag).
    rewrite Hs. by cbn [app JS.truthy negb andb]. }
  intros Hn. repeat (apply andb_prop in Hn as [Hn ?]).
  repeat (apply andb_true_intro; split); try done.
  - destruct (JS.startsWith (c :: href) (str "#")) eqn:E; [|done].
    by rewrite (startsWith_app _ (NUMBER_SIGN :: frag) _ E) in *.
  - destruct (JS.startsWith (c :: href) (str "mailto:")) eqn:E; [|done].
    by rewrite (startsWith_app _ (NUMBER_SIGN :: frag) _ E) in *.
  - destruct (JS.startsWith (c :: href) (str "tel:")) eqn:E; [|done].
    by rewrite (startsWith_app _ (NUMBER_SIGN :: frag) _ E) in *.
  - destruct (JS.includes (c :: href) (str "javascript:")) eqn:E; [|done].
    by rewrite (includes_app _ (NUMBER_SIGN :: frag) _ E) in *.
Qed.

Lemma uniqueFrom_dup seen l1 x l2 :
  x ∈ seen \/ x ∈ l1 ->
  JS.uniqueFrom seen (l1 ++ x :: l2) = JS.uniqueFrom seen (l1 ++ l2).
Proof.
  revert seen. induction l1 as [|y l1 IH]; intros seen Hx.
  - destruct Hx as [Hx|Hx%elem_of_nil]; [|done]. simpl.
    by destruct (decide (x ∈ seen)).
  - cbn [app JS.uniqueFrom]. destruct (decide (y ∈ seen)) as [Hy|Hy].
    + apply IH. destruct Hx as [Hx|[->|Hx]%elem_of_cons]; auto.
    + f_equal. apply IH.
      destruct Hx as [Hx|[->|Hx]%elem_of_cons];
        [left; by right | left; by left | by right].
Qed.

Section LinkProperties.
Context {L : UrlLib}.

Lemma normalizeUrl_fragment self href frag :
  normalizeUrl self (href ++ NUMBER_SIGN :: frag) = normalizeUrl self href.
Proof. unfold normalizeUrl. by rewrite stripFragment_app. Qed.

Lemma isValidUrl_fragment self href frag :
  isValidUrl self (href ++ NUMBER_SIGN :: frag) = isValidUrl self href.
Proof. unfold isValidUrl. by rewrite stripFragment_app. Qed.

(** X4. A fragment never changes what a link stands for: an href with
    [#...] appended normalizes to the same URL and is in scope exactly when
    the href without it is. *)
Theorem fragment_ignored (self : SiteIndexer) (href frag : jsstring) :
  normalizeUrl self (href ++ NUMBER_SIGN :: frag) = normalizeUrl self href
  /\ isValidUrl self (href ++ NUMBER_SIGN :: frag) = isValidUrl self href.
Proof. split; [apply normalizeUrl_fragment | apply isValidUrl_fragment]. Qed.

Lemma linkOf_fragment self href frag :
  linkOf self (Some (href ++ NUMBER_SIGN :: frag)) = None
  \/ linkOf self (Some (href ++ NUMBER_SIGN :: frag)) = linkOf self (Some href).
Proof.
  unfold linkOf. cbn [mbind option_bind].
  destruct (navigable (href ++ NUMBER_SIGN :: frag)) eqn:Hn; [|by left].
  right. rewrite (navigable_fragment _ _ Hn).
  by rewrite normalizeUrl_fragment.
Qed.

(** X5. An anchor that repeats the href of an earlier anchor of the page
    with a fragment added contributes nothing: the links of the page are
    the same with and without it. *)
Theorem extractLinks_fragment_duplicate (self : SiteIndexer)
    (before after : list (option jsstring)) (href frag : jsstring) :
  Some href ∈ before ->
  extractLinks self (before ++ Some (href ++ NUMBER_SIGN :: frag) :: after)
  = extractLinks self (before ++ after).
Proof.
  intros Hin. unfold extractLinks, JS.unique.
  rewrite !omap_app. cbn [omap list_omap].
  destruct (linkOf_fragment self href frag) as [->| ->]; [done|].
  destruct (linkOf self (Some href)) as [u|] eqn:Hu; [|done].
  apply uniqueFrom_dup. right. apply list_elem_of_omap. eauto.
Qed.

Lemma extractLinks_elem_of (self : SiteIndexer)
    (anchors : list (option jsstring)) (u : jsstring) :
  u ∈ extractLinks self anchors
  <-> exists href,
        Some href ∈ anchors /\ navigable href = true
        /\ normalizeUrl self href = u
        /\ isValidUrl self u = true /\ u ∉ visited self.
Proof.
  unfold extractLinks, JS.unique. rewrite uniqueFrom_elem, list_elem_of_omap.
  split.
  - intros [(anchor & Hin & Hl) _]. destruct anchor as [href|]; [|done].
    exists href. unfold linkOf in Hl. cbn [mbind option_bind] in Hl.
    destruct (navigable href); [|done].
    destruct (isValidUrl self (normalizeUrl self href)) eqn:Hv; [|done].
    simpl in Hl. case_bool_decide as Hvis; [done|]. simplify_eq/=.
    by repeat split.
  - intros (href & Hin & Hn & <- & Hv & Hvis). split; [|apply not_elem_of_nil].
    exists (Some href). split; [done|]. unfold linkOf. cbn [mbind option_bind].
    rewrite Hn, Hv. simpl. by rewrite bool_decide_eq_false_2.
Qed.

(** X6. A link is extracted from a page exactly when one of its anchors has
    an href that passes the guard, normalizes to it, is in scope and is not
    visited yet. *)
Theorem extractLinks_elem (self : SiteIndexer)
    (anchors : list (option jsstring)) (u : jsstring) :
  u ∈ extractLinks self anchors
  <-> exists href,
        Some href ∈ anchors /\ navigable href = true
        /\ normalizeUrl self href = u
        /\ isValidUrl self u = true /\ u ∉ visited self.
Proof. apply extractLinks_elem_of. Qed.

Lemma pathParts_slash rest :
  pathParts (SLASH :: rest) = pathParts rest.
Proof. unfold pathParts. cbn [JS.split]. by rewrite N.eqb_refl. Qed.

Lemma pathParts_cons_other c rest :
  c <> SLASH -> pathParts (c :: rest) <> [].
Proof.
  intros Hc. unfold pathParts. cbn [JS.split].
  rewrite (proj2 (N.eqb_neq c SLASH) Hc).
  by destruct (split_cons_inv SLASH rest) as (p & ps & ->).
Qed.

Lemma startsWith_cons_inv s c prefix :
  JS.startsWith s (c :: prefix) = true ->
  exists rest, s = c :: rest /\ JS.startsWith rest prefix = true.
Proof.
  destruct s as [|d s]; [done|]. simpl.
  intros [->%N.eqb_eq Hs]%andb_prop. eauto.
Qed.

(** X7. When the crawl starts at the root of a site, a root-relative href
    ([/...], not [//...]) is resolved by putting the origin in front of it,
    its fragment removed; no URL library is consulted. *)
Theorem normalizeUrl_root_relative (self : SiteIndexer) (href : jsstring) :
  basePath self = str "/" ->
  JS.startsWith href (str "/") = true ->
  JS.startsWith href (str "//") = false ->
  normalizeUrl self href = baseUrl self ++ stripFragment href.
Proof.
  intros Hbase Hs Hss.
  apply startsWith_cons_inv in Hs as (rest & -> & _).
  change (N_of_ascii "/"%char) with SLASH in *.
  assert (Hrest : match rest with c :: _ => c <> SLASH | [] => True end).
  { destruct rest as [|c rest]; [done|]. intros ->. by destruct rest. }
  assert (Hstrip : exists tail,
             stripFragment (SLASH :: rest) = SLASH :: tail
             /\ match tail with c :: _ => c <> SLASH | [] => True end).
  { unfold stripFragment, JS.at_. cbn [JS.split].
    change (SLASH =? NUMBER_SIGN)%N with false. cbv iota.
    destruct rest as [|c rest]; [by exists []|].
    cbn [JS.split]. destruct (c =? NUMBER_SIGN)%N; [by exists []|].
    destruct (split_cons_inv NUMBER_SIGN rest) as (p & ps & ->).
    by exists (c :: p). }
  destruct Hstrip as (tail & Hstrip & Htail).
  unfold normalizeUrl. rewrite Hstrip. unfold normalizeUrl_try.
  change (JS.startsWith (SLASH :: tail) (str "http://")) with false.
  change (JS.startsWith (SLASH :: tail) (str "https://")) with false.
  assert (Hs' : JS.startsWith (SLASH :: tail) (str "/") = true)
    by (by destruct tail).
  rewrite Hs'.
  assert (Hss' : JS.startsWith (SLASH :: tail) (str "//") = false).
  { destruct tail as [|c tail]; [done|].
    change (JS.startsWith (SLASH :: c :: tail) (str "//"))
      with ((c =? SLASH)%N && JS.startsWith tail []).
    by rewrite (proj2 (N.eqb_neq c SLASH) Htail). }
  rewrite Hss'. cbn [orb]. cbv iota.
  rewrite Hbase. change (pathParts (str "/")) with (@nil jsstring).
  rewrite pathParts_slash.
  destruct tail as [|c tail].
  - by vm_compute.
  - pose proof (pathParts_cons_other c tail Htail) as Hne.
    destruct (pathParts (c :: tail)) as [|part parts]; [done|].
    by rewrite decide_False.
Qed.

Lemma endsWith_app_suffix s suffix : JS.endsWith (s ++ suffix) suffix = true.
Proof.
  unfold JS.endsWith. rewrite rev_app_distr.
  generalize (rev suffix) (rev s). clear. intros p t.
  induction p as [|c p IH]; [by destruct t|]. simpl. by rewrite N.eqb_refl.
Qed.

Lemma SiteIndexer_new_fields (startUrl : jsstring) (self : SiteIndexer) :
  SiteIndexer_new startUrl false = Some self ->
  JS.endsWith (basePath self) (str "/") = true
  /\ visited self = ∅ /\ queue self = [] /\ successfulPages self = 0
  /\ failedPages self = [] /\ referrerMap self = ∅.
Proof.
  unfold SiteIndexer_new. intros Hnew.
  destruct (url_new startUrl) as [parsedUrl|]; [|done].
  simpl in Hnew. injection Hnew as <-. cbn [basePath visited queue
    successfulPages failedPages referrerMap]. split; [|done].
  destruct (JS.endsWith (url_pathname parsedUrl) (str "/")) eqn:E; [done|].
  apply endsWith_app_suffix.
Qed.

(** X8. The constructor gives a crawler object whose base path ends with a
    slash and whose crawl state is empty: nothing visited, queued, counted,
    failed or referred. *)
Theorem SiteIndexer_new_fresh (startUrl : jsstring) (self : SiteIndexer) :
  SiteIndexer_new startUrl false = Some self ->
  JS.endsWith (basePath self) (str "/") = true
  /\ visited self = ∅ /\ queue self = [] /\ successfulPages self = 0
  /\ failedPages self = [] /\ referrerMap self = ∅.
Proof. apply SiteIndexer_new_fields. Qed.

End LinkProperties.

Lemma extractLinks_fragment_duplicate_witness :
  let self := indexerFor "https://x.test/" in
  Some (str "/a") ∈ [Some (str "/a")]
  /\ extractLinks (L := PlainUrl.lib) self
       ([Some (str "/a")] ++ Some (str "/a" ++ NUMBER_SIGN :: str "top")
          :: [Some (str "/b")])
     = extractLinks (L := PlainUrl.lib) self
         ([Some (str "/a")] ++ [Some (str "/b")]).
Proof.
  intros self.
  assert (Hin : Some (str "/a") ∈ [Some (str "/a")]) by (apply elem_of_cons; by left).
  split; [exact Hin|].
  exact (extractLinks_fragment_duplicate (L := PlainUrl.lib) self
           [Some (str "/a")] [Some (str "/b")] (str "/a") (str "top") Hin).
Defined.

Lemma normalizeUrl_root_relative_witness :
  let self := indexerFor "https://x.test/" in
  basePath self = str "/"
  /\ JS.startsWith (str "/docs/a#top") (str "/") = true
  /\ JS.startsWith (str "/docs/a#top") (str "//") = false
  /\ normalizeUrl (L := PlainUrl.lib) self (str "/docs/a#top")
     = baseUrl self ++ stripFragment (str "/docs/a#top").
Proof.
  intros self.
  assert (H1 : basePath self = str "/") by reflexivity.
  assert (H2 : JS.startsWith (str "/docs/a#top") (str "/") = true)
    by reflexivity.
  assert (H3 : JS.startsWith (str "/docs/a#top") (str "//") = false)
    by reflexivity.
  split; [exact H1|]. split; [exact H2|]. split; [exact H3|].
  exact (normalizeUrl_root_relative (L := PlainUrl.lib) self
           (str "/docs/a#top") H1 H2 H3).
Defined.

Lemma SiteIndexer_new_fresh_witness :
  let self := indexerFor "https://x.test/docs/guide" in
  SiteIndexer_new (L := PlainUrl.lib) (str "https://x.test/docs/guide") false
  = Some self
  /\ JS.endsWith (basePath self) (str "/") = true
  /\ visited self = ∅ /\ queue self = [] /\ successfulPages self = 0
  /\ failedPages self = [] /\ referrerMap self = ∅.
Proof.
  intros self.
  assert (Hnew : SiteIndexer_new (L := PlainUrl.lib)
                   (str "https://x.test/docs/guide") false = Some self)
    by reflexivity.
  split; [exact Hnew|].
  exact (SiteIndexer_new_fresh (L := PlainUrl.lib)
           (str "https://x.test/docs/guide") self Hnew).
Defined.

(** ** What a crawl fetches *)

Lemma markBatch_rest batch self :
  basePath (markBatch batch self).1 = basePath self
  /\ successfulPages (markBatch batch self).1 = successfulPages self.
Proof.
  revert self. induction batch as [|url rest IH]; intros self; [done|].
  cbn [markBatch]. destruct (decide (url ∈ visited self)) as [Hin|Hout].
  - specialize (IH self). by destruct (markBatch rest self) as [self1 slots].
  - specialize (IH (set_visited ({[url]} ∪ visited self) self)).
    by destruct (markBatch rest _) as [self1 slots].
Qed.

Lemma markBatch_length batch self :
  length (markBatch batch self).2 = length batch.
Proof. apply markBatch_slots. Qed.

Lemma omap_id_length {A} (slots : list (option A)) :
  length (omap id slots) <= length slots.
Proof.
  induction slots as [|[x|] slots IH]; cbn in *; lia.
Qed.

Lemma batchOf_length w : length (batchOf w) <= 5.
Proof. unfold batchOf. rewrite length_take. lia. Qed.

Lemma tasksOf_length w : length (tasksOf w) <= 5.
Proof.
  unfold tasksOf, slotsOf. etrans; [apply omap_id_length|].
  rewrite markBatch_length. apply batchOf_length.
Qed.

Lemma queue_batch w :
  queue (indexer w) = batchOf w ++ queue (spliced w).
Proof. unfold batchOf, spliced. simpl. by rewrite take_drop. Qed.

Lemma tasksOf_elem w u :
  u ∈ tasksOf w <-> u ∈ batchOf w /\ u ∉ visited (indexer w).
Proof. unfold tasksOf, slotsOf. by rewrite markBatch_tasks. Qed.

Lemma marked_fields w :
  visited (indexer (marked w))
  = visited (indexer w) ∪ list_to_set (batchOf w)
  /\ queue (indexer (marked w)) = queue (spliced w)
  /\ sameBase (indexer w) (indexer (marked w))
  /\ successfulPages (indexer (marked w)) = successfulPages (indexer w)
  /\ failedPages (indexer (marked w)) = failedPages (indexer w)
  /\ referrerMap (indexer (marked w)) = referrerMap (indexer w).
Proof.
  unfold marked. cbn [indexer].
  pose proof (markBatch_visited (batchOf w) (spliced w)) as Hv.
  pose proof (markBatch_fields (batchOf w) (spliced w))
    as (Hq & Hu & Hd & Hf & Hr).
  pose proof (markBatch_rest (batchOf w) (spliced w)) as (Hp & Hs).
  rewrite Hv, Hq, Hf, Hr, Hs. unfold sameBase. rewrite Hu, Hd, Hp.
  by repeat split.
Qed.

Section Waves.
Context {L : UrlLib}.
Variable web : jsstring -> Response.
Variable pick : list jsstring -> nat.
Variable failedReport : list FailedPage -> jsstring.

Lemma wave_unfold w :
  wave web pick w
  = match settle web pick (length (tasksOf w)) (tasksOf w) (marked w) with
    | Rejected w' => Rejected w'
    | Resolved w' =>
        Resolved (collect (map (fun slot => slot ≫= pageDataOf web) (slotsOf w))
                    w')
    end.
Proof.
  unfold wave, marked, tasksOf, slotsOf, batchOf, spliced.
  by destruct (markBatch _ _) as [self slots].
Qed.

Lemma processPage_fields url self :
  visited (processPage web url self).1 = visited self
  /\ sameBase self (processPage web url self).1
  /\ successfulPages (processPage web url self).1 = successfulPages self
  /\ queue (processPage web url self).1
     = queue self ++ foundLinks web self url
  /\ referrerMap (processPage web url self).1
     = recordReferrers (foundLinks web self url) url (referrerMap self).
Proof.
  unfold processPage, foundLinks. destruct (web url) as [doc|error]; simpl.
  - by repeat split.
  - rewrite app_nil_r. by repeat split.
Qed.

(** A task changes the crawler object as [processPage] does, and apart from
    it only the disk. *)
Lemma task_shape url w :
  exists d,
    outcomeWorld (task web url w)
    = mkWorld (processPage web url (indexer w)).1 d (contentParts w)
        (dispatched w).
Proof.
  unfold task. destruct (processPage web url (indexer w)) as [self pd].
  destruct pd as [pd|]; [|by exists (disk w)].
  destruct (getOutputFilePath self (pd_url pd)); [|by exists (disk w)].
  destruct (FS.mkdir _ _) as [d1|]; [|by exists (disk w)].
  destruct (FS.writeFile _ _ _) as [d2|]; [by exists d2 | by exists d1].
Qed.

Lemma task_fields url w :
  visited (indexer (outcomeWorld (task web url w))) = visited (indexer w)
  /\ sameBase (indexer w) (indexer (outcomeWorld (task web url w)))
  /\ successfulPages (indexer (outcomeWorld (task web url w)))
     = successfulPages (indexer w)
  /\ queue (indexer (outcomeWorld (task web url w)))
     = queue (indexer w) ++ foundLinks web (indexer w) url
  /\ referrerMap (indexer (outcomeWorld (task web url w)))
     = recordReferrers (foundLinks web (indexer w) url) url
         (referrerMap (indexer w))
  /\ contentParts (outcomeWorld (task web url w)) = contentParts w
  /\ dispatched (outcomeWorld (task web url w)) = dispatched w.
Proof.
  destruct (task_shape url w) as [d ->]. cbn [indexer contentParts dispatched].
  pose proof (processPage_fields url (indexer w)) as (?&?&?&?&?).
  by split_and!.
Qed.

Lemma collect_shape results w :
  collect results w
  = mkWorld
      (set_successfulPages
         (successfulPages (indexer w) + length (omap id results)) (indexer w))
      (disk w) (contentParts w ++ omap sectionOf results) (dispatched w).
Proof.
  unfold collect. revert w.
  induction results as [|r results IH]; intros w.
  - destruct w as [[] ? ? ?]. simpl.
    unfold set_successfulPages. simpl. by rewrite Nat.add_0_r, app_nil_r.
  - cbn [fold_left]. rewrite IH. destruct r as [pd|]; [|done].
    cbn [indexer disk contentParts dispatched omap list_omap sectionOf id].
    unfold set_successfulPages. simpl. rewrite <- app_assoc. simpl.
    do 2 f_equal. f_equal. lia.
Qed.

Lemma collect_fields results w :
  visited (indexer (collect results w)) = visited (indexer w)
  /\ queue (indexer (collect results w)) = queue (indexer w)
  /\ sameBase (indexer w) (indexer (collect results w))
  /\ failedPages (indexer (collect results w)) = failedPages (indexer w)
  /\ referrerMap (indexer (collect results w)) = referrerMap (indexer w)
  /\ dispatched (collect results w) = dispatched w
  /\ disk (collect results w) = disk w.
Proof. rewrite collect_shape. by repeat split. Qed.

Lemma settle_dispatched n pending w :
  dispatched (outcomeWorld (settle web pick n pending w)) = dispatched w.
Proof. by destruct (settle_frontier web pick n pending w) as (_ & ? & _). Qed.

Lemma crawlLoop_Returned_queue fuel w w' :
  crawlLoop web pick fuel w = Returned w' -> queue (indexer w') = [].
Proof.
  revert w. induction fuel as [|fuel IH]; intros w; cbn [crawlLoop].
  - destruct (queue (indexer w)) eqn:Hq; [|done]. by intros [= <-].
  - destruct (queue (indexer w)) eqn:Hq; [by intros [= <-]|].
    destruct (wave web pick w) as [w1|w1]; [apply IH | done].
Qed.

(** *** Invariants that hold at every moment of a run *)

Section Anytime.
Variable A : World -> Prop.
Hypothesis A_marked : forall w, A w -> A (marked w).
Hypothesis A_task :
  forall url w, url ∈ dispatched w -> A w -> A (outcomeWorld (task web url w)).
Hypothesis A_collect : forall results w, A w -> A (collect results w).
Hypothesis A_disk : forall d w, A w -> A (set_disk d w).

Lemma settle_anytime n pending w :
  (forall u, u ∈ pending -> u ∈ dispatched w) -> A w ->
  A (outcomeWorld (settle web pick n pending w)).
Proof using A_task.
  revert pending w. induction n as [|n IH]; intros pending w Hp HA; [done|].
  cbn [settle]. destruct (pending !! _) as [url|] eqn:Hi; [|done].
  assert (Hurl : url ∈ dispatched w).
  { apply Hp. by eapply list_elem_of_lookup_2. }
  pose proof (A_task url w Hurl HA) as HA'.
  pose proof (task_fields url w) as (_&_&_&_&_&_&Hd).
  destruct (task web url w) as [w'|w']; cbn [outcomeWorld] in *; [|done].
  apply IH; [|done]. intros u Hu%list_elem_of_delete_inv.
  rewrite Hd. by apply Hp.
Qed.

Lemma wave_anytime w : A w -> A (outcomeWorld (wave web pick w)).
Proof using A_marked A_task A_collect.
  intros HA. rewrite wave_unfold.
  assert (Hp : forall u, u ∈ tasksOf w -> u ∈ dispatched (marked w)).
  { intros u Hu. simpl. apply elem_of_app. by right. }
  pose proof (settle_anytime (length (tasksOf w)) _ _ Hp (A_marked w HA)) as Hs.
  destruct (settle web pick _ _ _) as [w'|w']; cbn [outcomeWorld] in *;
    [by apply A_collect | done].
Qed.

Lemma crawlLoop_anytime fuel w :
  A w -> A (worldOf (crawlLoop web pick fuel w)).
Proof using A_marked A_task A_collect.
  revert w. induction fuel as [|fuel IH]; intros w HA; cbn [crawlLoop].
  - by destruct (queue (indexer w)).
  - destruct (queue (indexer w)); [done|].
    pose proof (wave_anytime w HA) as HA'.
    destruct (wave web pick w) as [w1|w1]; cbn [outcomeWorld worldOf] in *;
      [by apply IH | done].
Qed.

Lemma start_anytime fuel self fs :
  A (seeded self fs) -> A (worldOf (start web pick failedReport fuel self fs)).
Proof using A_marked A_task A_collect A_disk.
  intros HA. unfold start.
  pose proof (crawlLoop_anytime fuel _ HA) as HA'.
  destruct (crawlLoop web pick fuel (seeded self fs)) as [w|w|w];
    cbn [worldOf] in *; try done.
  unfold writeReports. destruct (FS.writeFile _ _ _); [|done].
  destruct (0 <? _); [|by apply A_disk].
  destruct (FS.writeFile _ _ _); by apply A_disk.
Qed.

End Anytime.

(** *** Invariants that hold between two waves *)

Section Boundary.
Variable B : World -> list jsstring -> Prop.
Hypothesis B_marked : forall w, B w [] -> B (marked w) (tasksOf w).
Hypothesis B_task :
  forall url i pending w,
    pending !! i = Some url -> B w pending ->
    B (outcomeWorld (task web url w)) (delete i pending).
Hypothesis B_collect : forall results w, B w [] -> B (collect results w) [].

Lemma settle_boundary n pending w w' :
  length pending <= n -> settle web pick n pending w = Resolved w' ->
  B w pending -> B w' [].
Proof using B_task.
  revert pending w. induction n as [|n IH]; intros pending w Hlen Hs HB.
  - destruct pending; [|simpl in Hlen; lia]. cbn [settle] in Hs. by simplify_eq.
  - cbn [settle] in Hs.
    destruct (pending !! _) as [url|] eqn:Hi.
    2:{ simplify_eq. apply lookup_ge_None in Hi.
        destruct pending as [|p pending]; [done|].
        exfalso. pose proof (Nat.mod_upper_bound (pick (p :: pending))
                               (length (p :: pending))) as Hb.
        simpl in Hb, Hi. lia. }
    pose proof (B_task _ _ _ _ Hi HB) as HB'.
    destruct (task web url w) as [w1|w1]; [|done]. cbn [outcomeWorld] in *.
    apply (IH (delete (pick pending `mod` length pending) pending) w1);
      [rewrite length_delete by eauto; lia | done | done].
Qed.

Lemma wave_boundary w w' :
  wave web pick w = Resolved w' -> B w [] -> B w' [].
Proof using B_marked B_task B_collect.
  rewrite wave_unfold. intros Hw HB.
  destruct (settle web pick _ _ _) as [w1|w1] eqn:Hs; [|done].
  injection Hw as <-. apply B_collect.
  by apply (settle_boundary _ _ _ _ (le_n _) Hs), B_marked.
Qed.

Lemma crawlLoop_boundary fuel w w' :
  crawlLoop web pick fuel w = Returned w' -> B w [] -> B w' [].
Proof using B_marked B_task B_collect.
  revert w. induction fuel as [|fuel IH]; intros w; cbn [crawlLoop].
  - destruct (queue (indexer w)); [|done]. by intros [= <-].
  - destruct (queue (indexer w)); [by intros [= <-]|].
    destruct (wave web pick w) as [w1|w1] eqn:Hw; [|done].
    intros Hr HB. apply (IH w1 Hr). by apply (wave_boundary w).
Qed.

End Boundary.

End Waves.

(** ** The pages a crawl fetches are the pages reachable from the seed *)

Lemma sameBase_refl self : sameBase self self.
Proof. by repeat split. Qed.

Lemma sameBase_trans a b c : sameBase a b -> sameBase b c -> sameBase a c.
Proof. intros (?&?&?) (?&?&?). repeat split; congruence. Qed.

Lemma take_min_length {A} n (l : list A) :
  take (Nat.min n (length l)) l = take n l.
Proof.
  destruct (le_ge_dec n (length l)) as [Hle|Hge].
  - by rewrite Nat.min_l.
  - rewrite Nat.min_r by lia. by rewrite !take_ge by lia.
Qed.

Lemma drop_min_length {A} n (l : list A) :
  drop (Nat.min n (length l)) l = drop n l.
Proof.
  destruct (le_ge_dec n (length l)) as [Hle|Hge].
  - by rewrite Nat.min_l.
  - rewrite Nat.min_r by lia. by rewrite !drop_ge by lia.
Qed.

Lemma marked_keeps w u :
  u ∈ visited (indexer w) \/ u ∈ queue (indexer w) ->
  u ∈ visited (indexer (marked w)) \/ u ∈ queue (indexer (marked w)).
Proof.
  pose proof (marked_fields w) as (Hv' & Hq' & _).
  rewrite Hv', Hq', (queue_batch w), elem_of_app, elem_of_union,
    elem_of_list_to_set. tauto.
Qed.

Section Reach.
Context {L : UrlLib}.
Variable web : jsstring -> Response.

Lemma normalizeUrl_sameBase self self' url :
  sameBase self self' -> normalizeUrl self' url = normalizeUrl self url.
Proof.
  intros (Hu & Hd & Hp). unfold normalizeUrl, normalizeUrl_try.
  by rewrite Hu, Hd, Hp.
Qed.

Lemma isValidUrl_sameBase self self' url :
  sameBase self self' -> isValidUrl self' url = isValidUrl self url.
Proof. intros (Hu & Hd & Hp). unfold isValidUrl. by rewrite Hd. Qed.

Lemma foundLinks_linksTo self0 self url u :
  sameBase self0 self -> u ∈ foundLinks web self url ->
  linksTo web self0 url u /\ u ∉ visited self.
Proof.
  intros Hb. unfold foundLinks, linksTo.
  destruct (web url) as [doc|error]; [|by intros ?%elem_of_nil].
  intros (href & Hin & Hn & Hu & Hv & Hvis)%extractLinks_elem_of.
  split; [|done]. exists doc, href.
  rewrite <- (normalizeUrl_sameBase self0 self) by done.
  rewrite <- (isValidUrl_sameBase self0 self) by done. by split_and!.
Qed.

Lemma linksTo_foundLinks self0 self url u :
  sameBase self0 self -> linksTo web self0 url u -> u ∉ visited self ->
  u ∈ foundLinks web self url.
Proof.
  intros Hb (doc & href & Hweb & Hin & Hn & Hu & Hv) Hvis.
  unfold foundLinks. rewrite Hweb. apply extractLinks_elem_of.
  exists href. rewrite (normalizeUrl_sameBase self0 self) by done.
  rewrite (isValidUrl_sameBase self0 self) by done. by split_and!.
Qed.

Lemma linksTo_valid self r u :
  linksTo web self r u -> isValidUrl self u = true.
Proof. by intros (doc & href & _ & _ & _ & _ & Hv). Qed.

Lemma reachable_inScope self u :
  reachable web self u -> u = baseUrl self \/ isValidUrl self u = true.
Proof.
  destruct 1 as [|r u _ Hl]; [by left|]. right. by eapply linksTo_valid.
Qed.

(** *** Soundness *)

Lemma soundInv_marked self w :
  soundInv web self w -> soundInv web self (marked w).
Proof.
  intros (Hb & Hq & Hd).
  pose proof (marked_fields w) as (_ & Hq' & Hb' & _).
  split_and!.
  - by eapply sameBase_trans.
  - intros u Hu. rewrite Hq' in Hu. apply Hq. rewrite (queue_batch w).
    apply elem_of_app. by right.
  - intros u Hu. simpl in Hu. apply elem_of_app in Hu as [Hu|Hu]; [auto|].
    apply tasksOf_elem in Hu as [Hu _]. apply Hq. rewrite (queue_batch w).
    apply elem_of_app. by left.
Qed.

Lemma soundInv_task self url w :
  url ∈ dispatched w -> soundInv web self w ->
  soundInv web self (outcomeWorld (task web url w)).
Proof.
  intros Hurl (Hb & Hq & Hd).
  pose proof (task_fields web url w) as (_ & Hb' & _ & Hq' & _ & _ & Hd').
  split_and!.
  - by eapply sameBase_trans.
  - intros u. rewrite Hq', elem_of_app. intros [Hu|Hu]; [auto|].
    eapply reachable_link; [by apply Hd|].
    by eapply foundLinks_linksTo.
  - intros u. rewrite Hd'. auto.
Qed.

Lemma soundInv_collect self results w :
  soundInv web self w -> soundInv web self (collect results w).
Proof.
  intros (Hb & Hq & Hd).
  pose proof (collect_fields results w) as (_ & Hq' & Hb' & _ & _ & Hd' & _).
  split_and!.
  - by eapply sameBase_trans.
  - intros u. rewrite Hq'. auto.
  - intros u. rewrite Hd'. auto.
Qed.

Lemma soundInv_seeded self fs :
  queue self = [] -> soundInv web self (seeded self fs).
Proof.
  intros Hq. split_and!.
  - by repeat split.
  - intros u. simpl. rewrite Hq. intros ->%list_elem_of_singleton.
    constructor.
  - by intros u ?%elem_of_nil.
Qed.

(** *** Completeness *)

Lemma exhaustInv_marked self w :
  exhaustInv web self w [] -> exhaustInv web self (marked w) (tasksOf w).
Proof.
  intros (Hb & Hseed & Hlinks).
  pose proof (marked_fields w) as (_ & _ & Hb' & _).
  split_and!.
  - by eapply sameBase_trans.
  - by apply marked_keeps.
  - intros r u Hr Hnot Hl. apply marked_keeps. simpl in Hr.
    apply elem_of_app in Hr as [Hr|Hr]; [|done].
    apply (Hlinks r u Hr); [apply not_elem_of_nil | done].
Qed.

Lemma exhaustInv_task self url i pending w :
  pending !! i = Some url -> exhaustInv web self w pending ->
  exhaustInv web self (outcomeWorld (task web url w)) (delete i pending).
Proof.
  intros Hi (Hb & Hseed & Hlinks).
  pose proof (task_fields web url w) as (Hv' & Hb' & _ & Hq' & _ & _ & Hd').
  pose proof (delete_Permutation _ _ _ Hi) as Hperm.
  split_and!.
  - by eapply sameBase_trans.
  - rewrite Hv', Hq', elem_of_app. tauto.
  - intros r u Hr Hnot Hl. rewrite Hv', Hq', elem_of_app. rewrite Hd' in Hr.
    destruct (decide (u ∈ visited (indexer w))) as [Hvis|Hvis]; [by left|].
    right. destruct (decide (r = url)) as [->|Hne].
    + right. by eapply linksTo_foundLinks.
    + left. destruct (Hlinks r u Hr) as [?|?]; [|done|done|done].
      rewrite Hperm. apply not_elem_of_cons. by split.
Qed.

Lemma exhaustInv_collect self results w :
  exhaustInv web self w [] -> exhaustInv web self (collect results w) [].
Proof.
  intros (Hb & Hseed & Hlinks).
  pose proof (collect_fields results w)
    as (Hv' & Hq' & Hb' & _ & _ & Hd' & _).
  split_and!.
  - by eapply sameBase_trans.
  - by rewrite Hv', Hq'.
  - intros r u. rewrite Hv', Hq', Hd'. apply Hlinks.
Qed.

Lemma exhaustInv_seeded self fs : exhaustInv web self (seeded self fs) [].
Proof.
  split_and!.
  - by repeat split.
  - right. simpl. apply elem_of_app. right. by apply list_elem_of_singleton.
  - by intros r u ?%elem_of_nil.
Qed.

(** *** Referrers *)

Lemma referrersSound_marked self w :
  referrersSound web self w -> referrersSound web self (marked w).
Proof.
  intros (Hb & Hq & Hr).
  pose proof (marked_fields w) as (_ & Hq' & Hb' & _ & _ & Hr').
  split_and!.
  - by eapply sameBase_trans.
  - intros u Hu. rewrite Hr'. apply Hq. rewrite Hq' in Hu. simpl in Hu.
    rewrite (queue_batch w), !elem_of_app. rewrite elem_of_app in Hu.
    destruct Hu as [?|[?|[? _]%tasksOf_elem]]; tauto.
  - intros u r. rewrite Hr'. intros Hu. destruct (Hr u r Hu) as [? ?].
    split; [|done]. simpl. apply elem_of_app. by left.
Qed.

Lemma referrersSound_task self url w :
  url ∈ dispatched w -> referrersSound web self w ->
  referrersSound web self (outcomeWorld (task web url w)).
Proof.
  intros Hurl (Hb & Hq & Hr).
  pose proof (task_fields web url w) as (_ & Hb' & _ & Hq' & Hr' & _ & Hd').
  split_and!.
  - by eapply sameBase_trans.
  - intros u. rewrite Hq', Hd', Hr', recordReferrers_lookup, elem_of_app.
    intros Hu.
    destruct (referrerMap (indexer w) !! u) as [r|] eqn:E; [right; eauto|].
    destruct (decide (u ∈ foundLinks web (indexer w) url)); [right; eauto|].
    destruct (Hq u) as [?|[? ?]]; [tauto | by left | congruence].
  - intros u r. rewrite Hr', Hd', recordReferrers_lookup.
    destruct (referrerMap (indexer w) !! u) as [r0|] eqn:E.
    + intros [= <-]. by apply Hr.
    + destruct (decide (u ∈ foundLinks web (indexer w) url)) as [Hin|];
        [|done].
      intros [= <-]. split; [done|]. by eapply foundLinks_linksTo.
Qed.

Lemma referrersSound_collect self results w :
  referrersSound web self w -> referrersSound web self (collect results w).
Proof.
  intros (Hb & Hq & Hr).
  pose proof (collect_fields results w)
    as (_ & Hq' & Hb' & _ & Hr' & Hd' & _).
  split_and!.
  - by eapply sameBase_trans.
  - intros u. rewrite Hq', Hd', Hr'. apply Hq.
  - intros u r. rewrite Hr', Hd'. apply Hr.
Qed.

Lemma referrersSound_seeded self fs :
  queue self = [] -> referrerMap self = ∅ ->
  referrersSound web self (seeded self fs).
Proof.
  intros Hq Hr. split_and!.
  - by repeat split.
  - intros u. simpl. rewrite Hq.
    intros [->%list_elem_of_singleton|?%elem_of_nil]; [by left | done].
  - intros u r. simpl. by rewrite Hr, lookup_empty.
Qed.

End Reach.

Section ReachRuns.
Context {L : UrlLib}.
Variable web : jsstring -> Response.
Variable pick : list jsstring -> nat.
Variable failedReport : list FailedPage -> jsstring.

Lemma start_sound fuel self fs :
  queue self = [] ->
  soundInv web self (worldOf (start web pick failedReport fuel self fs)).
Proof.
  intros Hq. apply (start_anytime web pick failedReport (soundInv web self)).
  - apply soundInv_marked.
  - apply soundInv_task.
  - apply soundInv_collect.
  - by intros d w.
  - by apply soundInv_seeded.
Qed.

(** X9. A crawl never leaves the site: whatever it has handed to the fetcher,
    at any point of a run, can be reached from the seed by following
    in-scope links of pages that load; in particular it is the seed or a URL
    the domain validator accepts. *)
Theorem crawl_fetches_reachable (fuel : nat) (self : SiteIndexer)
    (fs : FileSystem) (u : jsstring) :
  queue self = [] ->
  u ∈ dispatched (worldOf (start web pick failedReport fuel self fs)) ->
  reachable web self u
  /\ (u = baseUrl self \/ isValidUrl self u = true).
Proof.
  intros Hq Hu. destruct (start_sound fuel self fs Hq) as (_ & _ & Hd).
  split; [by apply Hd|]. apply (reachable_inScope web). by apply Hd.
Qed.

Lemma writeReports_Returned w w' :
  writeReports failedReport w = Returned w' -> exists d, w' = set_disk d w.
Proof.
  unfold writeReports. destruct (FS.writeFile _ _ _) as [d1|]; [|done].
  destruct (0 <? _).
  - destruct (FS.writeFile _ _ _) as [d2|]; [|done]. intros [= <-]. eauto.
  - intros [= <-]. eauto.
Qed.

Lemma start_Returned fuel self fs w :
  start web pick failedReport fuel self fs = Returned w ->
  exists w0 d,
    crawlLoop web pick fuel (seeded self fs) = Returned w0
    /\ writeReports failedReport w0 = Returned w
    /\ w = set_disk d w0.
Proof.
  unfold start.
  destruct (crawlLoop web pick fuel (seeded self fs)) as [w0|w0|w0]; try done.
  intros Hw. destruct (writeReports_Returned _ _ Hw) as [d ->]. eauto.
Qed.

Lemma crawlLoop_exhaust fuel self fs w0 :
  visited self = ∅ ->
  crawlLoop web pick fuel (seeded self fs) = Returned w0 ->
  forall u, reachable web self u -> u ∈ dispatched w0.
Proof.
  intros Hv Hloop.
  assert (Hinv : exhaustInv web self w0 []).
  { apply (crawlLoop_boundary web pick (exhaustInv web self)
             (exhaustInv_marked web self) (exhaustInv_task web self)
             (exhaustInv_collect web self) fuel _ _ Hloop).
    apply exhaustInv_seeded. }
  destruct Hinv as (_ & Hseed & Hlinks).
  pose proof (crawlLoop_Returned_queue web pick _ _ _ Hloop) as Hq.
  pose proof (crawlLoop_frontier web pick fuel _ (frontierInv_seeded self fs Hv))
    as ([_ Hel] & _).
  rewrite Hloop in Hel. cbn [worldOf] in Hel. rewrite Hq in Hseed, Hlinks.
  induction 1 as [|r u Hr IH Hl].
  - apply Hel. by destruct Hseed as [?|?%elem_of_nil].
  - apply Hel.
    by destruct (Hlinks r u IH (not_elem_of_nil _) Hl) as [?|?%elem_of_nil].
Qed.

(** X10. A crawl that returns has missed nothing: every URL that can be
    reached from the seed by following in-scope links of pages that load
    was handed to the fetcher. *)
Theorem crawl_exhaustive (fuel : nat) (self : SiteIndexer) (fs : FileSystem)
    (w : World) (u : jsstring) :
  visited self = ∅ ->
  start web pick failedReport fuel self fs = Returned w ->
  reachable web self u ->
  u ∈ dispatched w.
Proof.
  intros Hv Hrun Hu.
  destruct (start_Returned _ _ _ _ Hrun) as (w0 & d & Hloop & _ & ->).
  simpl. by eapply crawlLoop_exhaust.
Qed.

Lemma start_referrers fuel self fs :
  queue self = [] -> referrerMap self = ∅ ->
  referrersSound web self (worldOf (start web pick failedReport fuel self fs)).
Proof.
  intros Hq Hr.
  apply (start_anytime web pick failedReport (referrersSound web self)).
  - apply referrersSound_marked.
  - apply referrersSound_task.
  - apply referrersSound_collect.
  - by intros d w.
  - by apply referrersSound_seeded.
Qed.

(** X11. The referrer map tells the truth: at any point of a run, a URL
    that was handed to the fetcher is the seed or has a referrer, and the
    referrer recorded for a URL is a page that was handed to the fetcher,
    loaded, and has an anchor that normalizes to that URL. *)
Theorem referrers_sound (fuel : nat) (self : SiteIndexer) (fs : FileSystem) :
  queue self = [] -> referrerMap self = ∅ ->
  let w := worldOf (start web pick failedReport fuel self fs) in
  (forall u, u ∈ dispatched w ->
     u = baseUrl self \/ is_Some (referrerMap (indexer w) !! u))
  /\ (forall u r, referrerMap (indexer w) !! u = Some r ->
        r ∈ dispatched w /\ linksTo web self r u).
Proof.
  intros Hq Hr w. destruct (start_referrers fuel self fs Hq Hr) as (_ & H1 & H2).
  split; [|done]. intros u Hu. apply H1. by right.
Qed.

(** *** The shape of a wave *)

Lemma settle_queue n pending w :
  exists new,
    queue (indexer (outcomeWorld (settle web pick n pending w)))
    = queue (indexer w) ++ new.
Proof.
  revert pending w. induction n as [|n IH]; intros pending w.
  - exists []. simpl. by rewrite app_nil_r.
  - cbn [settle]. destruct (pending !! _) as [url|].
    2:{ exists []. simpl. by rewrite app_nil_r. }
    pose proof (task_fields web url w) as (_ & _ & _ & Hq & _).
    destruct (task web url w) as [w'|w']; cbn [outcomeWorld] in *.
    + destruct (IH (delete (pick pending `mod` length pending) pending) w')
        as [new Hnew].
      rewrite Hnew, Hq, <- app_assoc. eauto.
    + rewrite Hq. eauto.
Qed.

(** X12. One wave takes the first five entries off the queue (all of them
    when there are fewer), hands at most five URLs to the limiter (the
    entries that are not visited yet) and leaves the rest of the queue in
    front, in order, of whatever its pages add. *)
Theorem wave_batch (w : World) :
  let w' := outcomeWorld (wave web pick w) in
  exists tasks new,
    dispatched w' = dispatched w ++ tasks
    /\ length tasks <= 5
    /\ (forall u, u ∈ tasks
          <-> u ∈ take 5 (queue (indexer w)) /\ u ∉ visited (indexer w))
    /\ queue (indexer w') = drop 5 (queue (indexer w)) ++ new.
Proof.
  intros w'. subst w'. rewrite wave_unfold.
  pose proof (settle_dispatched web pick (length (tasksOf w)) (tasksOf w)
                (marked w)) as Hd.
  destruct (settle_queue (length (tasksOf w)) (tasksOf w) (marked w))
    as [new Hq].
  pose proof (marked_fields w) as (_ & Hq' & _).
  assert (Hdrop : queue (indexer (marked w)) = drop 5 (queue (indexer w))).
  { rewrite Hq'. unfold spliced. cbn [queue set_queue].
    apply drop_min_length. }
  assert (Htasks : forall u, u ∈ tasksOf w
            <-> u ∈ take 5 (queue (indexer w)) /\ u ∉ visited (indexer w)).
  { intros u. rewrite tasksOf_elem. unfold batchOf.
    by rewrite take_min_length. }
  exists (tasksOf w), new.
  destruct (settle web pick _ _ _) as [w1|w1]; cbn [outcomeWorld] in *.
  - pose proof (collect_fields
                  (map (fun slot => slot ≫= pageDataOf web) (slotsOf w)) w1)
      as (_ & Hcq & _ & _ & _ & Hcd & _).
    rewrite Hcq, Hcd, Hd, Hq, Hdrop.
    split_and!; [done | apply tasksOf_length | done | done].
  - rewrite Hd, Hq, Hdrop.
    split_and!; [done | apply tasksOf_length | done | done].
Qed.

End ReachRuns.

(** ** What a crawl writes *)

(** *** Paths that end in a file name *)

Lemma split_snoc_sep sep s : JS.split sep (s ++ [sep]) = JS.split sep s ++ [[]].
Proof.
  induction s as [|c s IH]; cbn [JS.split app].
  - by rewrite N.eqb_refl.
  - rewrite IH. destruct (c =? sep)%N; [done|].
    by destruct (split_cons_inv sep s) as (p & ps & ->).
Qed.

Lemma normalizeSegments_snoc allow res segs name :
  name <> [] -> name <> str "." -> name <> str ".." ->
  Path.normalizeSegments allow res (segs ++ [name])
  = Path.normalizeSegments allow res segs ++ [name].
Proof.
  intros H0 H1 H2. revert res.
  induction segs as [|seg segs IH]; intros res.
  - cbn [app Path.normalizeSegments].
    rewrite decide_False by (by intros [?|?]).
    rewrite decide_False by done. simpl. reflexivity.
  - cbn [app Path.normalizeSegments].
    destruct (decide (seg = [] \/ seg = str ".")); [apply IH|].
    destruct (decide (seg = str "..")); [|apply IH].
    destruct res as [|top res']; [apply IH|].
    destruct (decide (top = str "..")); apply IH.
Qed.

Lemma endsWith_app_r pre s pattern :
  JS.endsWith s pattern = true -> JS.endsWith (pre ++ s) pattern = true.
Proof.
  unfold JS.endsWith. rewrite rev_app_distr. apply startsWith_app.
Qed.

Lemma startsWith_head s c pattern :
  JS.startsWith s (c :: pattern) = true -> head s = Some c.
Proof. by intros (rest & -> & _)%startsWith_cons_inv. Qed.

Lemma endsWith_last s pattern c :
  JS.endsWith s pattern = true -> last pattern = Some c -> last s = Some c.
Proof.
  unfold JS.endsWith. intros Hs Hl.
  apply last_Some in Hl as [init ->]. rewrite rev_unit in Hs.
  apply startsWith_head in Hs.
  rewrite <- (rev_involutive s). destruct (rev s) as [|d t]; [done|].
  simpl in Hs. injection Hs as ->. simpl. by rewrite last_snoc.
Qed.

(** A path whose last segment ends with [pattern] keeps that ending when
    it is normalized; [pattern] is the end of a file name: it has no slash
    and is not the end of the empty name, of [.] or of [..]. *)
Lemma normalize_endsWith p pattern c :
  last pattern = Some c -> SLASH ∉ pattern ->
  JS.endsWith [] pattern = false ->
  JS.endsWith (str ".") pattern = false ->
  JS.endsWith (str "..") pattern = false ->
  JS.endsWith p pattern = true ->
  JS.endsWith (Path.normalize p) pattern = true.
Proof.
  intros Hc Hfree He H1 H2 Hp.
  assert (Hcs : c <> SLASH).
  { intros ->. apply Hfree. apply last_Some in Hc as [init ->].
    apply elem_of_app. right. by apply list_elem_of_singleton. }
  destruct (split_snoc_inv SLASH p) as (init & name & Hsplit).
  assert (Hname : JS.endsWith name pattern = true).
  { rewrite <- (endsWith_join_last init name pattern Hfree).
    by rewrite <- Hsplit, join_split. }
  assert (Hn0 : name <> []) by (intros ->; congruence).
  assert (Hn1 : name <> str ".") by (intros ->; congruence).
  assert (Hn2 : name <> str "..") by (intros ->; congruence).
  unfold Path.normalize. destruct p as [|c0 p']; [congruence|].
  set (p := c0 :: p') in *. rewrite Hsplit.
  rewrite normalizeSegments_snoc by done.
  set (kept := Path.normalizeSegments _ [] init).
  assert (Hbody : JS.endsWith (JS.join [SLASH] (kept ++ [name])) pattern = true).
  { by rewrite endsWith_join_last. }
  assert (Htrail : JS.endsWith p (str "/") = false).
  { apply (endsWith_last_ne _ c); [|done]. by eapply endsWith_last. }
  rewrite Htrail.
  destruct (JS.join [SLASH] (kept ++ [name])) as [|b body] eqn:Ebody;
    [congruence|].
  rewrite app_nil_r. by apply endsWith_app_r.
Qed.

Lemma join_endsWith ps p pattern :
  JS.endsWith p pattern = true ->
  JS.endsWith (JS.join [SLASH] (ps ++ [p])) pattern = true.
Proof.
  intros Hp. destruct ps as [|x ps]; [done|].
  rewrite join_snoc by done. rewrite app_assoc. by apply endsWith_app_r.
Qed.

Lemma Path_join_endsWith parts p pattern c :
  last pattern = Some c -> SLASH ∉ pattern ->
  JS.endsWith [] pattern = false ->
  JS.endsWith (str ".") pattern = false ->
  JS.endsWith (str "..") pattern = false ->
  JS.endsWith p pattern = true ->
  JS.endsWith (Path.join (parts ++ [p])) pattern = true.
Proof.
  intros Hc Hfree He H1 H2 Hp. unfold Path.join.
  rewrite List.filter_app. cbn [List.filter].
  assert (Htruthy : JS.truthy p = true) by (destruct p; [congruence | done]).
  rewrite Htruthy.
  pose proof (join_endsWith (List.filter JS.truthy parts) p pattern Hp) as Hj.
  destruct (JS.join [SLASH] (List.filter JS.truthy parts ++ [p]))
    as [|c0 joined] eqn:E; [congruence|].
  by apply (normalize_endsWith _ pattern c).
Qed.

Lemma corpusPath_endsWith self :
  JS.endsWith (corpusPath self) (str "llms-full.txt") = true.
Proof.
  unfold corpusPath.
  apply (Path_join_endsWith [str "output"; baseDomain self] _ _ 116%N);
    try reflexivity.
  apply (bool_decide_eq_false_1 _). by vm_compute.
Qed.

Lemma failedUrlsPath_endsWith self :
  JS.endsWith (failedUrlsPath self) (str "failed-urls.json") = true.
Proof.
  unfold failedUrlsPath.
  apply (Path_join_endsWith [str "output"; baseDomain self] _ _ 110%N);
    try reflexivity.
  apply (bool_decide_eq_false_1 _). by vm_compute.
Qed.

Lemma corpusPath_failedUrlsPath self : corpusPath self <> failedUrlsPath self.
Proof.
  intros Heq.
  pose proof (endsWith_last _ _ 116%N (corpusPath_endsWith self) eq_refl) as H1.
  pose proof (endsWith_last _ _ 110%N (failedUrlsPath_endsWith self) eq_refl)
    as H2.
  rewrite Heq in H1. congruence.
Qed.

Section Output.
Context {L : UrlLib}.
Variable web : jsstring -> Response.



End Output.

(** *** The corpus and the counters *)

Lemma omap_sectionOf web slots :
  omap sectionOf (map (fun slot => slot ≫= pageDataOf web) slots)
  = omap (pageSection web) (omap id slots).
Proof.
  induction slots as [|[u|] slots IH]; [done| |done].
  cbn. unfold pageSection at 1. destruct (pageDataOf web u); cbn; by rewrite IH.
Qed.

Lemma omap_id_sectionOf results :
  length (omap id results) = length (omap sectionOf results).
Proof.
  induction results as [|[pd|] results IH]; cbn; [done | by rewrite IH | done].
Qed.

Lemma pageSection_loads web u :
  is_Some (pageSection web u) <-> loads web u = true.
Proof.
  unfold pageSection, pageDataOf, loads.
  destruct (web u); split; (done || by intros [? ?] || eauto).
Qed.

Lemma omap_pageSection_length web urls :
  length (omap (pageSection web) urls)
  = length (List.filter (loads web) urls).
Proof.
  induction urls as [|u urls IH]; [done|].
  assert (Hcase : (exists s, pageSection web u = Some s /\ loads web u = true)
                  \/ (pageSection web u = None /\ loads web u = false)).
  { unfold pageSection, pageDataOf, loads. destruct (web u); eauto. }
  cbn [omap list_omap List.filter].
  destruct Hcase as [(s & -> & ->)|[-> ->]]; cbn [length]; by rewrite IH.
Qed.

Lemma filter_split_length {A} (p : A -> bool) l :
  length (List.filter p l) + length (List.filter (fun x => negb (p x)) l)
  = length l.
Proof.
  induction l as [|x l IH]; [done|]. simpl. destruct (p x); simpl; lia.
Qed.

Section Corpus.
Context {L : UrlLib}.
Variable web : jsstring -> Response.
Variable pick : list jsstring -> nat.
Variable failedReport : list FailedPage -> jsstring.

Lemma settle_contents n pending w :
  contentParts (outcomeWorld (settle web pick n pending w)) = contentParts w
  /\ successfulPages (indexer (outcomeWorld (settle web pick n pending w)))
     = successfulPages (indexer w).
Proof.
  revert pending w. induction n as [|n IH]; intros pending w; [done|].
  cbn [settle]. destruct (pending !! _) as [url|]; [|done].
  pose proof (task_fields web url w) as (_ & _ & Hs & _ & _ & Hc & _).
  destruct (task web url w) as [w'|w']; cbn [outcomeWorld] in *; [|done].
  destruct (IH (delete (pick pending `mod` length pending) pending) w')
    as [Hc' Hs'].
  split; congruence.
Qed.

Lemma wave_corpus w w' :
  wave web pick w = Resolved w' ->
  contentParts w' = contentParts w ++ omap (pageSection web) (tasksOf w)
  /\ dispatched w' = dispatched w ++ tasksOf w
  /\ successfulPages (indexer w')
     = successfulPages (indexer w)
       + length (omap (pageSection web) (tasksOf w)).
Proof.
  rewrite wave_unfold.
  pose proof (settle_contents (length (tasksOf w)) (tasksOf w) (marked w))
    as [Hc Hs].
  pose proof (settle_dispatched web pick (length (tasksOf w)) (tasksOf w)
                (marked w)) as Hd.
  pose proof (marked_fields w) as (_ & _ & _ & Hs' & _).
  destruct (settle web pick _ _ _) as [w1|w1]; [|done].
  cbn [outcomeWorld] in *. intros [= <-]. rewrite collect_shape.
  cbn [contentParts dispatched indexer successfulPages set_successfulPages].
  rewrite Hc, Hd, Hs, Hs', omap_id_sectionOf, omap_sectionOf. by split_and!.
Qed.

Lemma crawlLoop_corpus fuel w w' :
  crawlLoop web pick fuel w = Returned w' ->
  contentParts w = omap (pageSection web) (dispatched w) ->
  contentParts w' = omap (pageSection web) (dispatched w')
  /\ successfulPages (indexer w') + length (contentParts w)
     = successfulPages (indexer w) + length (contentParts w').
Proof.
  revert w. induction fuel as [|fuel IH]; intros w; cbn [crawlLoop].
  - destruct (queue (indexer w)); [|done]. by intros [= <-].
  - destruct (queue (indexer w)); [by intros [= <-]|].
    destruct (wave web pick w) as [w1|w1] eqn:Hw; [|done].
    destruct (wave_corpus _ _ Hw) as (Hc & Hd & Hs).
    intros Hr Hinv.
    destruct (IH w1 Hr) as [Hc' Hs'].
    { by rewrite Hc, Hd, omap_app, Hinv. }
    split; [done|]. rewrite Hc, length_app in Hs'. lia.
Qed.

Lemma crawlLoop_sameBase fuel w :
  sameBase (indexer w) (indexer (worldOf (crawlLoop web pick fuel w))).
Proof.
  apply (crawlLoop_anytime web pick (fun w' => sameBase (indexer w) (indexer w'))).
  - intros w' Hb. eapply sameBase_trans; [exact Hb|]. apply marked_fields.
  - intros url w' _ Hb. eapply sameBase_trans; [exact Hb|].
    apply (task_fields web url w').
  - intros results w' Hb. eapply sameBase_trans; [exact Hb|].
    apply collect_fields.
  - apply sameBase_refl.
Qed.

Lemma start_corpus fuel self fs w :
  start web pick failedReport fuel self fs = Returned w ->
  contentParts w = omap (pageSection web) (dispatched w)
  /\ successfulPages (indexer w)
     = successfulPages self + length (contentParts w).
Proof.
  intros Hrun.
  destruct (start_Returned _ _ _ _ _ _ _ Hrun) as (w0 & d & Hloop & _ & ->).
  destruct (crawlLoop_corpus _ _ _ Hloop eq_refl) as [Hc Hs].
  split; [done|]. simpl in *. lia.
Qed.

Lemma writeReports_disk w w' :
  writeReports failedReport w = Returned w' ->
  files (disk w') !! corpusPath (indexer w)
  = Some (JS.trim (JS.join [LF; LF] (contentParts w)))
  /\ (failedPages (indexer w) <> [] ->
      files (disk w') !! failedUrlsPath (indexer w)
      = Some (failedReport (failedPages (indexer w)))).
Proof.
  unfold writeReports, FS.writeFile.
  destruct (bool_decide _ && negb (bool_decide _)); [|done].
  cbn [directories files].
  destruct (failedPages (indexer w)) as [|f failed] eqn:Ef; cbn [length Nat.ltb Nat.leb].
  - intros [= <-]. cbn [disk set_disk files]. split; [|done].
    by rewrite lookup_insert_eq.
  - destruct (bool_decide _ && negb (bool_decide _)); [|done].
    intros [= <-]. cbn [disk set_disk files]. split.
    + rewrite lookup_insert_ne by (symmetry; apply corpusPath_failedUrlsPath).
      by rewrite lookup_insert_eq.
    + intros _. by rewrite lookup_insert_eq.
Qed.

(** X14. When a crawl returns, the corpus file holds one section per page
    that loaded, heading first and the cleaned content below it, in the
    order in which the pages were handed to the fetcher, joined by blank
    lines and trimmed; and when a page failed, the report file holds the
    report of the failure records. *)
Theorem start_writes_corpus (fuel : nat) (self : SiteIndexer)
    (fs : FileSystem) (w : World) :
  start web pick failedReport fuel self fs = Returned w ->
  files (disk w) !! corpusPath self
  = Some (JS.trim
            (JS.join [LF; LF] (omap (pageSection web) (dispatched w))))
  /\ (failedPages (indexer w) <> [] ->
      files (disk w) !! failedUrlsPath self
      = Some (failedReport (failedPages (indexer w)))).
Proof.
  intros Hrun. destruct (start_corpus _ _ _ _ Hrun) as [Hc _].
  destruct (start_Returned _ _ _ _ _ _ _ Hrun) as (w0 & d & Hloop & Hw & Hd).
  assert (Hdom : baseDomain (indexer w0) = baseDomain self).
  { pose proof (crawlLoop_sameBase fuel (seeded self fs)) as (_ & Hdom & _).
    by rewrite Hloop in Hdom. }
  destruct (writeReports_disk _ _ Hw) as [H1 H2].
  assert (Hcp : corpusPath (indexer w0) = corpusPath self).
  { unfold corpusPath. by rewrite Hdom. }
  assert (Hfp : failedUrlsPath (indexer w0) = failedUrlsPath self).
  { unfold failedUrlsPath. by rewrite Hdom. }
  rewrite Hcp in H1. rewrite Hfp in H2. rewrite <- Hc.
  subst w. cbn [contentParts set_disk indexer] in *. by split.
Qed.

(** *** Counting *)

Lemma start_failures fuel self fs w :
  visited self = ∅ -> failedPages self = [] ->
  start web pick failedReport fuel self fs = Returned w ->
  map fp_url (failedPages (indexer w))
  ≡ₚ List.filter (fun u => negb (loads web u)) (dispatched w).
Proof.
  intros Hv Hf Hrun.
  pose proof (failure_records_once web pick failedReport fuel self fs Hv Hf)
    as (Hnd & Hrec & Hall).
  pose proof (start_frontier web pick failedReport fuel self fs Hv) as [Hdnd _].
  rewrite Hrun in Hnd, Hrec, Hdnd. cbn [worldOf] in *.
  apply NoDup_Permutation; [done | |].
  - apply NoDup_ListNoDup, List.NoDup_filter, NoDup_ListNoDup, Hdnd.
  - intros u.
    rewrite (list_elem_of_In (List.filter _ _)), filter_In, <- list_elem_of_In.
    split.
    + intros (f & -> & Hin)%list_elem_of_fmap.
      destruct (Hrec f Hin) as (Hd & error & Hweb & _).
      split; [done|]. unfold loads. by rewrite Hweb.
    + intros [Hd Hl]. unfold loads in Hl.
      destruct (web u) as [doc|error] eqn:Hweb; [done|].
      by apply (Hall w u error).
Qed.

(** X15. When a crawl returns, the failure records are those of the URLs
    that were handed to the fetcher and did not load, each one once; a
    record gives the reason of the error and the referrer the crawler holds
    for its URL. *)
Theorem failures_reported (fuel : nat) (self : SiteIndexer) (fs : FileSystem)
    (w : World) :
  visited self = ∅ -> failedPages self = [] ->
  start web pick failedReport fuel self fs = Returned w ->
  map fp_url (failedPages (indexer w))
  ≡ₚ List.filter (fun u => negb (loads web u)) (dispatched w)
  /\ forall f, f ∈ failedPages (indexer w) ->
       (exists error,
          web (fp_url f) = Failed error /\ fp_reason f = reasonOf error)
       /\ fp_referrer f = referrerOf (indexer w) (fp_url f).
Proof.
  intros Hv Hf Hrun. split; [by eapply start_failures|].
  intros f Hin.
  pose proof (failure_records_once web pick failedReport fuel self fs Hv Hf)
    as (_ & Hrec & _).
  pose proof (failure_records_referrer web pick failedReport fuel self fs Hf)
    as Href.
  rewrite Hrun in Hrec, Href. cbn [worldOf] in *.
  split; [by apply Hrec | by apply Href].
Qed.

(** X16. When a crawl returns, its counters add up: the pages counted as
    successful are the fetched URLs that loaded, the failure records are
    as many as the fetched URLs that did not, and together they are as many
    as the visited URLs. *)
Theorem counters_add_up (fuel : nat) (self : SiteIndexer) (fs : FileSystem)
    (w : World) :
  visited self = ∅ -> failedPages self = [] -> successfulPages self = 0 ->
  start web pick failedReport fuel self fs = Returned w ->
  successfulPages (indexer w)
  = length (List.filter (loads web) (dispatched w))
  /\ length (failedPages (indexer w))
     = length (List.filter (fun u => negb (loads web u)) (dispatched w))
  /\ successfulPages (indexer w) + length (failedPages (indexer w))
     = size (visited (indexer w)).
Proof.
  intros Hv Hf Hs Hrun.
  destruct (start_corpus _ _ _ _ Hrun) as [Hc Hn].
  pose proof (start_failures _ _ _ _ Hv Hf Hrun) as Hperm.
  pose proof (start_frontier web pick failedReport fuel self fs Hv) as Hfr.
  rewrite Hrun in Hfr. cbn [worldOf] in Hfr.
  assert (H1 : successfulPages (indexer w)
               = length (List.filter (loads web) (dispatched w))).
  { by rewrite Hn, Hs, Hc, omap_pageSection_length. }
  assert (H2 : length (failedPages (indexer w))
               = length (List.filter (fun u => negb (loads web u))
                           (dispatched w))).
  { by rewrite <- Hperm, length_map. }
  split; [done|]. split; [done|].
  rewrite H1, H2, filter_split_length. symmetry. by apply frontierInv_size.
Qed.

End Corpus.

(** ** A crawl of a finite site comes to an end *)

Lemma size_difference_lt (site seen batch : gset jsstring) (t : jsstring) :
  t ∈ site -> t ∉ seen -> t ∈ batch ->
  size (site ∖ (seen ∪ batch)) < size (site ∖ seen).
Proof.
  intros Hs Hn Hb. apply subset_size. split; [set_solver|].
  intros Hsub. assert (Ht : t ∈ site ∖ (seen ∪ batch)) by set_solver.
  set_solver.
Qed.

Lemma union_absorb (seen : gset jsstring) (batch : list jsstring) :
  (forall u, u ∈ batch -> u ∈ seen) -> seen ∪ list_to_set batch = seen.
Proof.
  intros Hb. apply set_eq. intros u.
  rewrite elem_of_union, elem_of_list_to_set. split; [|tauto].
  intros [?|?]; auto.
Qed.

Section Termination.
Context {L : UrlLib}.
Variable web : jsstring -> Response.
Variable pick : list jsstring -> nat.
Variable failedReport : list FailedPage -> jsstring.

Lemma wave_sound self w :
  soundInv web self w -> soundInv web self (outcomeWorld (wave web pick w)).
Proof.
  apply (wave_anytime web pick (soundInv web self)).
  - apply soundInv_marked.
  - apply soundInv_task.
  - apply soundInv_collect.
Qed.

Lemma wave_visited w :
  visited (indexer (outcomeWorld (wave web pick w)))
  = visited (indexer w) ∪ list_to_set (batchOf w).
Proof.
  rewrite wave_unfold.
  pose proof (settle_frontier web pick (length (tasksOf w)) (tasksOf w)
                (marked w)) as (Hv & _).
  pose proof (marked_fields w) as (Hm & _).
  destruct (settle web pick _ _ _) as [w1|w1]; cbn [outcomeWorld] in *.
  - pose proof (collect_fields
                  (map (fun slot => slot ≫= pageDataOf web) (slotsOf w)) w1)
      as (Hc & _).
    by rewrite Hc, Hv, Hm.
  - by rewrite Hv, Hm.
Qed.

(** A wave whose batch holds visited URLs only starts no task: it shortens
    the queue and changes nothing else that matters. *)
Lemma wave_idle w :
  tasksOf w = [] ->
  exists w',
    wave web pick w = Resolved w'
    /\ queue (indexer w') = drop 5 (queue (indexer w))
    /\ visited (indexer w') = visited (indexer w).
Proof.
  intros Ht. pose proof (wave_visited w) as Hv.
  rewrite wave_unfold in Hv |- *. rewrite Ht in Hv |- *.
  cbn [length settle outcomeWorld] in *.
  eexists. split; [done|].
  pose proof (collect_fields
                (map (fun slot => slot ≫= pageDataOf web) (slotsOf w))
                (marked w)) as (_ & Hcq & _).
  pose proof (marked_fields w) as (_ & Hmq & _).
  split.
  - rewrite Hcq, Hmq. unfold spliced. cbn [queue set_queue].
    apply drop_min_length.
  - rewrite Hv. apply union_absorb. intros u Hu.
    destruct (decide (u ∈ visited (indexer w))) as [|Hn]; [done|].
    assert (Hin : u ∈ tasksOf w) by (by apply tasksOf_elem).
    rewrite Ht in Hin. by apply elem_of_nil in Hin.
Qed.

Lemma crawlLoop_terminates self site :
  (forall u, reachable web self u -> u ∈ site) ->
  forall n k w,
    soundInv web self w ->
    size (list_to_set site ∖ visited (indexer w) : gset jsstring) <= n ->
    length (queue (indexer w)) <= k ->
    exists fuel w',
      crawlLoop web pick fuel w = Returned w'
      \/ crawlLoop web pick fuel w = Threw w'.
Proof.
  intros Hsite n. induction n as [n IHn] using lt_wf_ind.
  intros k. induction k as [k IHk] using lt_wf_ind. intros w Hinv Hn Hk.
  destruct (queue (indexer w)) as [|q0 qs] eqn:Hq.
  { exists 0, w. left. simpl. by rewrite Hq. }
  pose proof (wave_sound self w Hinv) as Hinv'.
  pose proof (wave_visited w) as Hv.
  destruct (tasksOf w) as [|t ts] eqn:Ht.
  - destruct (wave_idle w Ht) as (w1 & Hw & Hq1 & Hv1).
    rewrite Hw in Hinv'. cbn [outcomeWorld] in Hinv'.
    destruct (IHk (length (queue (indexer w1)))) with (w := w1)
      as (fuel & w' & Hr); [| done | by rewrite Hv1 | done |].
    { rewrite Hq1, Hq, length_drop. simpl in *. lia. }
    exists (S fuel), w'. cbn [crawlLoop]. by rewrite Hq, Hw.
  - destruct (wave web pick w) as [w1|w1] eqn:Hw; cbn [outcomeWorld] in *.
    + assert (Ht' : t ∈ tasksOf w) by (rewrite Ht; apply elem_of_cons; by left).
      apply tasksOf_elem in Ht' as [Hb Hnv].
      assert (Hts : t ∈ site).
      { apply Hsite. destruct Hinv as (_ & Hqr & _). apply Hqr.
        rewrite (queue_batch w). apply elem_of_app. by left. }
      assert (Hlt : size (list_to_set site ∖ visited (indexer w1)
                          : gset jsstring)
                    < size (list_to_set site ∖ visited (indexer w)
                            : gset jsstring)).
      { rewrite Hv. apply (size_difference_lt _ _ _ t); [|done|].
        - by apply elem_of_list_to_set.
        - by apply elem_of_list_to_set. }
      destruct (IHn (size (list_to_set site ∖ visited (indexer w1)
                           : gset jsstring)))
        with (k := length (queue (indexer w1))) (w := w1)
        as (fuel & w' & Hr); [lia | done | done | done |].
      exists (S fuel), w'. cbn [crawlLoop]. by rewrite Hq, Hw.
    + exists 1, w1. right. cbn [crawlLoop]. by rewrite Hq, Hw.
Qed.

Lemma writeReports_ends w :
  exists w',
    writeReports failedReport w = Returned w'
    \/ writeReports failedReport w = Threw w'.
Proof.
  unfold writeReports. destruct (FS.writeFile _ _ _) as [d1|]; [|eauto].
  destruct (0 <? _); [|eauto]. destruct (FS.writeFile _ _ _); eauto.
Qed.

Lemma closedSite_reachable self site :
  closedSite web self site = true ->
  forall u, reachable web self u -> u ∈ site.
Proof.
  unfold closedSite. intros [Hseed Hall]%andb_prop.
  apply bool_decide_eq_true in Hseed. rewrite forallb_forall in Hall.
  induction 1 as [|r u Hr IH (doc & href & Hweb & Hin & Hn & Hu & Hv)];
    [done|].
  apply list_elem_of_In, Hall in IH. rewrite Hweb, forallb_forall in IH.
  apply list_elem_of_In, IH in Hin. rewrite Hn, Hu, Hv in Hin.
  by apply bool_decide_eq_true in Hin.
Qed.

(** On a site with finitely many reachable URLs, and with every request
    settling, some number of waves is enough for [start] to return or to
    throw, and any larger number gives the same result. *)
Lemma start_ends (self : SiteIndexer) (fs : FileSystem)
    (site : list jsstring) :
  queue self = [] ->
  (forall u, reachable web self u -> u ∈ site) ->
  exists fuel w,
    (forall extra,
       start web pick failedReport (fuel + extra) self fs = Returned w)
    \/ (forall extra,
          start web pick failedReport (fuel + extra) self fs = Threw w).
Proof.
  intros Hq Hsite.
  destruct (crawlLoop_terminates self site Hsite
              (size (list_to_set site ∖ visited (indexer (seeded self fs))
                     : gset jsstring))
              (length (queue (indexer (seeded self fs)))) (seeded self fs))
    as (fuel & w' & Hr); [by apply soundInv_seeded | done | done |].
  exists fuel. unfold start. destruct Hr as [Hr|Hr].
  - destruct (writeReports_ends w') as (w & [Hw|Hw]); exists w; [left|right];
      intros extra; by rewrite crawlLoop_add, Hr.
  - exists w'. right. intros extra. by rewrite crawlLoop_add, Hr.
Qed.

End Termination.

(** ** Requests that never settle *)

Section HangingRuns.
Context {L : UrlLib}.
Variable web : jsstring -> Response.
Variable hangs : jsstring -> bool.
Variable pick : list jsstring -> nat.
Variable failedReport : list FailedPage -> jsstring.

Lemma waveOrHang_settles w :
  forallb (settling hangs) (tasksOf w) = true ->
  waveOrHang web hangs pick w = Settles (wave web pick w).
Proof.
  intros Hall. unfold waveOrHang. rewrite wave_unfold, Hall.
  rewrite (List.forallb_filter_id _ _ Hall).
  by destruct (settle web pick _ _ _).
Qed.

Lemma crawlOrHang_settles self :
  (forall u, reachable web self u -> hangs u = false) ->
  forall fuel w,
    soundInv web self w ->
    crawlOrHang web hangs pick fuel w = Ends (crawlLoop web pick fuel w).
Proof.
  intros Hsettle fuel. induction fuel as [|fuel IH]; intros w Hinv;
    cbn [crawlOrHang crawlLoop].
  - by destruct (queue (indexer w)).
  - destruct (queue (indexer w)) as [|q0 qs] eqn:Hq; [done|].
    rewrite waveOrHang_settles.
    + pose proof (wave_sound web pick self w Hinv) as Hinv'.
      destruct (wave web pick w) as [w1|w1]; [|done].
      by apply IH.
    + apply forallb_forall. intros u Hu. unfold settling.
      apply list_elem_of_In, tasksOf_elem in Hu as [Hb _].
      rewrite Hsettle; [done|].
      destruct Hinv as (_ & Hqr & _). apply Hqr.
      rewrite (queue_batch w). apply elem_of_app. by left.
Qed.

Lemma waveOrHang_dispatched w :
  match waveOrHang web hangs pick w with
  | Settles (Resolved w') =>
      dispatched w' = dispatched w ++ tasksOf w
      /\ forallb (settling hangs) (tasksOf w) = true
  | Settles (Rejected _) => True
  | Pends _ => forallb (settling hangs) (tasksOf w) = false
  end.
Proof.
  unfold waveOrHang.
  pose proof (settle_dispatched web pick
                (length (List.filter (settling hangs) (tasksOf w)))
                (List.filter (settling hangs) (tasksOf w)) (marked w)) as Hd.
  destruct (settle web pick _ _ _) as [w1|w1]; [|done].
  cbn [outcomeWorld] in Hd.
  destruct (forallb (settling hangs) (tasksOf w)); [|done].
  split; [|done].
  pose proof (collect_fields
                (map (fun slot => slot ≫= pageDataOf web) (slotsOf w)) w1)
    as (_ & _ & _ & _ & _ & Hc & _).
  by rewrite Hc, Hd.
Qed.

Lemma crawlOrHang_Returned fuel w w' :
  crawlOrHang web hangs pick fuel w = Ends (Returned w') ->
  forall u, u ∈ dispatched w' -> u ∈ dispatched w \/ hangs u = false.
Proof.
  revert w. induction fuel as [|fuel IH]; intros w; cbn [crawlOrHang].
  - destruct (queue (indexer w)); [|done]. intros [= <-] u Hu. by left.
  - destruct (queue (indexer w)); [intros [= <-] u Hu; by left|].
    pose proof (waveOrHang_dispatched w) as Hw.
    destruct (waveOrHang web hangs pick w) as [[w1|w1]|w1]; [|done|done].
    destruct Hw as [Hd Hall]. intros Hrun u Hu.
    destruct (IH w1 Hrun u Hu) as [Hin|Hs]; [|by right].
    rewrite Hd in Hin. apply elem_of_app in Hin as [Hin|Hin]; [by left|].
    right. rewrite forallb_forall in Hall.
    apply list_elem_of_In, Hall in Hin. unfold settling in Hin.
    by destruct (hangs u).
Qed.

(** X17. Provided that the request for every reachable URL settles, that
    is, resolves or rejects, a crawl of a site with finitely many reachable
    URLs comes to an end: some number of waves is enough for [start] to
    return or to throw, and any larger number gives the same result.
    [axios.get] is called without a timeout, so the proviso is needed. *)
Theorem crawl_terminates (self : SiteIndexer) (fs : FileSystem)
    (site : list jsstring) :
  queue self = [] ->
  (forall u, reachable web self u -> u ∈ site /\ hangs u = false) ->
  exists fuel w,
    (forall extra,
       startOrHang web hangs pick failedReport (fuel + extra) self fs
       = Ends (Returned w))
    \/ (forall extra,
          startOrHang web hangs pick failedReport (fuel + extra) self fs
          = Ends (Threw w)).
Proof.
  intros Hq Hsite.
  destruct (start_ends web pick failedReport self fs site Hq)
    as (fuel & w & Hr); [intros u Hu; by apply Hsite|].
  assert (Heq : forall n,
            startOrHang web hangs pick failedReport n self fs
            = Ends (start web pick failedReport n self fs)).
  { intros n. unfold startOrHang, start.
    rewrite (crawlOrHang_settles self);
      [| intros u Hu; by apply Hsite | by apply soundInv_seeded].
    by destruct (crawlLoop web pick n (seeded self fs)). }
  exists fuel, w. destruct Hr as [Hr|Hr]; [left|right];
    intros extra; by rewrite Heq, Hr.
Qed.


(** X25. [start] returns only if every request it made has settled: when a
    crawl returns, no URL handed to the limiter is one whose request
    hangs. *)
Theorem start_returns_when_settled (fuel : nat) (self : SiteIndexer)
    (fs : FileSystem) (w : World) (url : jsstring) :
  startOrHang web hangs pick failedReport fuel self fs = Ends (Returned w) ->
  url ∈ dispatched w -> hangs url = false.
Proof.
  unfold startOrHang. intros Hrun Hin.
  destruct (crawlOrHang web hangs pick fuel (seeded self fs))
    as [[w1|w1|w1]|w1] eqn:Hloop; try done.
  assert (Hd : dispatched w = dispatched w1).
  { injection Hrun as Hrun. unfold writeReports in Hrun.
    destruct (FS.writeFile _ _ _) as [d1|]; [|done].
    destruct (0 <? _); [|by injection Hrun as <-].
    destruct (FS.writeFile _ _ _); [|done]. by injection Hrun as <-. }
  rewrite Hd in Hin.
  destruct (crawlOrHang_Returned fuel _ _ Hloop url Hin) as [Hs|Hs];
    [|done].
  by apply elem_of_nil in Hs.
Qed.

End HangingRuns.

(** ** The concurrency limiter *)

Lemma inFlight_snoc calls c :
  Limiter.inFlight (calls ++ [c])
  = Limiter.inFlight calls + (if Limiter.isRunning c then 1 else 0).
Proof.
  unfold Limiter.inFlight. rewrite List.filter_app, length_app. simpl.
  by destruct (Limiter.isRunning c).
Qed.

Lemma inFlight_insert calls i c c' :
  calls !! i = Some c ->
  Limiter.inFlight (<[i := c']> calls)
  + (if Limiter.isRunning c then 1 else 0)
  = Limiter.inFlight calls + (if Limiter.isRunning c' then 1 else 0).
Proof.
  unfold Limiter.inFlight. revert i.
  induction calls as [|d calls IH]; intros i Hi; [done|].
  destruct i as [|i]; simpl in Hi.
  - injection Hi as ->. simpl.
    destruct (Limiter.isRunning c), (Limiter.isRunning c'); simpl; lia.
  - specialize (IH i Hi). simpl.
    destruct (Limiter.isRunning d); simpl; lia.
Qed.

Lemma waiting_snoc calls c :
  forallb (fun c => negb (Limiter.isWaiting c)) (calls ++ [c])
  = forallb (fun c => negb (Limiter.isWaiting c)) calls
    && negb (Limiter.isWaiting c).
Proof. rewrite forallb_app. simpl. by rewrite andb_true_r. Qed.

Lemma waiting_insert calls i c' :
  forallb (fun c => negb (Limiter.isWaiting c)) calls = true ->
  Limiter.isWaiting c' = false ->
  forallb (fun c => negb (Limiter.isWaiting c)) (<[i := c']> calls) = true.
Proof.
  intros Hall Hc. revert i.
  induction calls as [|d calls IH]; intros i; [done|].
  simpl in Hall. apply andb_prop in Hall as [Hd Hall].
  destruct i as [|i]; simpl.
  - by rewrite Hc, Hall.
  - by rewrite Hd, (IH Hall).
Qed.

Section LimiterProperties.
Context {Thunk : Type}.
Variable invoke : Thunk -> Limiter.State Thunk -> Limiter.State Thunk.

Lemma release_consistent max r cs :
  Limiter.release invoke (Limiter.mkState (Limiter.mk r [] max) cs)
  = Limiter.mkState (Limiter.mk (r - 1) [] max) cs.
Proof. reflexivity. Qed.

(** What entering [add] does in a consistent state: the call waits when
    the limiter is full; otherwise it takes a slot, and gives it back at
    once when [fn()] throws. *)
Lemma enter_consistent max throws r cs :
  Limiter.enter invoke throws (Limiter.mkState (Limiter.mk r [] max) cs)
  = if (max <=? r)%Z
    then (Limiter.mkState (Limiter.mk r [] max) cs, Limiter.Waiting throws)
    else if throws
         then (Limiter.mkState (Limiter.mk r [] max) cs, Limiter.Rejected)
         else (Limiter.mkState (Limiter.mk (r + 1) [] max) cs, Limiter.Running).
Proof.
  unfold Limiter.enter. cbn [Limiter.limiter Limiter.maxConcurrent
    Limiter.running Limiter.queue Limiter.calls].
  destruct (max <=? r)%Z; [done|]. destruct throws; [|done].
  rewrite release_consistent. do 2 f_equal. f_equal. lia.
Qed.

Lemma step_consistent max s e :
  Limiter.consistent max s -> Limiter.consistent max (Limiter.step invoke s e).
Proof.
  destruct s as [[r q m] cs]. intros (Hr & Hb & Hq & Hm).
  cbn [Limiter.limiter Limiter.calls Limiter.running Limiter.queue
       Limiter.maxConcurrent] in *. subst q m.
  destruct e as [throws|i|i ok]; cbn [Limiter.step Limiter.calls].
  - rewrite enter_consistent. destruct (Z.leb_spec max r) as [Hle|Hlt].
    + unfold Limiter.consistent. fields. rewrite inFlight_snoc. simpl.
      rewrite Nat.add_0_r. by split_and!.
    + destruct throws; unfold Limiter.consistent; fields; rewrite inFlight_snoc;
        simpl; split_and!; try done; lia.
  - destruct (cs !! i) as [[throws| | |]|] eqn:Hi;
      try (unfold Limiter.consistent; by split_and!).
    rewrite enter_consistent. destruct (Z.leb_spec max r) as [Hle|Hlt].
    + pose proof (inFlight_insert cs i _ (Limiter.Waiting throws) Hi) as Hin.
      unfold Limiter.consistent. fields in *. split_and!; try done; lia.
    + destruct throws.
      * pose proof (inFlight_insert cs i _ Limiter.Rejected Hi) as Hin.
        unfold Limiter.consistent. fields in *. split_and!; try done; lia.
      * pose proof (inFlight_insert cs i _ Limiter.Running Hi) as Hin.
        unfold Limiter.consistent. fields in *. split_and!; try done; lia.
  - destruct (cs !! i) as [[throws| | |]|] eqn:Hi;
      try (unfold Limiter.consistent; by split_and!).
    rewrite release_consistent.
    pose proof (inFlight_insert cs i _
                  (if ok then Limiter.Fulfilled else Limiter.Rejected) Hi)
      as Hin.
    unfold Limiter.consistent. fields in *.
    destruct ok; fields in *; split_and!; try done; lia.
Qed.

Lemma run_consistent max s events :
  Limiter.consistent max s -> Limiter.consistent max (Limiter.run invoke s events).
Proof.
  unfold Limiter.run. revert s.
  induction events as [|e events IH]; intros s Hs; [done|].
  cbn [fold_left]. by apply IH, step_consistent.
Qed.

Lemma new_consistent max :
  Limiter.consistent max (Limiter.new (Thunk := Thunk) max).
Proof. unfold Limiter.consistent. cbn. split_and!; try done; lia. Qed.

(** X18. Whatever the event loop does, the limiter keeps count: [running]
    is the number of calls whose function has started and not settled, it
    never exceeds [maxConcurrent] (a slot is given back when the function
    fulfils, rejects or throws), and the queue of the limiter stays
    empty. *)
Theorem limiter_bound (max : Z) (events : list Limiter.Event) :
  let s := Limiter.run invoke (Limiter.new max) events in
  Limiter.running (Limiter.limiter s)
  = Z.of_nat (Limiter.inFlight (Limiter.calls s))
  /\ (Limiter.running (Limiter.limiter s) <= Z.max 0 max)%Z
  /\ Limiter.queue (Limiter.limiter s) = [].
Proof.
  intros s.
  destruct (run_consistent max _ events (new_consistent max))
    as (Hr & Hb & Hq & _).
  fold s in Hr, Hb, Hq. rewrite Hr. by split_and!.
Qed.

(** While no call waits and the calls in flight plus the calls of [add]
    still to come fit into the limiter, no call ever waits. *)
Lemma run_no_waiting max events :
  forall s k,
    Limiter.consistent max s ->
    forallb (fun c => negb (Limiter.isWaiting c)) (Limiter.calls s) = true ->
    Limiter.inFlight (Limiter.calls s) <= k ->
    (Z.of_nat (k + Limiter.adds events) <= max)%Z ->
    forallb (fun c => negb (Limiter.isWaiting c))
      (Limiter.calls (Limiter.run invoke s events)) = true.
Proof.
  unfold Limiter.run.
  induction events as [|e events IH]; intros s k Hs Hw Hk Hmax; [done|].
  cbn [fold_left]. pose proof (step_consistent max s e Hs) as Hs'.
  destruct s as [[r q m] cs]. destruct Hs as (Hr & Hb & Hq & Hm).
  cbn [Limiter.limiter Limiter.calls Limiter.running Limiter.queue
       Limiter.maxConcurrent] in *. subst q m.
  destruct e as [throws|i|i ok].
  - assert (Hadds : Limiter.adds (Limiter.Add throws :: events)
                    = S (Limiter.adds events)) by done.
    rewrite Hadds in Hmax.
    apply (IH _ (S k)); [done | | | lia].
    + cbn [Limiter.step]. rewrite enter_consistent.
      destruct (Z.leb_spec max r) as [Hle|Hlt]; [lia|].
      destruct throws; fields; by rewrite waiting_snoc, Hw.
    + cbn [Limiter.step]. rewrite enter_consistent.
      destruct (Z.leb_spec max r) as [Hle|Hlt]; [lia|].
      destruct throws; fields; rewrite inFlight_snoc; simpl; lia.
  - assert (Hadds : Limiter.adds (Limiter.Wake i :: events)
                    = Limiter.adds events) by done.
    rewrite Hadds in Hmax.
    assert (Hstep : Limiter.step invoke
                      (Limiter.mkState (Limiter.mk r [] max) cs)
                      (Limiter.Wake i)
                    = Limiter.mkState (Limiter.mk r [] max) cs).
    { cbn [Limiter.step Limiter.calls].
      destruct (cs !! i) as [[throws| | |]|] eqn:Hi; try done.
      rewrite forallb_forall in Hw.
      apply list_elem_of_lookup_2, list_elem_of_In, Hw in Hi. done. }
    rewrite Hstep in *. by apply (IH _ k).
  - assert (Hadds : Limiter.adds (Limiter.Settle i ok :: events)
                    = Limiter.adds events) by done.
    rewrite Hadds in Hmax.
    apply (IH _ k); [done | | | done].
    + cbn [Limiter.step Limiter.calls].
      destruct (cs !! i) as [[throws| | |]|] eqn:Hi; try done.
      rewrite release_consistent. fields.
      apply waiting_insert; [done | by destruct ok].
    + cbn [Limiter.step Limiter.calls].
      destruct (cs !! i) as [[throws| | |]|] eqn:Hi; try done.
      rewrite release_consistent. fields.
      pose proof (inFlight_insert cs i _
                    (if ok then Limiter.Fulfilled else Limiter.Rejected) Hi)
        as Hin.
      destruct ok; fields in Hin; lia.
Qed.

Lemma idle_inFlight calls : Limiter.idle calls -> Limiter.inFlight calls = 0.
Proof.
  unfold Limiter.idle, Limiter.inFlight.
  induction calls as [|c calls IH]; [done|]. simpl.
  intros [[Hc _]%andb_prop Hrest]%andb_prop.
  destruct (Limiter.isRunning c); [done|]. by apply IH.
Qed.

Lemma idle_no_waiting calls :
  Limiter.idle calls ->
  forallb (fun c => negb (Limiter.isWaiting c)) calls = true.
Proof.
  unfold Limiter.idle. rewrite !forallb_forall.
  intros Hall c Hc. by apply Hall, andb_prop in Hc as [_ ?].
Qed.

(** X19. Once every earlier call has settled, calls of [add] that are not
    more than [maxConcurrent] are all admitted at once: none of them is ever
    made to wait, in whatever order the event loop resumes and settles
    them. *)
Theorem limiter_admits_batch (max : Z) (before batch : list Limiter.Event)
    (call : Limiter.Call) :
  let s := Limiter.run invoke (Limiter.new max) before in
  Limiter.idle (Limiter.calls s) ->
  (Z.of_nat (Limiter.adds batch) <= max)%Z ->
  call ∈ Limiter.calls (Limiter.run invoke s batch) ->
  Limiter.isWaiting call = false.
Proof.
  intros s Hidle Hmax Hcall.
  pose proof (run_no_waiting max batch s 0
                (run_consistent max _ before (new_consistent max))
                (idle_no_waiting _ Hidle)) as Hall.
  rewrite (idle_inFlight _ Hidle) in Hall.
  specialize (Hall (le_n 0) Hmax). rewrite forallb_forall in Hall.
  apply list_elem_of_In, Hall in Hcall. by destruct (Limiter.isWaiting call).
Qed.

End LimiterProperties.

(** ** URLs with a version of their own *)







Section Versions.
Context {L : UrlLib}.


End Versions.

(** ** The command [crawl <url>] *)

Section Command.
Context {L : UrlLib}.
Variable web : jsstring -> Response.
Variable pick : list jsstring -> nat.
Variable failedReport : list FailedPage -> jsstring.

(** X21. When the command [crawl <url>] returns, it has fetched the pages
    that can be reached from the seed by in-scope links of pages that load:
    all of them, nothing else, and each one once. *)
Theorem crawlCommand_fetches_site (fuel : nat) (url : jsstring)
    (fs : FileSystem) (w : World) :
  crawlCommand web pick failedReport fuel url fs = Some (Returned w) ->
  exists self,
    SiteIndexer_new url false = Some self
    /\ NoDup (dispatched w)
    /\ forall u, u ∈ dispatched w <-> reachable web self u.
Proof.
  unfold crawlCommand.
  destruct (SiteIndexer_new url false) as [self|] eqn:Hnew; [|done].
  intros [= Hrun]. exists self. split; [done|].
  destruct (SiteIndexer_new_fields url self Hnew) as (_ & Hv & Hq & _).
  pose proof (start_frontier web pick failedReport fuel self fs Hv) as [Hnd _].
  pose proof (start_sound web pick failedReport fuel self fs Hq)
    as (_ & _ & Hd).
  rewrite Hrun in Hnd, Hd. cbn [worldOf] in *. split; [done|].
  intros u. split; [apply Hd|].
  destruct (start_Returned _ _ _ _ _ _ _ Hrun) as (w0 & d & Hloop & _ & ->).
  by apply (crawlLoop_exhaust web pick fuel self fs w0 Hv Hloop).
Qed.

End Command.

(** ** The order in which tasks settle *)

Section Schedulers.
Context {L : UrlLib}.
Variable web : jsstring -> Response.
Variable failedReport : list FailedPage -> jsstring.

(** X22. Which pages a crawl fetches does not depend on timing: two runs
    from the same crawler object that return, under whatever orders of
    settling and bounds on the waves, have fetched the same URLs, possibly
    in another order, and count the same number of successful pages. *)
Theorem crawl_scheduler_independent (pick1 pick2 : list jsstring -> nat)
    (fuel1 fuel2 : nat) (self : SiteIndexer) (fs1 fs2 : FileSystem)
    (w1 w2 : World) :
  visited self = ∅ -> queue self = [] ->
  start web pick1 failedReport fuel1 self fs1 = Returned w1 ->
  start web pick2 failedReport fuel2 self fs2 = Returned w2 ->
  dispatched w1 ≡ₚ dispatched w2
  /\ successfulPages (indexer w1) = successfulPages (indexer w2).
Proof.
  intros Hv Hq Hrun1 Hrun2.
  assert (Hperm : dispatched w1 ≡ₚ dispatched w2).
  { pose proof (start_frontier web pick1 failedReport fuel1 self fs1 Hv)
      as [Hnd1 _].
    pose proof (start_frontier web pick2 failedReport fuel2 self fs2 Hv)
      as [Hnd2 _].
    pose proof (start_sound web pick1 failedReport fuel1 self fs1 Hq)
      as (_ & _ & Hd1).
    pose proof (start_sound web pick2 failedReport fuel2 self fs2 Hq)
      as (_ & _ & Hd2).
    rewrite Hrun1 in Hnd1, Hd1. rewrite Hrun2 in Hnd2, Hd2.
    cbn [worldOf] in *.
    destruct (start_Returned _ _ _ _ _ _ _ Hrun1)
      as (v1 & d1 & Hloop1 & _ & E1).
    destruct (start_Returned _ _ _ _ _ _ _ Hrun2)
      as (v2 & d2 & Hloop2 & _ & E2).
    apply NoDup_Permutation; [done | done |]. intros u. split; intros Hu.
    - rewrite E2. cbn [dispatched set_disk].
      by apply (crawlLoop_exhaust web pick2 fuel2 self fs2 v2 Hv Hloop2), Hd1.
    - rewrite E1. cbn [dispatched set_disk].
      by apply (crawlLoop_exhaust web pick1 fuel1 self fs1 v1 Hv Hloop1), Hd2. }
  split; [done|].
  destruct (start_corpus _ _ _ _ _ _ _ Hrun1) as [Hc1 Hs1].
  destruct (start_corpus _ _ _ _ _ _ _ Hrun2) as [Hc2 Hs2].
  rewrite Hs1, Hs2, Hc1, Hc2, !omap_pageSection_length. f_equal.
  apply Permutation_length.
  clear -Hperm. induction Hperm as [|x l l' _ IH|x y l|l l' l'' _ IH1 _ IH2].
  - done.
  - simpl. destruct (loads web x); [by constructor | done].
  - simpl. destruct (loads web x), (loads web y); try done. constructor.
  - by etrans.
Qed.

End Schedulers.

(** ** The files of the pages mirror the paths of their URLs *)

Lemma plainName_intro name :
  name <> [] -> SLASH ∉ name -> name <> str "." -> name <> str ".." ->
  plainName name = true.
Proof.
  intros H0 Hs H1 H2. unfold plainName.
  rewrite !andb_true_iff, !negb_true_iff, !bool_decide_eq_false.
  split_and!; try done. by destruct name.
Qed.

Lemma plainName_md name :
  plainName name = true -> plainName (name ++ str ".md") = true.
Proof.
  intros (H0 & Hs & _)%plainName_spec. apply plainName_intro.
  - by destruct name.
  - rewrite elem_of_app. intros [?|Hmd]; [done|]. by apply md_slash_free.
  - intros Heq. apply (f_equal (@length N)) in Heq.
    rewrite length_app in Heq. simpl in Heq. lia.
  - intros Heq. apply (f_equal (@length N)) in Heq.
    rewrite length_app in Heq. simpl in Heq. lia.
Qed.

(** Segments that are plain names or empty: normalization drops the empty
    ones and keeps the others. *)
Lemma normalizeSegments_sparse allow res segs :
  Forall (fun seg => seg = [] \/ plainName seg = true) segs ->
  Path.normalizeSegments allow res segs
  = rev res ++ List.filter JS.truthy segs.
Proof.
  intros Hall. revert res.
  induction Hall as [|seg segs [->|Hseg] _ IH]; intros res.
  - simpl. by rewrite app_nil_r.
  - cbn [Path.normalizeSegments List.filter JS.truthy].
    rewrite decide_True by (by left). apply IH.
  - apply plainName_spec in Hseg as (H0 & _ & H1 & H2).
    cbn [Path.normalizeSegments List.filter].
    rewrite decide_False by (by intros [?|?]).
    rewrite decide_False by done. rewrite IH. simpl rev.
    destruct seg as [|c seg]; [done|]. simpl JS.truthy. cbv iota.
    by rewrite <- app_assoc.
Qed.

(** The last step of [getOutputFilePath] for a path made of plain
    segments. *)
Lemma Path_join_output domain segs :
  plainName domain = true -> segs <> [] -> forallb plainName segs = true ->
  Path.join [str "output"; domain; SLASH :: JS.join [SLASH] segs]
  = JS.join [SLASH] (str "output" :: domain :: segs).
Proof.
  intros Hd Hne Hp.
  set (kept := str "output" :: domain :: segs).
  assert (Hkept : forallb plainName kept = true).
  { unfold kept. cbn [forallb]. by rewrite Hd, Hp. }
  destruct (join_plain_shape kept) as (c & t & d & Hj & Hc & Hl & Hdl);
    [done | done |].
  assert (Hjoined : JS.join [SLASH]
                      (List.filter JS.truthy
                         [str "output"; domain; SLASH :: JS.join [SLASH] segs])
                    = JS.join [SLASH] (str "output" :: domain :: [] :: segs)).
  { apply plainName_spec in Hd as (H0 & _). destruct domain; [done|].
    cbn [List.filter JS.truthy]. rewrite !join_cons_cons.
    destruct segs as [|s segs']; [done|]. by rewrite !join_cons_cons. }
  assert (Hsame : JS.join [SLASH] (str "output" :: domain :: [] :: segs)
                  = str "output" ++ [SLASH] ++ domain ++ [SLASH] ++ [SLASH]
                    ++ JS.join [SLASH] segs).
  { destruct segs as [|s segs']; [done|]. by rewrite !join_cons_cons. }
  assert (Hlast : last (JS.join [SLASH] (str "output" :: domain :: [] :: segs))
                  = Some d).
  { rewrite Hsame. unfold kept in Hl.
    destruct (join_plain_shape segs Hne Hp) as (c' & t' & d' & _ & _ & Hl' & _).
    destruct segs as [|s segs']; [done|]. rewrite !join_cons_cons in Hl.
    rewrite !last_app, Hl' in Hl. by rewrite !last_app, Hl'. }
  assert (Hsplit : JS.split SLASH
                     (JS.join [SLASH] (str "output" :: domain :: [] :: segs))
                   = str "output" :: domain :: [] :: segs).
  { apply split_join; [done|].
    pose proof (plain_segments_free kept Hkept) as Hfree. unfold kept in Hfree.
    inversion Hfree as [|? ? Ho Hrest]; subst.
    inversion Hrest as [|? ? Hdm Hsegs]; subst.
    repeat constructor; try done. apply not_elem_of_nil. }
  assert (Hsparse : Forall (fun seg => seg = [] \/ plainName seg = true)
                      (str "output" :: domain :: [] :: segs)).
  { rewrite forallb_forall in Hp.
    constructor; [right; reflexivity|]. constructor; [by right|].
    constructor; [by left|].
    apply Forall_forall. intros seg Hseg. right.
    by apply Hp, list_elem_of_In. }
  assert (Hfilter : List.filter JS.truthy (str "output" :: domain :: [] :: segs)
                    = kept).
  { unfold kept. apply plainName_spec in Hd as (H0 & _).
    destruct domain; [done|]. cbn [List.filter JS.truthy]. do 2 f_equal.
    by apply filter_truthy_plain. }
  assert (Hstart : JS.startsWith
                     (JS.join [SLASH] (str "output" :: domain :: [] :: segs))
                     (str "/") = false).
  { rewrite Hsame. reflexivity. }
  assert (Hend : JS.endsWith
                   (JS.join [SLASH] (str "output" :: domain :: [] :: segs))
                   (str "/") = false).
  { by apply (endsWith_last_ne _ d SLASH). }
  assert (Hnorm : Path.normalize
                    (JS.join [SLASH] (str "output" :: domain :: [] :: segs))
                  = JS.join [SLASH] kept).
  { unfold Path.normalize. rewrite Hsplit, Hstart, Hend.
    rewrite normalizeSegments_sparse, Hfilter by done.
    simpl rev. rewrite app_nil_l, Hj.
    destruct (JS.join [SLASH] (str "output" :: domain :: [] :: segs));
      [done|].
    simpl. by rewrite app_nil_r. }
  unfold Path.join. rewrite Hjoined.
  destruct (JS.join [SLASH] (str "output" :: domain :: [] :: segs))
    as [|c0 joined]; [done|].
  exact Hnorm.
Qed.

Section Mirror.
Context {L : UrlLib}.

Lemma getOutputFilePath_segments self url parsed segs :
  url_new url = Some parsed -> plainName (baseDomain self) = true ->
  segs <> [] -> forallb plainName segs = true ->
  url_pathname parsed = SLASH :: JS.join [SLASH] segs ->
  getOutputFilePath self url
  = Some (JS.join [SLASH] (str "output" :: baseDomain self :: segs)
          ++ (if JS.endsWith (JS.join [SLASH] segs) (str ".md")
              then [] else str ".md")).
Proof.
  intros Hnew Hd Hne Hp Hpath. unfold getOutputFilePath.
  rewrite Hnew. cbn [mbind option_bind]. rewrite Hpath.
  pose proof (join_nonempty segs Hne Hp) as Hj.
  rewrite decide_False.
  2:{ intros Heq. injection Heq as Heq. done. }
  assert (Hmd : JS.endsWith (SLASH :: JS.join [SLASH] segs) (str ".md")
                = JS.endsWith (JS.join [SLASH] segs) (str ".md")).
  { unfold JS.endsWith. simpl rev at 1.
    apply (startsWith_before_slash _ []).
    apply (bool_decide_eq_false_1 _). by vm_compute. }
  rewrite Hmd.
  destruct (JS.endsWith (JS.join [SLASH] segs) (str ".md")) eqn:E.
  - rewrite app_nil_r. f_equal. by apply Path_join_output.
  - f_equal.
    destruct (exists_last Hne) as (init & name & ->).
    assert (Hinit : forallb plainName init = true /\ plainName name = true).
    { rewrite forallb_app in Hp. apply andb_prop in Hp as [? Hn]. simpl in Hn.
      by rewrite andb_true_r in Hn. }
    destruct Hinit as [Hinit Hname].
    assert (Hmove : forall pre,
              JS.join [SLASH] (pre ++ init ++ [name]) ++ str ".md"
              = JS.join [SLASH] (pre ++ init ++ [name ++ str ".md"])).
    { intros pre. rewrite !app_assoc.
      destruct (pre ++ init) as [|x rest] eqn:Epre; [done|].
      rewrite !join_snoc by done. by rewrite <- !app_assoc. }
    pose proof (Hmove []) as H1.
    pose proof (Hmove [str "output"; baseDomain self]) as H2.
    cbn [app] in H1, H2. rewrite <- app_comm_cons, H1, H2.
    apply Path_join_output; [done | by destruct init |].
    rewrite forallb_app, Hinit. simpl. by rewrite plainName_md.
Qed.

(** X23. The file of a page mirrors the path of its URL: for a host name
    that is a plain directory name, a path of plain segments
    [/s1/.../sn] is saved as [output/<host>/s1/.../sn], with [.md] added
    unless the path ends with it already, and the path [/] as
    [output/<host>/index.md]. *)
Theorem getOutputFilePath_mirrors (self : SiteIndexer) (url : jsstring)
    (parsed : URLParse) :
  url_new url = Some parsed -> plainName (baseDomain self) = true ->
  (url_pathname parsed = str "/" ->
   getOutputFilePath self url
   = Some (str "output/" ++ baseDomain self ++ str "/index.md"))
  /\ (forall segs,
        segs <> [] -> forallb plainName segs = true ->
        url_pathname parsed = SLASH :: JS.join [SLASH] segs ->
        getOutputFilePath self url
        = Some (JS.join [SLASH] (str "output" :: baseDomain self :: segs)
                ++ (if JS.endsWith (JS.join [SLASH] segs) (str ".md")
                    then [] else str ".md"))).
Proof.
  intros Hnew Hd. split.
  - intros Hroot. unfold getOutputFilePath. rewrite Hnew.
    cbn [mbind option_bind]. rewrite Hroot. rewrite decide_True by done.
    change (JS.endsWith (str "/index") (str ".md")) with false. cbv iota.
    change (str "/index" ++ str ".md")
      with (SLASH :: JS.join [SLASH] [str "index.md"]).
    rewrite Path_join_output by done. rewrite !join_cons_cons.
    change (str "output/") with (str "output" ++ [SLASH]).
    by rewrite <- app_assoc.
  - intros segs. by apply getOutputFilePath_segments.
Qed.

End Mirror.

Lemma getOutputFilePath_mirrors_witness :
  let self := indexerFor "https://x.test/" in
  let root := str "https://x.test/" in
  let page := str "https://x.test/docs/api" in
  url_new (UrlLib := PlainUrl.lib) root = Some (PlainUrl.parse root)
  /\ url_new (UrlLib := PlainUrl.lib) page = Some (PlainUrl.parse page)
  /\ plainName (baseDomain self) = true
  /\ url_pathname (UrlLib := PlainUrl.lib) (PlainUrl.parse root) = str "/"
  /\ [str "docs"; str "api"] <> []
  /\ forallb plainName [str "docs"; str "api"] = true
  /\ url_pathname (UrlLib := PlainUrl.lib) (PlainUrl.parse page)
     = SLASH :: JS.join [SLASH] [str "docs"; str "api"]
  /\ getOutputFilePath (L := PlainUrl.lib) self root
     = Some (str "output/x.test/index.md")
  /\ getOutputFilePath (L := PlainUrl.lib) self page
     = Some (str "output/x.test/docs/api.md").
Proof.
  intros self root page.
  assert (Hroot : url_new (UrlLib := PlainUrl.lib) root
                  = Some (PlainUrl.parse root)) by reflexivity.
  assert (Hnew : url_new (UrlLib := PlainUrl.lib) page
                 = Some (PlainUrl.parse page)) by reflexivity.
  assert (Hd : plainName (baseDomain self) = true) by reflexivity.
  assert (Hslash : url_pathname (UrlLib := PlainUrl.lib) (PlainUrl.parse root)
                   = str "/") by reflexivity.
  assert (Hne : [str "docs"; str "api"] <> []) by discriminate.
  assert (Hp : forallb plainName [str "docs"; str "api"] = true)
    by reflexivity.
  assert (Hpath : url_pathname (UrlLib := PlainUrl.lib) (PlainUrl.parse page)
                  = SLASH :: JS.join [SLASH] [str "docs"; str "api"])
    by reflexivity.
  split; [exact Hroot|]. split; [exact Hnew|]. split; [exact Hd|].
  split; [exact Hslash|]. split; [exact Hne|]. split; [exact Hp|].
  split; [exact Hpath|]. split.
  - exact (proj1 (getOutputFilePath_mirrors (L := PlainUrl.lib) self root
                    (PlainUrl.parse root) Hroot Hd) Hslash).
  - exact (proj2 (getOutputFilePath_mirrors (L := PlainUrl.lib) self page
                    (PlainUrl.parse page) Hnew Hd)
             [str "docs"; str "api"] Hne Hp Hpath).
Defined.

(** ** The further properties on the example site *)

Lemma crawl_fetches_reachable_witness :
  let self := indexerFor "https://x.test/" in
  let u := str "https://x.test/a" in
  queue self = []
  /\ u ∈ dispatched (worldOf (demoCrawl demoWeb firstPending FS.fresh))
  /\ reachable (L := PlainUrl.lib) demoWeb self u
  /\ (u = baseUrl self \/ isValidUrl (L := PlainUrl.lib) self u = true).
Proof.
  intros self u.
  assert (Hq : queue self = []) by reflexivity.
  assert (Hu : u ∈ dispatched (worldOf (demoCrawl demoWeb firstPending FS.fresh))).
  { apply (bool_decide_eq_true_1 _). vm_compute. reflexivity. }
  split; [exact Hq|]. split; [exact Hu|].
  exact (crawl_fetches_reachable (L := PlainUrl.lib) demoWeb firstPending
           demoReport 10 self FS.fresh u Hq Hu).
Defined.

Lemma crawl_exhaustive_witness :
  let self := indexerFor "https://x.test/" in
  let w := worldOf (demoCrawl demoWeb firstPending FS.fresh) in
  let u := str "https://x.test/a" in
  visited self = ∅
  /\ start (L := PlainUrl.lib) demoWeb firstPending demoReport 10 self FS.fresh
     = Returned w
  /\ reachable (L := PlainUrl.lib) demoWeb self u
  /\ u ∈ dispatched w.
Proof.
  intros self w u.
  assert (Hv : visited self = ∅) by reflexivity.
  assert (Hrun : start (L := PlainUrl.lib) demoWeb firstPending demoReport 10
                   self FS.fresh = Returned w).
  { vm_compute. reflexivity. }
  assert (Hu : reachable (L := PlainUrl.lib) demoWeb self u).
  { apply (reachable_link demoWeb self (baseUrl self) u);
      [apply reachable_seed|].
    exists (mkDocument (str "Home")
              [Some (str "/a"); Some (str "/b");
               Some (str "https://other.test/c"); Some (str "#frag");
               Some (str "mailto:x@y.com")]
              (str "Welcome")), (str "/a").
    split; [reflexivity|]. split; [apply elem_of_cons; by left|].
    split; [reflexivity|]. split; reflexivity. }
  split; [exact Hv|]. split; [exact Hrun|]. split; [exact Hu|].
  exact (crawl_exhaustive (L := PlainUrl.lib) demoWeb firstPending demoReport
           10 self FS.fresh w u Hv Hrun Hu).
Defined.

Lemma referrers_sound_witness :
  let self := indexerFor "https://x.test/" in
  let w := worldOf (demoCrawl demoWeb firstPending FS.fresh) in
  let u := str "https://x.test/c" in
  let r := str "https://x.test/a" in
  queue self = [] /\ referrerMap self = ∅
  /\ u ∈ dispatched w
  /\ (u = baseUrl self \/ is_Some (referrerMap (indexer w) !! u))
  /\ referrerMap (indexer w) !! u = Some r
  /\ r ∈ dispatched w /\ linksTo (L := PlainUrl.lib) demoWeb self r u.
Proof.
  intros self w u r.
  assert (Hq : queue self = []) by reflexivity.
  assert (Hr : referrerMap self = ∅) by reflexivity.
  assert (Hu : u ∈ dispatched w).
  { apply (bool_decide_eq_true_1 _). vm_compute. reflexivity. }
  assert (Hl : referrerMap (indexer w) !! u = Some r).
  { vm_compute. reflexivity. }
  destruct (referrers_sound (L := PlainUrl.lib) demoWeb firstPending demoReport
              10 self FS.fresh Hq Hr) as [H1 H2].
  split; [exact Hq|]. split; [exact Hr|]. split; [exact Hu|].
  split; [exact (H1 u Hu)|]. split; [exact Hl|]. exact (H2 u r Hl).
Defined.


Lemma start_writes_corpus_witness :
  let self := indexerFor "https://x.test/" in
  let w := worldOf (demoCrawl demoWeb firstPending FS.fresh) in
  start (L := PlainUrl.lib) demoWeb firstPending demoReport 10 self FS.fresh
  = Returned w
  /\ failedPages (indexer w) <> []
  /\ files (disk w) !! corpusPath self
     = Some (JS.trim
               (JS.join [LF; LF] (omap (pageSection demoWeb) (dispatched w))))
  /\ files (disk w) !! failedUrlsPath self
     = Some (demoReport (failedPages (indexer w))).
Proof.
  intros self w.
  assert (Hrun : start (L := PlainUrl.lib) demoWeb firstPending demoReport 10
                   self FS.fresh = Returned w).
  { vm_compute. reflexivity. }
  assert (Hf : failedPages (indexer w) <> []).
  { vm_compute. discriminate. }
  destruct (start_writes_corpus (L := PlainUrl.lib) demoWeb firstPending
              demoReport 10 self FS.fresh w Hrun) as [H1 H2].
  split; [exact Hrun|]. split; [exact Hf|]. split; [exact H1 | exact (H2 Hf)].
Defined.

Lemma failures_reported_witness :
  let self := indexerFor "https://x.test/" in
  let w := worldOf (demoCrawl demoWeb firstPending FS.fresh) in
  let f := mkFailedPage (str "https://x.test/c")
             (str "Request failed with status code 404")
             (str "https://x.test/a") in
  visited self = ∅ /\ failedPages self = []
  /\ start (L := PlainUrl.lib) demoWeb firstPending demoReport 10 self FS.fresh
     = Returned w
  /\ f ∈ failedPages (indexer w)
  /\ map fp_url (failedPages (indexer w))
     ≡ₚ List.filter (fun u => negb (loads demoWeb u)) (dispatched w)
  /\ (exists error,
        demoWeb (fp_url f) = Failed error /\ fp_reason f = reasonOf error)
  /\ fp_referrer f = referrerOf (indexer w) (fp_url f).
Proof.
  intros self w f.
  assert (Hv : visited self = ∅) by reflexivity.
  assert (Hf : failedPages self = []) by reflexivity.
  assert (Hrun : start (L := PlainUrl.lib) demoWeb firstPending demoReport 10
                   self FS.fresh = Returned w).
  { vm_compute. reflexivity. }
  assert (Hin : f ∈ failedPages (indexer w)).
  { assert (Hfp : failedPages (indexer w) = [f]) by (vm_compute; reflexivity).
    rewrite Hfp. apply elem_of_cons. by left. }
  destruct (failures_reported (L := PlainUrl.lib) demoWeb firstPending
              demoReport 10 self FS.fresh w Hv Hf Hrun) as [H1 H2].
  split; [exact Hv|]. split; [exact Hf|]. split; [exact Hrun|].
  split; [exact Hin|]. split; [exact H1|]. exact (H2 f Hin).
Defined.

Lemma counters_add_up_witness :
  let self := indexerFor "https://x.test/" in
  let w := worldOf (demoCrawl demoWeb firstPending FS.fresh) in
  visited self = ∅ /\ failedPages self = [] /\ successfulPages self = 0
  /\ start (L := PlainUrl.lib) demoWeb firstPending demoReport 10 self FS.fresh
     = Returned w
  /\ successfulPages (indexer w)
     = length (List.filter (loads demoWeb) (dispatched w))
  /\ length (failedPages (indexer w))
     = length (List.filter (fun u => negb (loads demoWeb u)) (dispatched w))
  /\ successfulPages (indexer w) + length (failedPages (indexer w))
     = size (visited (indexer w)).
Proof.
  intros self w.
  assert (Hv : visited self = ∅) by reflexivity.
  assert (Hf : failedPages self = []) by reflexivity.
  assert (Hs : successfulPages self = 0) by reflexivity.
  assert (Hrun : start (L := PlainUrl.lib) demoWeb firstPending demoReport 10
                   self FS.fresh = Returned w).
  { vm_compute. reflexivity. }
  split; [exact Hv|]. split; [exact Hf|]. split; [exact Hs|].
  split; [exact Hrun|].
  exact (counters_add_up (L := PlainUrl.lib) demoWeb firstPending demoReport
           10 self FS.fresh w Hv Hf Hs Hrun).
Defined.

Lemma crawl_terminates_witness :
  let self := indexerFor "https://x.test/" in
  let site := [str "https://x.test"; str "https://x.test/a";
               str "https://x.test/b"; str "https://x.test/c"] in
  let hangs := fun u => bool_decide (u = str "https://x.test/never") in
  queue self = []
  /\ (forall u, reachable (L := PlainUrl.lib) demoWeb self u ->
        u ∈ site /\ hangs u = false)
  /\ exists fuel w,
       (forall extra,
          startOrHang (L := PlainUrl.lib) demoWeb hangs firstPending
            demoReport (fuel + extra) self FS.fresh = Ends (Returned w))
       \/ (forall extra,
             startOrHang (L := PlainUrl.lib) demoWeb hangs firstPending
               demoReport (fuel + extra) self FS.fresh = Ends (Threw w)).
Proof.
  intros self site hangs.
  assert (Hq : queue self = []) by reflexivity.
  assert (Hsite : forall u,
            reachable (L := PlainUrl.lib) demoWeb self u ->
            u ∈ site /\ hangs u = false).
  { intros u Hu.
    assert (Hin : u ∈ site).
    { revert u Hu.
      apply (closedSite_reachable (L := PlainUrl.lib) demoWeb self site).
      vm_compute. reflexivity. }
    split; [exact Hin|].
    assert (Hall : forallb (fun u => negb (hangs u)) site = true)
      by (vm_compute; reflexivity).
    rewrite forallb_forall in Hall.
    apply list_elem_of_In, Hall in Hin. by destruct (hangs u). }
  split; [exact Hq|]. split; [exact Hsite|].
  exact (crawl_terminates (L := PlainUrl.lib) demoWeb hangs firstPending
           demoReport self FS.fresh site Hq Hsite).
Defined.


Lemma start_returns_when_settled_witness :
  let self := indexerFor "https://x.test/" in
  let hangs := fun u => bool_decide (u = str "https://x.test/never") in
  let w := worldOf (demoCrawl demoWeb firstPending FS.fresh) in
  let url := str "https://x.test/c" in
  startOrHang (L := PlainUrl.lib) demoWeb hangs firstPending demoReport 10
    self FS.fresh
  = Ends (Returned w)
  /\ url ∈ dispatched w
  /\ hangs url = false.
Proof.
  intros self hangs w url.
  assert (Hrun : startOrHang (L := PlainUrl.lib) demoWeb hangs firstPending
                   demoReport 10 self FS.fresh = Ends (Returned w)).
  { vm_compute. reflexivity. }
  assert (Hin : url ∈ dispatched w).
  { apply (bool_decide_eq_true_1 _). vm_compute. reflexivity. }
  split; [exact Hrun|]. split; [exact Hin|].
  exact (start_returns_when_settled (L := PlainUrl.lib) demoWeb hangs
           firstPending demoReport 10 self FS.fresh w url Hrun Hin).
Defined.

Lemma limiter_admits_batch_witness :
  let invoke := fun (_ : unit) (s : Limiter.State unit) => s in
  let before := [Limiter.Add false; Limiter.Add true;
                 Limiter.Settle 0 true] in
  let batch := [Limiter.Add false; Limiter.Add false; Limiter.Wake 2;
                Limiter.Settle 3 false; Limiter.Add false] in
  let s := Limiter.run invoke (Limiter.new 5) before in
  Limiter.idle (Limiter.calls s)
  /\ (Z.of_nat (Limiter.adds batch) <= 5)%Z
  /\ Limiter.Running ∈ Limiter.calls (Limiter.run invoke s batch)
  /\ Limiter.isWaiting Limiter.Running = false.
Proof.
  intros invoke before batch s.
  assert (Hidle : Limiter.idle (Limiter.calls s)) by reflexivity.
  assert (Hmax : (Z.of_nat (Limiter.adds batch) <= 5)%Z) by (vm_compute; discriminate).
  assert (Hin : Limiter.Running ∈ Limiter.calls (Limiter.run invoke s batch)).
  { assert (Hcalls : Limiter.calls (Limiter.run invoke s batch)
                     = [Limiter.Fulfilled; Limiter.Rejected; Limiter.Running;
                        Limiter.Rejected; Limiter.Running])
      by reflexivity.
    rewrite Hcalls. apply elem_of_cons. right. apply elem_of_cons. right.
    apply elem_of_cons. by left. }
  split; [exact Hidle|]. split; [exact Hmax|]. split; [exact Hin|].
  exact (limiter_admits_batch invoke 5 before batch Limiter.Running
           Hidle Hmax Hin).
Defined.


Lemma crawlCommand_fetches_site_witness :
  let w := worldOf (demoCrawl demoWeb firstPending FS.fresh) in
  crawlCommand (L := PlainUrl.lib) demoWeb firstPending demoReport 10
    (str "https://x.test/") FS.fresh = Some (Returned w)
  /\ exists self,
       SiteIndexer_new (L := PlainUrl.lib) (str "https://x.test/") false
       = Some self
       /\ NoDup (dispatched w)
       /\ forall u, u ∈ dispatched w
                    <-> reachable (L := PlainUrl.lib) demoWeb self u.
Proof.
  intros w.
  assert (Hrun : crawlCommand (L := PlainUrl.lib) demoWeb firstPending
                   demoReport 10 (str "https://x.test/") FS.fresh
                 = Some (Returned w)).
  { vm_compute. reflexivity. }
  split; [exact Hrun|].
  exact (crawlCommand_fetches_site (L := PlainUrl.lib) demoWeb firstPending
           demoReport 10 (str "https://x.test/") FS.fresh w Hrun).
Defined.

Lemma crawl_scheduler_independent_witness :
  let self := indexerFor "https://x.test/" in
  let w1 := worldOf (demoCrawl demoWeb firstPending FS.fresh) in
  let w2 := worldOf (demoCrawl demoWeb lastPending FS.fresh) in
  visited self = ∅ /\ queue self = []
  /\ start (L := PlainUrl.lib) demoWeb firstPending demoReport 10 self FS.fresh
     = Returned w1
  /\ start (L := PlainUrl.lib) demoWeb lastPending demoReport 10 self FS.fresh
     = Returned w2
  /\ dispatched w1 ≡ₚ dispatched w2
  /\ successfulPages (indexer w1) = successfulPages (indexer w2).
Proof.
  intros self w1 w2.
  assert (Hv : visited self = ∅) by reflexivity.
  assert (Hq : queue self = []) by reflexivity.
  assert (Hrun1 : start (L := PlainUrl.lib) demoWeb firstPending demoReport 10
                    self FS.fresh = Returned w1).
  { vm_compute. reflexivity. }
  assert (Hrun2 : start (L := PlainUrl.lib) demoWeb lastPending demoReport 10
                    self FS.fresh = Returned w2).
  { vm_compute. reflexivity. }
  split; [exact Hv|]. split; [exact Hq|]. split; [exact Hrun1|].
  split; [exact Hrun2|].
  exact (crawl_scheduler_independent (L := PlainUrl.lib) demoWeb demoReport
           firstPending lastPending 10 10 self FS.fresh FS.fresh w1 w2
           Hv Hq Hrun1 Hrun2).
Defined.
